(** * NCERT revision assistant: retrieval and scoring pipeline

    A shallow embedding of [rag_retriever.py] (chunker, cosine scorer,
    [FileRAGRetriever]), of the Submit-Answer handler of [app.py], of the
    sentence chunker and saving loop of [chunk_text.py] and of the store
    and loading loop of [embed_and_store.py], followed by the properties
    of the pipeline.

    Conventions of the embedding:
    - a Python [str] is a list of Unicode code points ([N]);
    - a Python [float] / [numpy.float64] is a primitive binary64 float, so
      every arithmetic step rounds as the interpreter's does;
    - Python integers are [Z]; list slices follow Python's clamping rules;
    - code that talks to the outside (embedding and generation services,
      loggers, the Streamlit page, the file system, the retriever object
      and the session) runs in a state-and-exception monad over [world]. *)

From Stdlib Require Import Ascii String DecimalString.
From Stdlib Require Import ZArith NArith List Bool Lia Sorted Permutation.
From Stdlib Require Import Floats.
Import ListNotations.

(* ================================================================== *)
(** ** Python strings *)

Module Py.

(** A character is a Unicode code point, a string a list of them. *)
Definition char := N.
Definition str := list char.

(** An ASCII literal of the source, as code points. *)
Definition lit (s : string) : str :=
  List.map N_of_ascii (list_ascii_of_string s).

(** [str.isspace] on one character: the code points [str.split()] treats
    as separators. *)
Definition isspace (c : char) : bool :=
  ((9 <=? c) && (c <=? 13) || (28 <=? c) && (c <=? 32)
   || (c =? 133) || (c =? 160) || (c =? 5760)
   || (8192 <=? c) && (c <=? 8202)
   || (c =? 8232) || (c =? 8233) || (c =? 8239) || (c =? 8287)
   || (c =? 12288))%N.

(** [text.split()] with no argument: maximal runs of non-space characters.
    [cur] holds the word being read, reversed. *)
Fixpoint split_from (cur : str) (s : str) : list str :=
  match s with
  | [] => match cur with [] => [] | _ => [rev cur] end
  | c :: s' =>
      if isspace c
      then match cur with
           | [] => split_from [] s'
           | _ => rev cur :: split_from [] s'
           end
      else split_from (c :: cur) s'
  end.

Definition split (s : str) : list str := split_from [] s.

(** [sep.join(ws)] *)
Fixpoint join (sep : str) (ws : list str) : str :=
  match ws with
  | [] => []
  | [w] => w
  | w :: ws' => w ++ sep ++ join sep ws'
  end.

Definition space : str := [32%N].

(** Truth value of a string: non-empty. *)
Definition truthy (s : str) : bool :=
  match s with [] => false | _ => true end.

(** [s.strip()] with no argument. *)
Fixpoint lstrip (s : str) : str :=
  match s with
  | [] => []
  | c :: s' => if isspace c then lstrip s' else s
  end.

Definition strip (s : str) : str := rev (lstrip (rev (lstrip s))).

(** [str(n)] for a non-negative integer: its decimal numeral. *)
Definition decimal (n : nat) : str :=
  lit (NilEmpty.string_of_uint (Nat.to_uint n)).

(** Index clamping of a slice bound against a sequence of length [len]. *)
Definition clamp_index (len k : Z) : Z :=
  if (k <? 0)%Z then Z.max 0 (k + len) else Z.min k len.

(** [l[start:stop]] *)
Definition slice {A : Type} (l : list A) (start stop : Z) : list A :=
  let len := Z.of_nat (length l) in
  let s := clamp_index len start in
  let e := clamp_index len stop in
  firstn (Z.to_nat (e - s)) (skipn (Z.to_nat s) l).

(** [l[:stop]] *)
Definition slice_to {A : Type} (l : list A) (stop : Z) : list A :=
  let len := Z.of_nat (length l) in
  firstn (Z.to_nat (clamp_index len stop)) l.

End Py.

(* ================================================================== *)
(** ** Chunker: [chunk_text] of rag_retriever.py *)

Module Chunker.
Import Py.

Local Open Scope Z_scope.

(** The [while i < len(words)] loop.  The loop need not terminate, so it is
    run for at most [fuel] iterations of the loop test; [None] says the
    fuel ran out. *)
Fixpoint chunk_loop (fuel : nat) (words : list str) (chunk_size overlap : Z)
    (i : Z) (chunks : list str) : option (list str) :=
  match fuel with
  | O => None
  | S fuel' =>
      if i <? Z.of_nat (length words) then
        let chunk := join space (slice words i (i + chunk_size)) in
        let chunks' := if truthy chunk then chunks ++ [chunk] else chunks in
        chunk_loop fuel' words chunk_size overlap
                   (i + (chunk_size - overlap)) chunks'
      else Some chunks
  end.

Definition chunk_text_fuel (fuel : nat) (text : str) (chunk_size overlap : Z)
  : option (list str) :=
  chunk_loop fuel (split text) chunk_size overlap 0 [].

(** One loop test per word and a last one to leave: whenever the loop
    terminates at all it does so within this many tests
    (see [chunk_loop_diverges] and [chunk_loop_enough]). *)
Definition chunk_text (text : str) (chunk_size overlap : Z)
  : option (list str) :=
  chunk_text_fuel (S (length (split text))) text chunk_size overlap.

(** Defaults of the signature: [chunk_size=300, overlap=50]. *)
Definition default_chunk_size : Z := 300.
Definition default_overlap : Z := 50.

(** The words of a chunk outside its overlap with the chunk before it:
    the first chunk whole, every later chunk without its first [overlap]
    words. *)
Definition fresh_words (overlap : Z) (chunks : list str) : list str :=
  match chunks with
  | [] => []
  | c :: rest =>
      split c ++ flat_map (fun c' => skipn (Z.to_nat overlap) (split c')) rest
  end.

End Chunker.

(* ================================================================== *)
(** ** Exceptions and results *)

(** The exceptions the modelled code can meet.  [ExternalError] stands for
    whatever a service call raises; each carries [str(e)]. *)
Inductive exn : Type :=
| ValueError (msg : Py.str)
| FileNotFoundError (path : Py.str)
| ExternalError (msg : Py.str).

(** How a computation ends: with a value, with an exception, or not at
    all. *)
Inductive outcome (A : Type) : Type :=
| Ok (a : A)
| Raise (e : exn)
| Diverge.
Arguments Ok {A} a.
Arguments Raise {A} e.
Arguments Diverge {A}.

(* ================================================================== *)
(** ** Similarity scorer: [_cosine_sim] *)

Module Scorer.
Import Py.
Local Open Scope float_scope.

(** A one-dimensional [numpy] array of [float64]. *)
Definition vector := list float.

(** Fused multiply-add on binary64: [x * y + z] with the product kept
    exact and a single rounding of the sum.  For two finite factors the
    exact product is the mantissa product at the sum of the exponents;
    [SFadd] aligns it with [z] and rounds once, and with a zero [z] the
    product is rounded as [SFmul] does.  A product that is a zero, an
    infinity or NaN is exact as [SFmul] gives it. *)
Definition SFfma (x y z : spec_float) : spec_float :=
  match x, y, z with
  | S754_finite _ _ _, S754_finite _ _ _, S754_zero _ => SFmul prec emax x y
  | S754_finite sx mx ex, S754_finite sy my ey, _ =>
      SFadd prec emax (S754_finite (xorb sx sy) (mx * my) (ex + ey)) z
  | _, _, _ => SFadd prec emax (SFmul prec emax x y) z
  end.

Definition fma (x y z : float) : float :=
  SF2Prim (SFfma (Prim2SF x) (Prim2SF y) (Prim2SF z)).

(** [np.dot(a, b)] on one-dimensional [float64] arrays; [None] is the
    [ValueError] numpy raises when the shapes differ.  numpy hands the loop
    to the [ddot] kernel of its BLAS, whose loop [dot += x[i] * y[i]] is
    compiled to one fused multiply-add per component, starting from [0.0].
    The components are taken in index order, as the kernel's scalar loop
    takes them; its vectorised path, which vectors of sixteen components
    and more go through on x86-64, keeps several partial sums and adds them
    at the end, so that for such vectors the last bits may differ from the
    ones computed here. *)
Fixpoint dot_from (acc : float) (a b : vector) : option float :=
  match a, b with
  | [], [] => Some acc
  | x :: a', y :: b' => dot_from (fma x y acc) a' b'
  | _, _ => None
  end.

Definition dot (a b : vector) : option float := dot_from 0 a b.

(** [x.dot(x)], which cannot fail: the same kernel on one array. *)
Definition sqnorm (a : vector) : float :=
  fold_left (fun acc x => fma x x acc) a 0.

(** [np.linalg.norm(a)] with the default order on a one-dimensional real
    array: the square root of [a.dot(a)], with no rescaling against
    overflow or underflow. *)
Definition norm (a : vector) : float := sqrt (sqnorm a).

(** The value returned when the denominator is zero. *)
Definition sentinel : float := -1.

(** The [ValueError] of [np.dot] on arrays of [n] and [m] components; its
    text names the two shapes in argument order. *)
Definition shapes_not_aligned (n m : nat) : exn :=
  ValueError (lit "shapes (" ++ decimal n ++ lit ",) and (" ++ decimal m
              ++ lit ",) not aligned: " ++ decimal n ++ lit " (dim 0) != "
              ++ decimal m ++ lit " (dim 0)").

(** The denominator is computed and tested before the dot product is. *)
Definition _cosine_sim (a b : vector) : outcome float :=
  let denom := norm a * norm b in
  if denom =? 0 then Ok sentinel
  else match dot a b with
       | Some d => Ok (d / denom)
       | None => Raise (shapes_not_aligned (length a) (length b))
       end.

End Scorer.

(* ================================================================== *)
(** ** Grading rule: the [if sim > 0.85 / elif sim > 0.6 / else] branch *)

Module Grading.
Local Open Scope float_scope.

Inductive feedback_band : Type := Correct | Partial | Incorrect | Unscored.

(** The literals [0.85] and [0.6] as the binary64 values they denote. *)
Definition correct_threshold : float := 0x1.b333333333333p-1.
Definition partial_threshold : float := 0x1.3333333333333p-1.

(** [sim > t] is [t < sim]. *)
Definition grade (similarity : option float) : feedback_band :=
  match similarity with
  | None => Unscored
  | Some sim =>
      if correct_threshold <? sim then Correct
      else if partial_threshold <? sim then Partial
      else Incorrect
  end.

End Grading.

(* ================================================================== *)
(** ** The world the program runs in *)

Module World.
Import Py.
Export Scorer Grading.

(** A call to one of the two hosted services. *)
Inductive request : Type :=
| EmbedRequest (model content : str)
| GenerateRequest (model prompt : str).

(** What a service call comes back with. *)
Inductive reply (A : Type) : Type :=
| Replied (a : A)
| Failed (e : exn).
Arguments Replied {A} a.
Arguments Failed {A} e.

(** The fields of the [FileRAGRetriever] instance. *)
Record retriever_obj : Type := {
  filepath : str;
  embed_model : str;
  chunks : list str;
  embeddings : list (option vector)
}.

(** The dictionaries [retrieve] returns. *)
Record scored_chunk : Type := {
  chunk_id : nat;
  filename : str;
  text : str;
  score : float
}.

(** The dictionaries appended to [st.session_state.conversation]. *)
Record turn : Type := {
  question : str;
  user_answer : str;
  model_answer : str;
  feedback : feedback_band;
  similarity : option float
}.

Inductive level : Type := INFO | WARNING | ERROR.

(** Log messages, by format string and arguments. *)
Inductive message : Type :=
| MsgInitializing (path : str)
| MsgFileNotFound (path : str)
| MsgChunking (n : nat)
| MsgEmbeddingFailed (e : exn)
| MsgRetrieving (top_k : Z) (query : str)
| MsgNoQueryEmbedding
| MsgRetrieved (n : nat)
| MsgNoChunksFound (question user_answer : str)
| MsgAnswered (question user_answer model_answer : str) (sim : option float)
| MsgGenerationError (question : str) (e : exn).

Definition log_record : Type := level * message.

(** What the handler puts on the Streamlit page. *)
Inductive widget : Type :=
| NoChunksWarning
| ModelAnswerHeading
| ModelAnswerBody (answer : str)
| FeedbackLine (band : feedback_band) (sim : float)
| NoFeedbackInfo
| ErrorNotice (e : exn).

(** Everything the code reads or writes.  A service's reply may depend on
    the calls made before it, oldest first in [requests]. *)
Record world : Type := {
  embedding_service : list request -> str -> str -> reply vector;
  generation_service : list request -> str -> str -> reply str;
  requests : list request;
  files : str -> option str;
  retriever : retriever_obj;
  logger : list log_record;
  response_logger : list log_record;
  page : list widget;
  conversation : list turn
}.

Definition with_requests (rs : list request) (w : world) : world :=
  {| embedding_service := embedding_service w;
     generation_service := generation_service w;
     requests := rs; files := files w; retriever := retriever w;
     logger := logger w; response_logger := response_logger w;
     page := page w; conversation := conversation w |}.

Definition with_retriever (r : retriever_obj) (w : world) : world :=
  {| embedding_service := embedding_service w;
     generation_service := generation_service w;
     requests := requests w; files := files w; retriever := r;
     logger := logger w; response_logger := response_logger w;
     page := page w; conversation := conversation w |}.

Definition with_logger (l : list log_record) (w : world) : world :=
  {| embedding_service := embedding_service w;
     generation_service := generation_service w;
     requests := requests w; files := files w; retriever := retriever w;
     logger := l; response_logger := response_logger w;
     page := page w; conversation := conversation w |}.

Definition with_response_logger (l : list log_record) (w : world) : world :=
  {| embedding_service := embedding_service w;
     generation_service := generation_service w;
     requests := requests w; files := files w; retriever := retriever w;
     logger := logger w; response_logger := l;
     page := page w; conversation := conversation w |}.

Definition with_page (p : list widget) (w : world) : world :=
  {| embedding_service := embedding_service w;
     generation_service := generation_service w;
     requests := requests w; files := files w; retriever := retriever w;
     logger := logger w; response_logger := response_logger w;
     page := p; conversation := conversation w |}.

Definition with_conversation (c : list turn) (w : world) : world :=
  {| embedding_service := embedding_service w;
     generation_service := generation_service w;
     requests := requests w; files := files w; retriever := retriever w;
     logger := logger w; response_logger := response_logger w;
     page := page w; conversation := c |}.

(** *** State-and-exception monad *)

Definition M (A : Type) : Type := world -> outcome A * world.

Definition ret {A : Type} (a : A) : M A := fun w => (Ok a, w).

Definition bind {A B : Type} (m : M A) (k : A -> M B) : M B :=
  fun w =>
    match m w with
    | (Ok a, w') => k a w'
    | (Raise e, w') => (Raise e, w')
    | (Diverge, w') => (Diverge, w')
    end.

Definition raise {A : Type} (e : exn) : M A := fun w => (Raise e, w).

(** [try: body / except Exception as e: handler] *)
Definition try_except {A : Type} (body : M A) (handler : exn -> M A) : M A :=
  fun w =>
    match body w with
    | (Raise e, w') => handler e w'
    | r => r
    end.

(** A pure step that may raise or not return. *)
Definition lift {A : Type} (o : outcome A) : M A := fun w => (o, w).

Definition get {A : Type} (field : world -> A) : M A :=
  fun w => (Ok (field w), w).

Definition modify (f : world -> world) : M unit :=
  fun w => (Ok tt, f w).

Declare Scope monad_scope.
Delimit Scope monad_scope with monad.
Notation "x <- m ;; k" := (bind m (fun x => k))
  (at level 61, m at next level, right associativity) : monad_scope.
Notation "m ;; k" := (bind m (fun _ => k))
  (at level 61, right associativity) : monad_scope.
Local Open Scope monad_scope.

(** *** Primitive effects *)

Definition log (l : level) (m : message) : M unit :=
  modify (fun w => with_logger (logger w ++ [(l, m)]) w).

Definition response_log (l : level) (m : message) : M unit :=
  modify (fun w => with_response_logger (response_logger w ++ [(l, m)]) w).

Definition st (x : widget) : M unit :=
  modify (fun w => with_page (page w ++ [x]) w).

Definition record_request (r : request) (w : world) : world :=
  with_requests (requests w ++ [r]) w.

(** [genai.embed_content(model=..., content=...)] followed by reading
    the embedding out of the response. *)
Definition embed_content (model content : str) : M (reply vector) :=
  fun w => (Ok (embedding_service w (requests w) model content),
            record_request (EmbedRequest model content) w).

(** [genai.GenerativeModel(model).generate_content(prompt)] followed by
    reading the text out of the response; a failure is raised. *)
Definition generate_content (model prompt : str) : M str :=
  fun w =>
    let w' := record_request (GenerateRequest model prompt) w in
    match generation_service w (requests w) model prompt with
    | Replied answer => (Ok answer, w')
    | Failed e => (Raise e, w')
    end.

End World.

(* ================================================================== *)
(** ** [list.sort]: the sort CPython runs

    The algorithm of [listobject.c] as of CPython 3.11, on the items of
    the list and the comparison [x < y] of their keys: natural runs are
    found left to right, short ones are extended by binary insertion to
    [minrun] items, and runs are merged by the powersort policy with
    galloping merges.  The C arrays are lists here, a slice is the piece
    of list it spans, and in-place merging returns the merged piece.  Each
    loop carries a bound on its iterations: a binary search on [n] items
    takes no more than [n] steps, a merge or the main loop consumes an
    item at each step. *)

Module ListSort.
Section Sort.

Variable A : Type.

(** [x < y] on the keys of two items; nothing is assumed of it. *)
Variable lt : A -> A -> bool.

Definition MIN_GALLOP : nat := 7.

(** *** [count_run]

    The length of the run that starts the list, and whether it is a
    descending one: strictly descending, or else not descending. *)
Fixpoint run_desc (prev : A) (l : list A) : nat :=
  match l with
  | [] => 0
  | x :: l' => if lt x prev then S (run_desc x l') else 0
  end.

Fixpoint run_asc (prev : A) (l : list A) : nat :=
  match l with
  | [] => 0
  | x :: l' => if lt x prev then 0 else S (run_asc x l')
  end.

Definition count_run (l : list A) : nat * bool :=
  match l with
  | [] => (0, false)
  | [_] => (1, false)
  | x :: y :: l' =>
      if lt y x then (2 + run_desc y l', true)
      else (2 + run_asc y l', false)
  end.

(** *** [binarysort]

    The [do ... while (l < r)] search for the slot of [pivot] among the
    sorted items [a]. *)
Fixpoint bisect (fuel : nat) (pivot : A) (a : list A) (l r : nat) : nat :=
  match fuel with
  | O => l
  | S fuel' =>
      let p := l + Nat.div2 (r - l) in
      if lt pivot (nth p a pivot)
      then (if l <? p then bisect fuel' pivot a l p else l)
      else (if S p <? r then bisect fuel' pivot a (S p) r else S p)
  end.

(** [sorted] is the part before [start], [todo] the items from [start]
    on, each inserted in turn. *)
Fixpoint binarysort (sorted todo : list A) : list A :=
  match todo with
  | [] => sorted
  | pivot :: todo' =>
      let l := match sorted with
               | [] => 0
               | _ => bisect (length sorted) pivot sorted 0 (length sorted)
               end in
      binarysort (firstn l sorted ++ [pivot] ++ skipn l sorted) todo'
  end.

(** *** [gallop_left] and [gallop_right]

    The doubling loop: [ofs] runs through 1, 3, 7, ... while it is below
    [maxofs] and [continue] holds of it. *)
Fixpoint gallop_ofs (fuel : nat) (continue : nat -> bool)
    (maxofs lastofs ofs : nat) : nat * nat :=
  match fuel with
  | O => (lastofs, ofs)
  | S fuel' =>
      if (ofs <? maxofs) && continue ofs
      then gallop_ofs fuel' continue maxofs ofs (2 * ofs + 1)
      else (lastofs, ofs)
  end.

(** The closing binary search, entered after [++lastofs]. *)
Fixpoint gallop_search (fuel : nat) (right : nat -> bool)
    (lastofs ofs : nat) : nat :=
  match fuel with
  | O => ofs
  | S fuel' =>
      if lastofs <? ofs then
        let m := lastofs + Nat.div2 (ofs - lastofs) in
        if right m then gallop_search fuel' right (S m) ofs
        else gallop_search fuel' right lastofs m
      else ofs
  end.

Definition gallop_left (key : A) (a : list A) (hint : nat) : nat :=
  let n := length a in
  let item i := nth i a key in
  if lt (item hint) key then
    let maxofs := n - hint in
    let '(lastofs, ofs) :=
      gallop_ofs n (fun ofs => lt (item (hint + ofs)) key) maxofs 0 1 in
    let ofs := Nat.min ofs maxofs in
    gallop_search (S n) (fun m => lt (item m) key)
      (S (lastofs + hint)) (ofs + hint)
  else
    let maxofs := S hint in
    let '(lastofs, ofs) :=
      gallop_ofs n (fun ofs => negb (lt (item (hint - ofs)) key))
        maxofs 0 1 in
    let ofs := Nat.min ofs maxofs in
    gallop_search (S n) (fun m => lt (item m) key)
      (S hint - ofs) (hint - lastofs).

Definition gallop_right (key : A) (a : list A) (hint : nat) : nat :=
  let n := length a in
  let item i := nth i a key in
  if lt key (item hint) then
    let maxofs := S hint in
    let '(lastofs, ofs) :=
      gallop_ofs n (fun ofs => lt key (item (hint - ofs))) maxofs 0 1 in
    let ofs := Nat.min ofs maxofs in
    gallop_search (S n) (fun m => negb (lt key (item m)))
      (S hint - ofs) (hint - lastofs)
  else
    let maxofs := n - hint in
    let '(lastofs, ofs) :=
      gallop_ofs n (fun ofs => negb (lt key (item (hint + ofs))))
        maxofs 0 1 in
    let ofs := Nat.min ofs maxofs in
    gallop_search (S n) (fun m => negb (lt key (item m)))
      (S (lastofs + hint)) (ofs + hint).

(** *** [merge_lo] and [merge_hi]

    The two loops of a merge: one item at a time while counting how often
    each run wins in a row, or galloping. *)
Inductive mode : Type :=
| Straight (acount bcount : nat)
| Galloping.

(** [min_gallop -= min_gallop > 1] *)
Definition ease (min_gallop : nat) : nat :=
  if 1 <? min_gallop then min_gallop - 1 else min_gallop.

(** [merge_lo] from its first loop on: [out] is what has been written,
    [a] and [b] what is left of the two runs.  The result is the merged
    slice and the [min_gallop] the merge state is left with. *)
Fixpoint merge_lo_loop (fuel : nat) (m : mode) (min_gallop : nat)
    (out a b : list A) : list A * nat :=
  match fuel with
  | O => (out ++ a ++ b, min_gallop)
  | S fuel' =>
      match a, b with
      | a0 :: a', b0 :: b' =>
          match m with
          | Straight acount bcount =>
              if lt b0 a0 then
                match b' with
                | [] => (out ++ [b0] ++ a, min_gallop)
                | _ =>
                    if min_gallop <=? S bcount
                    then merge_lo_loop fuel' Galloping (S min_gallop)
                           (out ++ [b0]) a b'
                    else merge_lo_loop fuel' (Straight 0 (S bcount))
                           min_gallop (out ++ [b0]) a b'
                end
              else
                match a' with
                | [_] => (out ++ [a0] ++ b ++ a', min_gallop)
                | _ =>
                    if min_gallop <=? S acount
                    then merge_lo_loop fuel' Galloping (S min_gallop)
                           (out ++ [a0]) a' b
                    else merge_lo_loop fuel' (Straight (S acount) 0)
                           min_gallop (out ++ [a0]) a' b
                end
          | Galloping =>
              let min_gallop := ease min_gallop in
              let k := gallop_right b0 a 0 in
              let out := out ++ firstn k a in
              let a := skipn k a in
              match k, a with
              | S _, [] => (out ++ b, min_gallop)
              | S _, [_] => (out ++ b ++ a, min_gallop)
              | _, [] => (out ++ b, min_gallop)
              | _, a0 :: a' =>
                  let out := out ++ [b0] in
                  match b' with
                  | [] => (out ++ a, min_gallop)
                  | _ =>
                      let k' := gallop_left a0 b' 0 in
                      let out := out ++ firstn k' b' in
                      let b := skipn k' b' in
                      match b with
                      | [] => (out ++ a, min_gallop)
                      | _ =>
                          let out := out ++ [a0] in
                          match a' with
                          | [_] => (out ++ b ++ a', min_gallop)
                          | _ =>
                              if (MIN_GALLOP <=? k) || (MIN_GALLOP <=? k')
                              then merge_lo_loop fuel' Galloping min_gallop
                                     out a' b
                              else merge_lo_loop fuel' (Straight 0 0)
                                     (S min_gallop) out a' b
                          end
                      end
                  end
              end
          end
      | _, _ => (out ++ a ++ b, min_gallop)
      end
  end.

Definition merge_lo (a b : list A) (min_gallop : nat) : list A * nat :=
  match b with
  | [] => (a, min_gallop)
  | b0 :: b' =>
      match b', a with
      | [], _ => ([b0] ++ a, min_gallop)
      | _, [_] => ([b0] ++ b' ++ a, min_gallop)
      | _, _ =>
          merge_lo_loop (length a + length b) (Straight 0 0) min_gallop
            [b0] a b'
      end
  end.

(** [merge_hi] works from the right end: [ra] and [rb] are what is left
    of the two runs, last item first, and [out] is the tail written so
    far. *)
Fixpoint merge_hi_loop (fuel : nat) (m : mode) (min_gallop : nat)
    (ra rb out : list A) : list A * nat :=
  match fuel with
  | O => (rev ra ++ rev rb ++ out, min_gallop)
  | S fuel' =>
      match ra, rb with
      | a0 :: ra', b0 :: rb' =>
          match m with
          | Straight acount bcount =>
              if lt b0 a0 then
                match ra' with
                | [] => (rev rb ++ [a0] ++ out, min_gallop)
                | _ =>
                    if min_gallop <=? S acount
                    then merge_hi_loop fuel' Galloping (S min_gallop)
                           ra' rb ([a0] ++ out)
                    else merge_hi_loop fuel' (Straight (S acount) 0)
                           min_gallop ra' rb ([a0] ++ out)
                end
              else
                match rb' with
                | [_] => (rev rb' ++ rev ra ++ [b0] ++ out, min_gallop)
                | _ =>
                    if min_gallop <=? S bcount
                    then merge_hi_loop fuel' Galloping (S min_gallop)
                           ra rb' ([b0] ++ out)
                    else merge_hi_loop fuel' (Straight 0 (S bcount))
                           min_gallop ra rb' ([b0] ++ out)
                end
          | Galloping =>
              let min_gallop := ease min_gallop in
              let na := length ra in
              let k := na - gallop_right b0 (rev ra) (na - 1) in
              let out := rev (firstn k ra) ++ out in
              let ra := skipn k ra in
              match ra with
              | [] => (rev rb ++ out, min_gallop)
              | a0 :: ra' =>
                  let out := [b0] ++ out in
                  match rb' with
                  | [_] => (rev rb' ++ rev ra ++ out, min_gallop)
                  | _ =>
                      let nb := length rb' in
                      let k' := nb - gallop_left a0 (rev rb') (nb - 1) in
                      let out := rev (firstn k' rb') ++ out in
                      let rb := skipn k' rb' in
                      match k', rb with
                      | S _, [_] => (rev rb ++ rev ra ++ out, min_gallop)
                      | S _, [] => (rev ra ++ out, min_gallop)
                      | _, _ =>
                          let out := [a0] ++ out in
                          match ra' with
                          | [] => (rev rb ++ out, min_gallop)
                          | _ =>
                              if (MIN_GALLOP <=? k) || (MIN_GALLOP <=? k')
                              then merge_hi_loop fuel' Galloping min_gallop
                                     ra' rb out
                              else merge_hi_loop fuel' (Straight 0 0)
                                     (S min_gallop) ra' rb out
                          end
                      end
                  end
              end
          end
      | _, _ => (rev ra ++ rev rb ++ out, min_gallop)
      end
  end.

Definition merge_hi (a b : list A) (min_gallop : nat) : list A * nat :=
  match rev a with
  | [] => (b, min_gallop)
  | a0 :: ra' =>
      match ra', b with
      | [], _ => (b ++ [a0], min_gallop)
      | _, [_] => (b ++ rev ra' ++ [a0], min_gallop)
      | _, _ =>
          merge_hi_loop (length a + length b) (Straight 0 0) min_gallop
            ra' (rev b) [a0]
      end
  end.

(** *** [merge_at]: two adjacent runs into one *)
Definition merge_at (a b : list A) (min_gallop : nat) : list A * nat :=
  match b with
  | [] => (a, min_gallop)
  | b0 :: _ =>
      let k := gallop_right b0 a 0 in
      let before := firstn k a in
      let a := skipn k a in
      match rev a with
      | [] => (before ++ b, min_gallop)
      | a_last :: _ =>
          let nb := gallop_left a_last b (length b - 1) in
          match nb with
          | O => (before ++ a ++ b, min_gallop)
          | _ =>
              let after := skipn nb b in
              let b := firstn nb b in
              let '(merged, min_gallop) :=
                if length a <=? length b then merge_lo a b min_gallop
                else merge_hi a b min_gallop in
              (before ++ merged ++ after, min_gallop)
          end
      end
  end.

(** *** The merge policy *)

(** [powerloop]: the first bit at which the midpoints of two adjacent
    runs, scaled to the list length [n], differ. *)
Fixpoint powerloop_from (fuel a b n result : nat) : nat :=
  match fuel with
  | O => result
  | S fuel' =>
      let result := S result in
      if n <=? a then powerloop_from fuel' (2 * (a - n)) (2 * (b - n)) n result
      else if n <=? b then result
      else powerloop_from fuel' (2 * a) (2 * b) n result
  end.

Definition powerloop (s1 n1 n2 n : nat) : nat :=
  powerloop_from (S n) (2 * s1 + n1) (2 * s1 + n1 + n1 + n2) n 0.

(** A pending run and its power.  The stack of pending runs has its top
    first. *)
Definition run : Type := (list A * nat)%type.

Definition slice (pending : list run) : list A :=
  concat (rev (List.map fst pending)).

(** The loop of [found_new_run]: while the run under the top has a
    greater power, merge it with the top. *)
Fixpoint merge_greater (fuel power : nat) (pending : list run)
    (min_gallop : nat) : list run * nat :=
  match fuel with
  | O => (pending, min_gallop)
  | S fuel' =>
      match pending with
      | (top, _) :: (second, p2) :: below =>
          if power <? p2 then
            let '(merged, min_gallop) := merge_at second top min_gallop in
            merge_greater fuel' power ((merged, p2) :: below) min_gallop
          else (pending, min_gallop)
      | _ => (pending, min_gallop)
      end
  end.

(** [found_new_run] for a new run of [n2] items in a list of [n]. *)
Definition found_new_run (n n2 : nat) (pending : list run)
    (min_gallop : nat) : list run * nat :=
  match pending with
  | [] => (pending, min_gallop)
  | (top, _) :: below =>
      let power := powerloop (length (slice below)) (length top) n2 n in
      let '(pending, min_gallop) :=
        merge_greater (length pending) power pending min_gallop in
      match pending with
      | (top, _) :: below => ((top, power) :: below, min_gallop)
      | [] => (pending, min_gallop)
      end
  end.

(** [merge_force_collapse] *)
Fixpoint merge_force_collapse (fuel : nat) (pending : list run)
    (min_gallop : nat) : list run * nat :=
  match fuel with
  | O => (pending, min_gallop)
  | S fuel' =>
      match pending with
      | (top, pt) :: (second, p2) :: below =>
          match below with
          | (third, p3) :: below' =>
              if length third <? length top then
                let '(merged, min_gallop) := merge_at third second min_gallop in
                merge_force_collapse fuel' ((top, pt) :: (merged, p3) :: below')
                  min_gallop
              else
                let '(merged, min_gallop) := merge_at second top min_gallop in
                merge_force_collapse fuel' ((merged, p2) :: below) min_gallop
          | [] =>
              let '(merged, min_gallop) := merge_at second top min_gallop in
              merge_force_collapse fuel' [(merged, p2)] min_gallop
          end
      | _ => (pending, min_gallop)
      end
  end.

(** [merge_compute_minrun] *)
Fixpoint minrun_from (fuel n r : nat) : nat :=
  match fuel with
  | O => n + r
  | S fuel' =>
      if 64 <=? n
      then minrun_from fuel' (Nat.div2 n) (if Nat.odd n then 1 else r)
      else n + r
  end.

Definition merge_compute_minrun (n : nat) : nat := minrun_from n n 0.

(** *** The main loop: one natural run at a time, left to right *)
Fixpoint sort_loop (fuel n minrun : nat) (pending : list run)
    (min_gallop : nat) (rest : list A) : list run * nat :=
  match fuel with
  | O => ((rest, 0) :: pending, min_gallop)
  | S fuel' =>
      match rest with
      | [] => (pending, min_gallop)
      | _ =>
          let '(count, descending) := count_run rest in
          let rest :=
            if descending then rev (firstn count rest) ++ skipn count rest
            else rest in
          let force :=
            if count <? minrun then Nat.min (length rest) minrun else count in
          let new_run :=
            binarysort (firstn count rest) (skipn count (firstn force rest)) in
          let '(pending, min_gallop) :=
            found_new_run n force pending min_gallop in
          sort_loop fuel' n minrun ((new_run, 0) :: pending) min_gallop
            (skipn force rest)
      end
  end.

(** [list.sort()] *)
Definition sort (l : list A) : list A :=
  let n := length l in
  if n <? 2 then l
  else
    let '(pending, min_gallop) :=
      sort_loop n n (merge_compute_minrun n) [] MIN_GALLOP l in
    let '(pending, _) :=
      merge_force_collapse (length pending) pending min_gallop in
    slice pending.

(** [list.sort(reverse=True)]: the list is reversed, sorted, and reversed
    again, which keeps the sort stable. *)
Definition sort_reverse (l : list A) : list A := rev (sort (rev l)).

End Sort.
End ListSort.

(* ================================================================== *)
(** ** [FileRAGRetriever] *)

Module Retriever.
Import Py.
Export World.
Import Chunker.
Local Open Scope monad_scope.

Definition text_embedding_model : str := lit "models/text-embedding-004".

(** [_embed]: every failure of the call is caught, logged and turned into
    [None]. *)
Definition _embed (content : str) : M (option vector) :=
  r <- get retriever ;;
  rep <- embed_content (embed_model r) content ;;
  match rep with
  | Replied emb => ret (Some emb)
  | Failed e => log ERROR (MsgEmbeddingFailed e) ;; ret None
  end.

Definition set_chunks (cs : list str) : M unit :=
  modify (fun w =>
    let r := retriever w in
    with_retriever {| filepath := filepath r; embed_model := embed_model r;
                      chunks := cs; embeddings := embeddings r |} w).

Definition set_embeddings (es : list (option vector)) : M unit :=
  modify (fun w =>
    let r := retriever w in
    with_retriever {| filepath := filepath r; embed_model := embed_model r;
                      chunks := chunks r; embeddings := es |} w).

(** [self.embeddings.append(emb)] *)
Definition append_embedding (emb : option vector) : M unit :=
  r <- get retriever ;;
  set_embeddings (embeddings r ++ [emb]).

(** [for chunk in self.chunks: ...] *)
Fixpoint embed_loop (todo : list str) : M unit :=
  match todo with
  | [] => ret tt
  | chunk :: rest =>
      emb <- _embed chunk ;;
      append_embedding emb ;;
      embed_loop rest
  end.

(** [chunk_text(text)] with the default sizes, as a step of the monad. *)
Definition run_chunk_text (content : str) : M (list str) :=
  match chunk_text content default_chunk_size default_overlap with
  | Some cs => ret cs
  | None => lift Diverge
  end.

Definition _load_and_embed_chunks : M unit :=
  r <- get retriever ;;
  fs <- get files ;;
  match fs (filepath r) with
  | None =>
      log ERROR (MsgFileNotFound (filepath r)) ;;
      raise (FileNotFoundError (filepath r))
  | Some content =>
      cs <- run_chunk_text content ;;
      set_chunks cs ;;
      set_embeddings [] ;;
      log INFO (MsgChunking (length cs)) ;;
      embed_loop cs
  end.

Definition __init__ (path : str) : M unit :=
  modify (with_retriever {| filepath := path;
                            embed_model := text_embedding_model;
                            chunks := []; embeddings := [] |}) ;;
  log INFO (MsgInitializing path) ;;
  _load_and_embed_chunks.

(** [os.path.basename]: what follows the last slash. *)
Fixpoint basename_from (cur : str) (p : str) : str :=
  match p with
  | [] => rev cur
  | c :: p' => if (c =? 47)%N then basename_from [] p'
               else basename_from (c :: cur) p'
  end.

Definition basename (p : str) : str := basename_from [] p.

(** The scan [for idx, (chunk, emb) in enumerate(zip(chunks, embeddings))];
    [_cosine_sim] may raise out of it. *)
Fixpoint score_loop (q_emb : vector) (fname : str) (idx : nat)
    (items : list (str * option vector)) (scored : list scored_chunk)
  : outcome (list scored_chunk) :=
  match items with
  | [] => Ok scored
  | (_, None) :: rest => score_loop q_emb fname (S idx) rest scored
  | (chunk, Some emb) :: rest =>
      match _cosine_sim q_emb emb with
      | Ok s =>
          score_loop q_emb fname (S idx) rest
            (scored ++ [{| chunk_id := idx; filename := fname;
                           text := chunk; score := s |}])
      | Raise e => Raise e
      | Diverge => Diverge
      end
  end.

(** [scored.sort(key=lambda x: x["score"], reverse=True)].  [list.sort]
    compares keys with [<] only and is stable, also under [reverse=True].
    Where [<] orders the keys, that is with no NaN among the scores, these
    two properties fix the result whatever the algorithm
    ([sort_desc_unique]): it is the list [stable_desc] builds by insertion.
    With a NaN among the scores [<] is not an order, and the result is what
    the algorithm of CPython leaves, spelled out in [ListSort]. *)
Definition score_lt (x y : scored_chunk) : bool :=
  (score x <? score y)%float.

Fixpoint insert_desc (x : scored_chunk) (l : list scored_chunk)
  : list scored_chunk :=
  match l with
  | [] => [x]
  | y :: l' =>
      if (score x <? score y)%float then y :: insert_desc x l'
      else x :: l
  end.

Definition stable_desc (l : list scored_chunk) : list scored_chunk :=
  fold_right insert_desc [] l.

Definition has_nan (l : list scored_chunk) : bool :=
  existsb (fun r => is_nan (score r)) l.

Definition sort_desc (l : list scored_chunk) : list scored_chunk :=
  if has_nan l then ListSort.sort_reverse scored_chunk score_lt l
  else stable_desc l.

Definition retrieve (query : str) (top_k : Z) : M (list scored_chunk) :=
  log INFO (MsgRetrieving top_k query) ;;
  q_emb <- _embed query ;;
  match q_emb with
  | None => log ERROR MsgNoQueryEmbedding ;; ret []
  | Some q =>
      r <- get retriever ;;
      scored <- lift (score_loop q (basename (filepath r)) 0
                        (combine (chunks r) (embeddings r)) []) ;;
      let ranked := sort_desc scored in
      log INFO (MsgRetrieved (length (slice_to ranked top_k))) ;;
      ret (slice_to ranked top_k)
  end.

(** *** Prompt builder *)

Definition newline : str := [10%N].
Definition dquote : str := [34%N].
Definition bullet : str := [8226%N].

(** [chunks_text += f"{i}) {chunk['text']}\n"], [i] counted from [start]. *)
Fixpoint passages (start : nat) (retrieved : list scored_chunk) : str :=
  match retrieved with
  | [] => []
  | c :: rest =>
      decimal start ++ lit ") " ++ text c ++ newline ++ passages (S start) rest
  end.

Definition template_head : list str :=
  [ [];
    lit "# Identity";
    lit "You are a knowledgeable NCERT Class 7 Social Science teacher who explains concepts clearly and simply to students.";
    [];
    lit "# Instructions";
    lit "* Use only the information provided in the " ++ dquote
      ++ lit "Passages" ++ dquote ++ lit " section.";
    lit "* Explain concepts in short, clear sentences suitable for a 12-year-old.";
    lit "* Use bullet points (" ++ bullet ++ lit ") for clarity.";
    lit "* Give one simple real-life example for each explanation.";
    lit "* Do not add extra information not in the passages.";
    [];
    lit "# Example";
    lit "<user_query>";
    lit "What is democracy?";
    lit "</user_query>";
    lit "<assistant_response>";
    bullet ++ lit " Democracy is a system where people choose their leaders.";
    bullet ++ lit " Leaders are elected through voting.";
    bullet ++ lit " Citizens have the right to take part in decision-making.";
    lit "Example: In India, citizens vote to choose the Prime Minister.";
    lit "</assistant_response>";
    [];
    lit "# Passages" ].

Definition build_teaching_prompt (query : str) (retrieved : list scored_chunk)
  : str :=
  let chunks_text := passages 1 retrieved in
  strip (join newline
           (template_head
            ++ [chunks_text; []; lit "# Question"; query; [];
                lit "# Answer"; []])).

End Retriever.

(* ================================================================== *)
(** ** The Submit-Answer handler of app.py *)

Module App.
Import Py.
Export Retriever.
Local Open Scope monad_scope.

Definition generation_model : str := lit "gemini-2.0-flash-lite".

(** [st.session_state.conversation.append(...)] *)
Definition append_turn (t : turn) : M unit :=
  modify (fun w => with_conversation (conversation w ++ [t]) w).

(** The body of the [try] block. *)
Definition answer_and_grade (question user_answer prompt : str) : M unit :=
  model_answer <- generate_content generation_model prompt ;;
  st ModelAnswerHeading ;;
  st (ModelAnswerBody model_answer) ;;
  user_emb <- _embed user_answer ;;
  model_emb <- _embed model_answer ;;
  sim <- match user_emb, model_emb with
         | Some u, Some m =>
             s <- lift (_cosine_sim u m) ;;
             st (FeedbackLine (grade (Some s)) s) ;;
             ret (Some s)
         | _, _ => st NoFeedbackInfo ;; ret None
         end ;;
  append_turn {| question := question; user_answer := user_answer;
                 model_answer := model_answer; feedback := grade sim;
                 similarity := sim |} ;;
  response_log INFO (MsgAnswered question user_answer model_answer sim).

(** The [except Exception as e] block. *)
Definition report_error (question : str) (e : exn) : M unit :=
  st (ErrorNotice e) ;;
  response_log ERROR (MsgGenerationError question e).

(** What runs when the Submit button is pressed. *)
Definition submit_answer (question user_answer : str) : M unit :=
  if truthy (strip user_answer) then
    results <- retrieve question 3 ;;
    match results with
    | [] =>
        st NoChunksWarning ;;
        response_log INFO (MsgNoChunksFound question user_answer)
    | _ :: _ =>
        let prompt := build_teaching_prompt question results in
        try_except (answer_and_grade question user_answer prompt)
                   (report_error question)
    end
  else ret tt.

End App.

(* ================================================================== *)
(** ** Sample worlds *)

Module Scenario.
Import Py.
Import App.
Local Open Scope float_scope.

Definition is_embed_request (r : request) : bool :=
  match r with EmbedRequest _ _ => true | GenerateRequest _ _ => false end.

(** A service that answers its n-th call with the n-th entry of a script
    and fails once the script is used up; [mine] tells its own calls from
    the other service's. *)
Definition scripted {A : Type} (mine : request -> bool)
    (script : list (reply A)) : list request -> str -> str -> reply A :=
  fun history _ _ =>
    nth (length (filter mine history)) script
        (Failed (ExternalError (lit "quota exceeded"))).

Definition chapter_path : str := lit "Understanding Media.txt".

(** A source text of 251 words: two chunks under the default sizes. *)
Definition chapter : str := concat (repeat (lit "media ") 251).

Definition chapter_only (path : str) : option str :=
  if list_eq_dec N.eq_dec path chapter_path then Some chapter else None.

(** The world before the retriever is built. *)
Definition blank (embedding : list (reply vector)) (generation : list (reply str))
  : world :=
  {| embedding_service := scripted is_embed_request embedding;
     generation_service :=
       scripted (fun r => negb (is_embed_request r)) generation;
     requests := [];
     files := chapter_only;
     retriever := {| filepath := []; embed_model := [];
                     chunks := []; embeddings := [] |};
     logger := []; response_logger := []; page := []; conversation := [] |}.

(** The world after [FileRAGRetriever("Understanding Media.txt")]. *)
Definition loaded (embedding : list (reply vector))
    (generation : list (reply str)) : world :=
  snd (__init__ chapter_path (blank embedding generation)).

Definition quota_error : exn := ExternalError (lit "quota exceeded").

(** Two chunk embeddings, then the query's: the second chunk matches. *)
Definition plain_world : world :=
  loaded [Replied [1; 0]; Replied [0; 1]; Replied [0; 1]] [].

(** The first chunk's embedding and the query's are so large that their
    squares overflow. *)
Definition overflow_world : world :=
  loaded [Replied [0x1p700]; Replied [1]; Replied [0x1p700]] [].

(** Every embedding call fails. *)
Definition offline_world : world := loaded [] [].

(** Chunk embeddings succeed, the query's does not. *)
Definition query_fails_world : world :=
  loaded [Replied [1; 0]; Replied [0; 1]] [].

Definition sample_question : str := lit "What is media?".
Definition sample_answer : str := lit "A means of communication.".

End Scenario.

(* ================================================================== *)
(** ** Sentence chunker: [aggressive_recursive_split] of chunk_text.py *)

Module SentenceChunker.
Import Py.
Local Open Scope Z_scope.

(** Module constants [CHUNK_SIZE] and [OVERLAP]. *)
Definition CHUNK_SIZE : Z := 500.
Definition OVERLAP : Z := 50.

(** The characters of the class [[.!?]]. *)
Definition ends_sentence (c : char) : bool :=
  ((c =? 46) || (c =? 33) || (c =? 63))%N.

(** [re.split(r'(?<=[.!?]) +', text)]: a separator is a maximal run of
    spaces (U+0020 only) that starts right after one of [. ! ?].  [cur] is
    the piece being read, reversed; [gap] says that the characters just
    read were the spaces of a separator.  A separator at the end of the
    text leaves an empty last piece, as [re.split] does. *)
Fixpoint sentences_from (cur : str) (gap : bool) (s : str) : list str :=
  match s with
  | [] => [rev cur]
  | c :: s' =>
      if (c =? 32)%N && gap then sentences_from cur true s'
      else if (c =? 32)%N
              && match cur with p :: _ => ends_sentence p | [] => false end
      then rev cur :: sentences_from [] true s'
      else sentences_from (c :: cur) false s'
  end.

Definition split_sentences (text : str) : list str :=
  sentences_from [] false text.

(** [l[start:]] *)
Definition slice_from {A : Type} (l : list A) (start : Z) : list A :=
  skipn (Z.to_nat (clamp_index (Z.of_nat (length l)) start)) l.

(** The [for sentence in sentences] loop, on the three variables it
    updates. *)
Fixpoint split_loop (sentences : list str) (chunk_size overlap : Z)
    (chunks : list str) (current_chunk : list str) (current_length : Z)
  : list str * list str :=
  match sentences with
  | [] => (chunks, current_chunk)
  | sentence :: rest =>
      let sentence_words := split sentence in
      let sentence_length := Z.of_nat (length sentence_words) in
      if current_length + sentence_length <=? chunk_size then
        split_loop rest chunk_size overlap chunks
          (current_chunk ++ sentence_words)
          (current_length + sentence_length)
      else
        let chunks' := chunks ++ [join space current_chunk] in
        let overlap_words :=
          if overlap =? 0 then [] else slice_from current_chunk (- overlap) in
        let current_chunk' := overlap_words ++ sentence_words in
        split_loop rest chunk_size overlap chunks' current_chunk'
          (Z.of_nat (length current_chunk'))
  end.

Definition aggressive_recursive_split (text : str) (chunk_size overlap : Z)
  : list str :=
  let '(chunks, current_chunk) :=
    split_loop (split_sentences text) chunk_size overlap [] [] 0 in
  match current_chunk with
  | [] => chunks
  | _ => chunks ++ [join space current_chunk]
  end.

End SentenceChunker.

(* ================================================================== *)
(** ** Offline store: [EmbedAndStore] of embed_and_store.py *)

Module Store.
Import Py.
Import World.

(** The records [process_chunks] inserts. *)
Record document : Type := {
  chapter : str;
  chunk_index : nat;
  doc_text : str;
  embedding : vector
}.

(** Log lines of the module, by format string and arguments. *)
Inductive store_message : Type :=
| MsgProcessing (idx total : nat)
| MsgEmbedFailed (e : exn)
| MsgStored (idx : nat)
| MsgSkipping (idx : nat)
| MsgChunkError (idx : nat) (e : exn).

(** What the script reads and writes: the embedding service and the calls
    made to it, the collection with the way [insert_one] answers (an
    exception or none, depending on what is stored and what is offered),
    and the log. *)
Record store : Type := {
  embedder : list request -> str -> str -> reply vector;
  calls : list request;
  insert_one_raises : list document -> document -> option exn;
  collection : list document;
  journal : list (level * store_message)
}.

Definition with_calls (cs : list request) (s : store) : store :=
  {| embedder := embedder s; calls := cs;
     insert_one_raises := insert_one_raises s;
     collection := collection s; journal := journal s |}.

Definition with_collection (c : list document) (s : store) : store :=
  {| embedder := embedder s; calls := calls s;
     insert_one_raises := insert_one_raises s;
     collection := c; journal := journal s |}.

Definition logging (l : level) (m : store_message) (s : store) : store :=
  {| embedder := embedder s; calls := calls s;
     insert_one_raises := insert_one_raises s;
     collection := collection s; journal := journal s ++ [(l, m)] |}.

Definition store_embedding_model : str := lit "models/text-embedding-004".

(** [embed_text]: the embedding list, or [None] after logging the
    failure. *)
Definition embed_text (content : str) (s : store) : option vector * store :=
  let s' := with_calls (calls s ++ [EmbedRequest store_embedding_model content])
              s in
  match embedder s (calls s) store_embedding_model content with
  | Replied emb => (Some emb, s')
  | Failed e => (None, logging ERROR (MsgEmbedFailed e) s')
  end.

(** Truth value of [embedding]: a non-empty list. *)
Definition has_embedding (o : option vector) : option vector :=
  match o with
  | Some (x :: emb) => Some (x :: emb)
  | _ => None
  end.

(** The body of the loop for one chunk, with the [try]/[except] around
    it. *)
Definition process_chunk (chapter_name : str) (total idx : nat) (chunk : str)
    (s : store) : store :=
  let s1 := logging INFO (MsgProcessing idx total) s in
  let '(emb, s2) := embed_text chunk s1 in
  match has_embedding emb with
  | Some e =>
      let doc := {| chapter := chapter_name; chunk_index := idx;
                    doc_text := chunk; embedding := e |} in
      match insert_one_raises s2 (collection s2) doc with
      | None =>
          logging INFO (MsgStored idx)
            (with_collection (collection s2 ++ [doc]) s2)
      | Some err => logging ERROR (MsgChunkError idx err) s2
      end
  | None => logging WARNING (MsgSkipping idx) s2
  end.

(** [for idx, chunk in enumerate(chunks, start=1)], from position [idx]. *)
Fixpoint process_from (chapter_name : str) (total idx : nat)
    (chunks : list str) (s : store) : store :=
  match chunks with
  | [] => s
  | chunk :: rest =>
      process_from chapter_name total (S idx) rest
        (process_chunk chapter_name total idx chunk s)
  end.

Definition process_chunks (chapter_name : str) (chunks : list str)
    (s : store) : store :=
  process_from chapter_name (length chunks) 1 chunks s.

End Store.

(* ================================================================== *)
(** ** The two scripts: chunk files saved by chunk_text.py and read back
    by embed_and_store.py *)

Module Scripts.
Import Py.

Definition OUTPUT_FOLDER : str := lit "chunks".

(** The files of the [chunks] folder: names with their contents, each
    name once.  Chunks hold no line break (they are words joined by single
    spaces), so what is written is what is read back. *)
Definition folder : Type := list (str * str).

Definition str_eqb (a b : str) : bool :=
  if list_eq_dec N.eq_dec a b then true else false.

(** [open(path, "w")] and [f.write(content)]: the file is created, or
    replaced when the name exists. *)
Fixpoint write_file (name content : str) (d : folder) : folder :=
  match d with
  | [] => [(name, content)]
  | (n, c) :: d' =>
      if str_eqb n name then (name, content) :: d'
      else (n, c) :: write_file name content d'
  end.

(** [open(path, "r")] and [f.read()]; [None] where there is no such file. *)
Fixpoint read_file (d : folder) (name : str) : option str :=
  match d with
  | [] => None
  | (n, c) :: d' => if str_eqb n name then Some c else read_file d' name
  end.

(** [f"chunk_{i}.txt"] *)
Definition chunk_file_name (i : nat) : str :=
  lit "chunk_" ++ decimal i ++ lit ".txt".

(** [os.path.join(OUTPUT_FOLDER, name)] *)
Definition path_join (dir name : str) : str := dir ++ lit "/" ++ name.

(** The lines chunk_text.py prints. *)
Inductive printed : Type :=
| PrintCreated (n : nat)
| PrintSaved (path : str)
| PrintAllSaved.

(** [for i, c in enumerate(chunks, 1)]: one file per chunk. *)
Fixpoint save_loop (i : nat) (chunks : list str) (d : folder)
    (out : list printed) : folder * list printed :=
  match chunks with
  | [] => (d, out)
  | c :: rest =>
      save_loop (S i) rest (write_file (chunk_file_name i) c d)
        (out ++ [PrintSaved (path_join OUTPUT_FOLDER (chunk_file_name i))])
  end.

(** The script of chunk_text.py on the text of the source file; [d] is
    what the folder holds already ([os.makedirs(..., exist_ok=True)]). *)
Definition chunk_text_main (text : str) (d : folder) : folder * list printed :=
  let chunks :=
    SentenceChunker.aggressive_recursive_split text
      SentenceChunker.CHUNK_SIZE SentenceChunker.OVERLAP in
  let '(d', out) := save_loop 1 chunks d [PrintCreated (length chunks)] in
  (d', out ++ [PrintAllSaved]).

(** [a < b] on strings: by code point, a proper prefix first. *)
Fixpoint str_ltb (a b : str) : bool :=
  match a, b with
  | _, [] => false
  | [], _ :: _ => true
  | x :: a', y :: b' => ((x <? y) || ((x =? y) && str_ltb a' b'))%N
  end.

(** [sorted(names)]: stable, ascending, comparing with [<] only. *)
Fixpoint insert_sorted (x : str) (l : list str) : list str :=
  match l with
  | [] => [x]
  | y :: l' => if str_ltb y x then y :: insert_sorted x l' else x :: l
  end.

Definition sorted (l : list str) : list str := fold_right insert_sorted [] l.

Fixpoint startswith (s prefix : str) : bool :=
  match prefix, s with
  | [], _ => true
  | _ :: _, [] => false
  | p :: prefix', c :: s' => (c =? p)%N && startswith s' prefix'
  end.

(** [s.endswith(suffix)] *)
Definition endswith (s suffix : str) : bool :=
  startswith (rev s) (rev suffix).

(** [for file in sorted(os.listdir(chunks_folder))] of embed_and_store.py:
    the [.txt] files are read in sorted order of their names. *)
Fixpoint load_loop (names : list str) (d : folder) (chunks : list str)
  : outcome (list str) :=
  match names with
  | [] => Ok chunks
  | file :: rest =>
      if endswith file (lit ".txt") then
        match read_file d file with
        | Some content => load_loop rest d (chunks ++ [content])
        | None => Raise (FileNotFoundError file)
        end
      else load_loop rest d chunks
  end.

(** [listing] is what [os.listdir] returned. *)
Definition load_chunks (listing : list str) (d : folder)
  : outcome (list str) :=
  load_loop (sorted listing) d [].

End Scripts.

(* ================================================================== *)
(** * Properties *)

(** ** Words, [split] and [join] *)

Module PyFacts.
Import Py.

(** A word: non-empty and free of separators. *)
Definition spaceless (w : str) : Prop := Forall (fun c => isspace c = false) w.
Definition word (w : str) : Prop := w <> [] /\ spaceless w.

Lemma rev_nonempty {A : Type} {l : list A} : l <> [] -> rev l <> [].
Proof.
  destruct l as [|a l]; [congruence|].
  intros _ H. apply (f_equal (@length A)) in H.
  rewrite length_rev in H. discriminate.
Qed.

Lemma spaceless_rev w : spaceless w -> spaceless (rev w).
Proof. apply Forall_rev. Qed.

Lemma split_from_words s : forall cur,
  spaceless cur -> Forall word (split_from cur s).
Proof.
  induction s as [|c s IH]; intros cur Hcur; simpl.
  - destruct cur as [|x cur]; constructor; [|constructor].
    split; [apply rev_nonempty; congruence | now apply spaceless_rev].
  - destruct (isspace c) eqn:Hc.
    + destruct cur as [|x cur]; [apply IH; constructor|].
      constructor; [|apply IH; constructor].
      split; [apply rev_nonempty; congruence | now apply spaceless_rev].
    + apply IH. now constructor.
Qed.

Lemma split_words s : Forall word (split s).
Proof. apply split_from_words. constructor. Qed.

(** Reading a separator-free prefix only grows the current word. *)
Lemma split_from_spaceless w : forall cur s,
  spaceless w -> split_from cur (w ++ s) = split_from (rev w ++ cur) s.
Proof.
  induction w as [|c w IH]; intros cur s Hw; [reflexivity|].
  inversion Hw as [|? ? Hc Hw']; subst. simpl. rewrite Hc.
  rewrite IH by assumption. now rewrite <- app_assoc.
Qed.

Lemma split_from_join ws : Forall word ws ->
  split_from [] (join space ws) = ws.
Proof.
  induction ws as [|w ws IH]; intros Hws; [reflexivity|].
  inversion Hws as [|? ? [Hne Hw] Hws']; subst.
  destruct ws as [|w' ws].
  - simpl. rewrite <- (app_nil_r w) at 1.
    rewrite split_from_spaceless by assumption. simpl. rewrite app_nil_r.
    destruct (rev w) eqn:E.
    + exfalso. now apply (rev_nonempty Hne).
    + rewrite <- E. now rewrite rev_involutive.
  - change (join space (w :: w' :: ws))
      with (w ++ space ++ join space (w' :: ws)).
    rewrite split_from_spaceless by assumption. rewrite app_nil_r.
    change (space ++ join space (w' :: ws))
      with (32%N :: join space (w' :: ws)).
    cbn [split_from]. change (isspace 32%N) with true. cbv iota.
    destruct (rev w) eqn:E.
    + exfalso. now apply (rev_nonempty Hne).
    + rewrite <- E. rewrite rev_involutive. f_equal. now apply IH.
Qed.

(** Splitting what [join] glued gives the words back. *)
Lemma split_join ws : Forall word ws -> split (join space ws) = ws.
Proof. apply split_from_join. Qed.

Lemma join_truthy ws : Forall word ws -> ws <> [] ->
  truthy (join space ws) = true.
Proof.
  destruct ws as [|w ws]; [congruence|].
  intros Hws _. inversion Hws as [|? ? [Hne _] _]; subst.
  destruct w as [|c w]; [congruence|].
  destruct ws; reflexivity.
Qed.

Lemma firstn_plus {A : Type} (a b : nat) (l : list A) :
  firstn (a + b) l = firstn a l ++ firstn b (skipn a l).
Proof.
  revert l. induction a as [|a IH]; intros l; [reflexivity|].
  destruct l as [|x l]; simpl.
  - now rewrite firstn_nil.
  - now rewrite IH.
Qed.

(** A window that starts inside the list is a plain take-after-drop. *)
Lemma slice_window {A : Type} (l : list A) (i n : Z) :
  (0 <= i < Z.of_nat (length l))%Z -> (0 < n)%Z ->
  slice l i (i + n) = firstn (Z.to_nat n) (skipn (Z.to_nat i) l).
Proof.
  intros Hi Hn. unfold slice, clamp_index.
  destruct (Z.ltb_spec i 0); [lia|].
  destruct (Z.ltb_spec (i + n) 0); [lia|].
  rewrite (Z.min_l i) by lia.
  destruct (Z.le_gt_cases (i + n) (Z.of_nat (length l))).
  - rewrite Z.min_l by lia. f_equal. lia.
  - rewrite Z.min_r by lia.
    rewrite !firstn_all2; [reflexivity| |]; rewrite length_skipn; lia.
Qed.

Lemma slice_to_length {A : Type} (l : list A) (k : Z) :
  (0 <= k)%Z -> (Z.of_nat (length (slice_to l k)) <= k)%Z.
Proof.
  intros Hk. unfold slice_to, clamp_index.
  destruct (Z.ltb_spec k 0); [lia|].
  rewrite length_firstn. lia.
Qed.

Lemma Forall_firstn {A : Type} (P : A -> Prop) (l : list A) : forall n,
  Forall P l -> Forall P (firstn n l).
Proof.
  induction l as [|x l IH]; intros [|n] H; simpl; try constructor;
    inversion H; subst; auto.
Qed.

Lemma Forall_skipn {A : Type} (P : A -> Prop) (l : list A) : forall n,
  Forall P l -> Forall P (skipn n l).
Proof.
  induction l as [|x l IH]; intros [|n] H; simpl; try assumption.
  inversion H; subst; auto.
Qed.

Lemma Forall_window {A : Type} (P : A -> Prop) (l : list A) a b :
  Forall P l -> Forall P (firstn a (skipn b l)).
Proof. intros H. now apply Forall_firstn, Forall_skipn. Qed.

End PyFacts.

(* ================================================================== *)
(** ** Chunker *)

Module ChunkerFacts.
Import Py PyFacts Chunker.
Local Open Scope Z_scope.

(** More fuel never changes a result already reached. *)
Lemma chunk_loop_fuel_mono words cs ov : forall fuel i chunks out,
  chunk_loop fuel words cs ov i chunks = Some out ->
  forall fuel', (fuel <= fuel')%nat ->
  chunk_loop fuel' words cs ov i chunks = Some out.
Proof.
  induction fuel as [|fuel IH]; intros i chunks out H fuel' Hle;
    [discriminate|].
  destruct fuel' as [|fuel']; [lia|].
  simpl in *. destruct (i <? Z.of_nat (length words)); [|assumption].
  eapply IH; [eassumption | lia].
Qed.

(** With a positive stride the loop leaves after at most one test per
    remaining word, and one more. *)
Lemma chunk_loop_enough words cs ov : 0 < cs - ov ->
  forall fuel i chunks,
  Z.max 0 (Z.of_nat (length words) - i) < Z.of_nat fuel ->
  exists out, chunk_loop fuel words cs ov i chunks = Some out.
Proof.
  intros Hstep. induction fuel as [|fuel IH]; intros i chunks Hfuel; [lia|].
  simpl. destruct (Z.ltb_spec i (Z.of_nat (length words))).
  - apply IH. lia.
  - eexists; reflexivity.
Qed.

(** With a stride that is zero or negative the index never passes the
    first word: no amount of fuel lets the loop leave. *)
Lemma chunk_loop_diverges words cs ov : cs <= ov -> words <> [] ->
  forall fuel i chunks, i <= 0 ->
  chunk_loop fuel words cs ov i chunks = None.
Proof.
  intros Hstep Hne. induction fuel as [|fuel IH]; intros i chunks Hi;
    [reflexivity|].
  simpl. destruct (Z.ltb_spec i (Z.of_nat (length words))) as [_|Hge].
  - apply IH. lia.
  - destruct words; [congruence | simpl in Hge; lia].
Qed.

(** [chunk_text] answers [None] only where the source loops forever. *)
Lemma chunk_text_none_diverges txt cs ov :
  chunk_text txt cs ov = None ->
  forall fuel, chunk_text_fuel fuel txt cs ov = None.
Proof.
  unfold chunk_text, chunk_text_fuel. intros Hnone fuel.
  destruct (Z.lt_ge_cases 0 (cs - ov)) as [Hpos|Hneg].
  - destruct (chunk_loop_enough (split txt) cs ov Hpos
                (S (length (split txt))) 0 []) as [out Hout]; [lia|].
    congruence.
  - destruct (split txt) eqn:E.
    + discriminate Hnone.
    + apply chunk_loop_diverges; [lia | congruence | lia].
Qed.

(** What holds of the chunks gathered so far when the loop test is reached
    with index [i]. *)
Definition gathered (words : list str) (cs ov i : Z) (chunks : list str)
  : Prop :=
  Forall (fun c => Z.of_nat (length (split c)) <= cs) chunks /\
  ((chunks = [] /\ i = 0) \/
   (chunks <> [] /\
    fresh_words ov chunks = firstn (Z.to_nat (i + ov)) words)).

Lemma fresh_words_snoc ov chunks c : chunks <> [] ->
  fresh_words ov (chunks ++ [c])
  = fresh_words ov chunks ++ skipn (Z.to_nat ov) (split c).
Proof.
  destruct chunks as [|c0 rest]; [congruence|]. intros _. simpl.
  rewrite flat_map_app. simpl. now rewrite app_nil_r, app_assoc.
Qed.

Lemma chunk_loop_gathers words cs ov :
  0 < cs -> 0 <= ov < cs -> Forall word words ->
  forall fuel i chunks,
  0 <= i -> Z.max 0 (Z.of_nat (length words) - i) < Z.of_nat fuel ->
  gathered words cs ov i chunks ->
  exists out, chunk_loop fuel words cs ov i chunks = Some out /\
    Forall (fun c => Z.of_nat (length (split c)) <= cs) out /\
    fresh_words ov out = words.
Proof.
  intros Hcs Hov Hwords.
  induction fuel as [|fuel IH]; intros i chunks Hi Hfuel [Hlen Hcov]; [lia|].
  simpl. destruct (Z.ltb_spec i (Z.of_nat (length words))) as [Hlt|Hge].
  - (* one more window *)
    rewrite slice_window by lia.
    set (win := firstn (Z.to_nat cs) (skipn (Z.to_nat i) words)).
    assert (Hwin : Forall word win) by now apply Forall_window.
    assert (Hne : win <> []).
    { intros E. apply (f_equal (@length str)) in E. unfold win in E.
      rewrite length_firstn, length_skipn in E. simpl in E. lia. }
    rewrite join_truthy by assumption.
    apply IH; [lia | lia |]. split.
    + apply Forall_app. split; [assumption|]. constructor; [|constructor].
      rewrite split_join by assumption. unfold win.
      pose proof (firstn_le_length (Z.to_nat cs) (skipn (Z.to_nat i) words)).
      lia.
    + right. split; [now destruct chunks|].
      destruct Hcov as [[-> ->]|[Hne' Hcov]].
      * simpl. rewrite split_join, app_nil_r by assumption.
        unfold win. simpl. f_equal. lia.
      * rewrite fresh_words_snoc by assumption.
        rewrite Hcov, split_join by assumption. unfold win.
        rewrite skipn_firstn_comm, skipn_skipn.
        replace (Z.to_nat (i + (cs - ov) + ov))
          with (Z.to_nat (i + ov) + (Z.to_nat cs - Z.to_nat ov))%nat by lia.
        rewrite firstn_plus. do 3 f_equal. lia.
  - (* the loop leaves *)
    eexists. split; [reflexivity|]. split; [assumption|].
    destruct Hcov as [[-> ->]|[_ Hcov]].
    + destruct words; [reflexivity | simpl in Hge; lia].
    + rewrite Hcov. apply firstn_all2. lia.
Qed.

(** C4. For [chunk_size > 0] and [0 <= overlap < chunk_size] the chunker
    returns (within one loop test per word, and for every larger fuel the
    same list); each chunk holds at most [chunk_size] whitespace-delimited
    words; the first chunk followed by every later chunk without its first
    [overlap] words is the word sequence of the text; and the empty text
    gives the empty chunk sequence. *)
Theorem chunk_text_reconstructs txt cs ov :
  0 < cs -> 0 <= ov < cs ->
  exists chunks,
    chunk_text txt cs ov = Some chunks /\
    (forall fuel, (length (split txt) < fuel)%nat ->
       chunk_text_fuel fuel txt cs ov = Some chunks) /\
    Forall (fun c => Z.of_nat (length (split c)) <= cs) chunks /\
    fresh_words ov chunks = split txt /\
    chunk_text [] cs ov = Some [].
Proof.
  intros Hcs Hov.
  destruct (chunk_loop_gathers (split txt) cs ov Hcs Hov (split_words txt)
              (S (length (split txt))) 0 []) as [out [Hrun [Hlen Hcov]]].
  - lia.
  - lia.
  - split; [constructor | left; split; reflexivity].
  - exists out. repeat split; try assumption.
    intros fuel Hfuel. unfold chunk_text_fuel.
    eapply chunk_loop_fuel_mono; [exact Hrun | lia].
Qed.

Lemma chunk_text_reconstructs_witness :
  exists chunks,
    chunk_text (lit "Media is a means of communication") 4 1 = Some chunks /\
    (forall fuel,
       (length (split (lit "Media is a means of communication")) < fuel)%nat ->
       chunk_text_fuel fuel (lit "Media is a means of communication") 4 1
       = Some chunks) /\
    Forall (fun c => Z.of_nat (length (split c)) <= 4) chunks /\
    fresh_words 1 chunks = split (lit "Media is a means of communication") /\
    chunk_text [] 4 1 = Some [].
Proof. apply chunk_text_reconstructs; lia. Defined.

(** The scenario of the specification: sixteen words, windows of ten with
    an overlap of two, give two chunks of ten and eight words. *)
Example chunk_text_scenario :
  option_map (List.map (fun c => length (split c)))
    (chunk_text
       (lit "Media is a means of communication. Television is mass media because it reaches millions of people.")
       10 2)
  = Some [10%nat; 8%nat].
Proof. vm_compute. reflexivity. Qed.

(** C3, as the code has it. The chunker checks nothing: when
    [overlap >= chunk_size] a text without words yields the empty chunk
    sequence, and a text with at least one word keeps the loop running
    whatever the fuel. No error is signalled in either case. *)
Theorem chunk_text_unchecked txt cs ov :
  cs <= ov ->
  (split txt = [] -> chunk_text txt cs ov = Some []) /\
  (split txt <> [] -> forall fuel, chunk_text_fuel fuel txt cs ov = None).
Proof.
  intros Hstep. split.
  - intros E. unfold chunk_text, chunk_text_fuel. rewrite E. reflexivity.
  - intros Hne fuel. unfold chunk_text_fuel.
    apply chunk_loop_diverges; [assumption | assumption | lia].
Qed.

Lemma chunk_text_unchecked_witness :
  (split (lit "media") = [] -> chunk_text (lit "media") 5 5 = Some []) /\
  (split (lit "media") <> [] ->
   forall fuel, chunk_text_fuel fuel (lit "media") 5 5 = None).
Proof. apply chunk_text_unchecked. lia. Defined.

(** C3 fails as stated: with [overlap = chunk_size = 5] the empty text is
    answered with a chunk sequence, and the text "media" is never
    answered. *)
Lemma chunk_text_accepts_bad_overlap :
  chunk_text (lit "") 5 5 = Some [] /\
  (forall fuel, chunk_text_fuel fuel (lit "media") 5 5 = None).
Proof.
  split; [reflexivity|].
  intros fuel. unfold chunk_text_fuel.
  apply chunk_loop_diverges; [lia | discriminate | lia].
Qed.

End ChunkerFacts.

(* ================================================================== *)
(** ** Binary64 comparisons and products *)

Module FloatFacts.
Local Open Scope Z_scope.

(** Non-NaN values are ordered as their ranks are, lexicographically. *)
Definition rank (f : spec_float) : Z * Z * Z :=
  match f with
  | S754_nan => (0, 0, 0)
  | S754_zero _ => (0, 0, 0)
  | S754_infinity false => (2, 0, 0)
  | S754_infinity true => (-2, 0, 0)
  | S754_finite false m e => (1, e, Zpos m)
  | S754_finite true m e => (-1, - e, Zneg m)
  end.

Definition rank_compare (a b : Z * Z * Z) : comparison :=
  let '(a1, a2, a3) := a in
  let '(b1, b2, b3) := b in
  match a1 ?= b1 with
  | Eq => match a2 ?= b2 with Eq => a3 ?= b3 | c => c end
  | c => c
  end.

Definition rank_lt (a b : Z * Z * Z) : Prop :=
  let '(a1, a2, a3) := a in
  let '(b1, b2, b3) := b in
  a1 < b1 \/ (a1 = b1 /\ (a2 < b2 \/ (a2 = b2 /\ a3 < b3))).

Definition rank_eq (a b : Z * Z * Z) : Prop :=
  let '(a1, a2, a3) := a in
  let '(b1, b2, b3) := b in
  a1 = b1 /\ a2 = b2 /\ a3 = b3.

Lemma rank_compare_spec a b :
  match rank_compare a b with
  | Lt => rank_lt a b
  | Eq => rank_eq a b
  | Gt => rank_lt b a
  end.
Proof.
  destruct a as [[a1 a2] a3], b as [[b1 b2] b3]. unfold rank_compare.
  destruct (Z.compare_spec a1 b1); destruct (Z.compare_spec a2 b2);
    destruct (Z.compare_spec a3 b3); simpl; lia.
Qed.

Lemma SFcompare_rank x y : x <> S754_nan -> y <> S754_nan ->
  SFcompare x y = Some (rank_compare (rank x) (rank y)).
Proof.
  intros Hx Hy.
  destruct x as [sx|sx| |sx mx ex], y as [sy|sy| |sy my ey];
    try congruence;
    try (destruct sx; reflexivity);
    try (destruct sy; reflexivity);
    try (destruct sx, sy; reflexivity).
  destruct sx, sy; try reflexivity; simpl.
  rewrite Z.compare_opp, (Z.compare_antisym ex ey).
  destruct (ex ?= ey); reflexivity.
Qed.

Local Open Scope float_scope.

Definition not_nan (x : float) : Prop := is_nan x = false.

Lemma not_nan_spec x : not_nan x -> Prim2SF x <> S754_nan.
Proof.
  unfold not_nan, is_nan. rewrite eqb_spec. intros H E. rewrite E in H.
  discriminate.
Qed.

Definition key (x : float) : Z * Z * Z := rank (Prim2SF x).

Lemma compare_key x y : not_nan x -> not_nan y ->
  SFcompare (Prim2SF x) (Prim2SF y) = Some (rank_compare (key x) (key y)).
Proof. intros Hx Hy. now apply SFcompare_rank; apply not_nan_spec. Qed.

Lemma ltb_key x y : not_nan x -> not_nan y ->
  (x <? y) = true <-> rank_lt (key x) (key y).
Proof.
  intros Hx Hy. rewrite ltb_spec. unfold SFltb. rewrite compare_key by auto.
  pose proof (rank_compare_spec (key x) (key y)) as H.
  destruct (key x) as [[a1 a2] a3], (key y) as [[b1 b2] b3].
  destruct (rank_compare _ _); simpl in *; split; intros; try lia;
    try discriminate; reflexivity.
Qed.

Lemma eqb_key x y : not_nan x -> not_nan y ->
  (x =? y) = true <-> rank_eq (key x) (key y).
Proof.
  intros Hx Hy. rewrite eqb_spec. unfold SFeqb. rewrite compare_key by auto.
  pose proof (rank_compare_spec (key x) (key y)) as H.
  destruct (key x) as [[a1 a2] a3], (key y) as [[b1 b2] b3].
  destruct (rank_compare _ _); simpl in *; split; intros; try lia;
    try discriminate; reflexivity.
Qed.

Lemma leb_key x y : not_nan x -> not_nan y ->
  (x <=? y) = true <-> rank_lt (key x) (key y) \/ rank_eq (key x) (key y).
Proof.
  intros Hx Hy. rewrite leb_spec. unfold SFleb. rewrite compare_key by auto.
  pose proof (rank_compare_spec (key x) (key y)) as H.
  destruct (key x) as [[a1 a2] a3], (key y) as [[b1 b2] b3].
  destruct (rank_compare _ _); simpl in *; split; intros; try lia;
    try discriminate; reflexivity.
Qed.

(** A comparison that holds has no NaN on either side. *)
Lemma ltb_not_nan x y : (x <? y) = true -> not_nan x /\ not_nan y.
Proof.
  rewrite ltb_spec. unfold not_nan, is_nan. rewrite !eqb_spec.
  unfold SFltb, SFeqb.
  destruct (Prim2SF x) as [sx|sx| |sx mx ex], (Prim2SF y) as [sy|sy| |sy my ey];
    simpl; try discriminate; intros _; split; try reflexivity;
    try (destruct sx; reflexivity); try (destruct sy; reflexivity);
    try (destruct sx; rewrite Z.compare_refl, ?Pos.compare_cont_refl;
         reflexivity);
    try (destruct sy; rewrite Z.compare_refl, ?Pos.compare_cont_refl;
         reflexivity).
Qed.

Lemma leb_not_nan x y : (x <=? y) = true -> not_nan x /\ not_nan y.
Proof.
  rewrite leb_spec. unfold not_nan, is_nan. rewrite !eqb_spec.
  unfold SFleb, SFeqb.
  destruct (Prim2SF x) as [sx|sx| |sx mx ex], (Prim2SF y) as [sy|sy| |sy my ey];
    simpl; try discriminate; intros _; split; try reflexivity;
    try (destruct sx; reflexivity); try (destruct sy; reflexivity);
    try (destruct sx; rewrite Z.compare_refl, ?Pos.compare_cont_refl;
         reflexivity);
    try (destruct sy; rewrite Z.compare_refl, ?Pos.compare_cont_refl;
         reflexivity).
Qed.

(** Multiplication commutes, bit for bit. *)
Lemma SFmul_comm prec emax x y : SFmul prec emax x y = SFmul prec emax y x.
Proof.
  destruct x as [sx|sx| |sx mx ex], y as [sy|sy| |sy my ey]; simpl;
    try reflexivity; try (now rewrite xorb_comm).
  now rewrite xorb_comm, Pos.mul_comm, Z.add_comm.
Qed.

Lemma mul_comm x y : x * y = y * x.
Proof.
  apply Prim2SF_inj. rewrite !mul_spec. apply SFmul_comm.
Qed.

End FloatFacts.

(* ================================================================== *)
(** ** Binary64 rounding: products of square roots do not underflow *)

Module RoundingFacts.
Local Open Scope Z_scope.

(** *** Number of binary digits *)

Lemma digits2_size p : digits2_pos p = Pos.size p.
Proof. induction p as [p IH|p IH|]; simpl; congruence. Qed.

Lemma Zdigits2_log2 p : Zdigits2 (Zpos p) = Z.log2 (Zpos p) + 1.
Proof.
  unfold Zdigits2. rewrite digits2_size.
  destruct p as [p|p|]; simpl; try reflexivity;
    rewrite Pos.add_1_r; now destruct (Pos.size p).
Qed.

Lemma Zdigits2_positive m : 0 < m -> 0 < Zdigits2 m.
Proof. destruct m; simpl; lia. Qed.

Lemma Zdigits2_zero m : 0 <= m -> Zdigits2 m <= 0 -> m = 0.
Proof. destruct m; simpl; lia. Qed.

Lemma Zdigits2_bounds m :
  0 < m -> 2 ^ (Zdigits2 m - 1) <= m < 2 ^ Zdigits2 m.
Proof.
  destruct m as [|p|p]; try lia. intros _. rewrite Zdigits2_log2.
  replace (Z.log2 (Z.pos p) + 1 - 1) with (Z.log2 (Z.pos p)) by lia.
  apply Z.log2_spec. lia.
Qed.

Lemma Zdigits2_mono m n : 0 < m -> m <= n -> Zdigits2 m <= Zdigits2 n.
Proof.
  intros Hm Hn. destruct m as [|p|p]; try lia. destruct n as [|q|q]; try lia.
  rewrite !Zdigits2_log2. pose proof (Z.log2_le_mono _ _ Hn). lia.
Qed.

Lemma Zdigits2_mul a b :
  0 < a -> 0 < b -> Zdigits2 a + Zdigits2 b - 1 <= Zdigits2 (a * b).
Proof.
  intros Ha Hb. destruct a as [|p|p]; try lia. destruct b as [|q|q]; try lia.
  change (Z.pos p * Z.pos q) with (Z.pos (p * q)).
  rewrite !Zdigits2_log2. rewrite Pos2Z.inj_mul.
  pose proof (Z.log2_mul_below (Z.pos p) (Z.pos q)). lia.
Qed.

Lemma Zdigits2_shiftl m s :
  0 < m -> 0 <= s -> Zdigits2 (Z.shiftl m s) = Zdigits2 m + s.
Proof.
  intros Hm Hs. destruct m as [|p|p]; try lia.
  assert (H : 0 < Z.shiftl (Z.pos p) s).
  { rewrite Z.shiftl_mul_pow2 by assumption.
    apply Z.mul_pos_pos; [lia | now apply Z.pow_pos_nonneg]. }
  destruct (Z.shiftl (Z.pos p) s) as [|q|q] eqn:E; try lia.
  rewrite !Zdigits2_log2, <- E, Z.log2_shiftl by lia. lia.
Qed.

(** *** Right shifts *)

Lemma shr_1_digits r :
  0 <= shr_m r ->
  0 <= shr_m (shr_1 r) /\
  Zdigits2 (shr_m (shr_1 r)) = Z.max 0 (Zdigits2 (shr_m r) - 1).
Proof.
  destruct r as [m r s]. cbn [shr_m]. intros Hm.
  destruct m as [|[p|p|]|p]; cbn [shr_m shr_1 Zdigits2 digits2_pos];
    rewrite ?Pos2Z.inj_succ; lia.
Qed.

Lemma iter_shr_digits p : forall r,
  0 <= shr_m r ->
  0 <= shr_m (SpecFloat.iter_pos shr_1 p r) /\
  Zdigits2 (shr_m (SpecFloat.iter_pos shr_1 p r))
  = Z.max 0 (Zdigits2 (shr_m r) - Z.pos p).
Proof.
  induction p as [p IH|p IH|]; intros r Hr; simpl.
  - destruct (shr_1_digits r Hr) as [H1 D1].
    destruct (IH _ H1) as [H2 D2]. destruct (IH _ H2) as [H3 D3].
    split; [exact H3|]. rewrite D3, D2, D1. lia.
  - destruct (IH _ Hr) as [H2 D2]. destruct (IH _ H2) as [H3 D3].
    split; [exact H3|]. rewrite D3, D2. lia.
  - apply shr_1_digits. exact Hr.
Qed.

Lemma shr_record_of_loc_m m l : shr_m (shr_record_of_loc m l) = m.
Proof. destruct l as [|[| |]]; reflexivity. Qed.

(** A shift to the canonical exponent keeps a mantissa that sits above
    the smallest exponent positive, and keeps digits plus exponent. *)
Lemma shr_fexp_digits m e l :
  0 < m -> emin < Zdigits2 m + e ->
  0 < shr_m (fst (shr_fexp prec emax m e l)) /\
  Zdigits2 (shr_m (fst (shr_fexp prec emax m e l)))
  + snd (shr_fexp prec emax m e l) = Zdigits2 m + e /\
  emin
  < Zdigits2 (shr_m (fst (shr_fexp prec emax m e l)))
    + snd (shr_fexp prec emax m e l).
Proof.
  intros Hm He. unfold shr_fexp, shr, fexp.
  change (emin) with (-1074) in *. change prec with 53.
  pose proof (Zdigits2_positive m Hm) as Hd.
  destruct (Z.max (Zdigits2 m + e - 53) (-1074) - e) as [|p|p] eqn:En;
    simpl fst; simpl snd; rewrite ?shr_record_of_loc_m; try lia.
  destruct (iter_shr_digits p (shr_record_of_loc m l)) as [H D].
  { rewrite shr_record_of_loc_m. lia. }
  rewrite shr_record_of_loc_m in D.
  assert (Hp : Z.pos p < Zdigits2 m) by lia.
  assert (Hpos : 0 < shr_m (SpecFloat.iter_pos shr_1 p (shr_record_of_loc m l))).
  { destruct (Z.eq_dec (shr_m (SpecFloat.iter_pos shr_1 p
                                 (shr_record_of_loc m l))) 0) as [E|E];
      [|lia].
    rewrite E in D. simpl in D. lia. }
  lia.
Qed.

Lemma round_nearest_even_ge m l : 0 < m -> m <= round_nearest_even m l.
Proof.
  intros Hm. unfold round_nearest_even.
  destruct l as [|[| |]]; try lia. destruct (Z.even m); lia.
Qed.

(** Rounding a positive mantissa that sits above the smallest exponent
    never gives a zero or NaN, and does not lower digits plus exponent. *)
Lemma binary_round_aux_above s m e l :
  0 < m -> emin < Zdigits2 m + e ->
  match binary_round_aux prec emax s m e l with
  | S754_zero _ => False
  | S754_nan => False
  | S754_infinity _ => True
  | S754_finite _ mr er => Zdigits2 m + e <= Zdigits2 (Z.pos mr) + er
  end.
Proof.
  intros Hm He. unfold binary_round_aux.
  destruct (shr_fexp_digits m e l Hm He) as (H1 & D1 & E1).
  destruct (shr_fexp prec emax m e l) as [r1 e1]. simpl fst in *.
  simpl snd in *.
  set (m2 := round_nearest_even (shr_m r1) (loc_of_shr_record r1)).
  assert (Hm2 : shr_m r1 <= m2) by now apply round_nearest_even_ge.
  assert (D2 : Zdigits2 (shr_m r1) <= Zdigits2 m2)
    by now apply Zdigits2_mono.
  destruct (shr_fexp_digits m2 e1 loc_Exact) as (H3 & D3 & _); [lia|lia|].
  destruct (shr_fexp prec emax m2 e1 loc_Exact) as [r3 e3]. simpl fst in *.
  simpl snd in *.
  destruct (shr_m r3) as [|mr|mr]; try lia.
  destruct (e3 <=? emax - prec); [lia | exact I].
Qed.

(** *** Products of square roots *)

(** A finite non-zero value at or above [2^-537]; nothing is asked of
    zeros, infinities and NaN. *)
Definition big_enough (f : spec_float) : Prop :=
  match f with
  | S754_finite _ m e => -536 <= Zdigits2 (Z.pos m) + e
  | _ => True
  end.

Definition is_zero_sf (f : spec_float) : Prop :=
  match f with
  | S754_zero _ => True
  | _ => False
  end.

Lemma SFmul_nonzero x y :
  big_enough x -> big_enough y -> ~ is_zero_sf x -> ~ is_zero_sf y ->
  ~ is_zero_sf (SF64mul x y).
Proof.
  destruct x as [sx|sx| |sx mx ex], y as [sy|sy| |sy my ey];
    cbn [big_enough is_zero_sf SF64mul SFmul]; try tauto.
  intros Hx Hy _ _.
  pose proof (Zdigits2_mul (Z.pos mx) (Z.pos my)) as Hd.
  change (Z.pos mx * Z.pos my) with (Z.pos (mx * my)) in Hd.
  pose proof (binary_round_aux_above (xorb sx sy) (Z.pos (mx * my))
                (ex + ey) loc_Exact) as H.
  change emin with (-1074) in H.
  destruct (binary_round_aux prec emax (xorb sx sy)
              (Z.pos (mx * my)) (ex + ey) loc_Exact);
    cbn [is_zero_sf]; try tauto.
  intros _. apply H; lia.
Qed.

(** The integer square root has at least half the digits. *)
Lemma Zdigits2_sqrt n : 0 < n -> Zdigits2 n <= 2 * Zdigits2 (Z.sqrt n).
Proof.
  intros Hn.
  pose proof (Z.sqrt_spec n ltac:(lia)) as [_ Hup].
  assert (Hq : 0 < Z.sqrt n) by now apply Z.sqrt_pos.
  pose proof (Zdigits2_bounds n Hn) as [Hlow _].
  pose proof (Zdigits2_bounds (Z.sqrt n) Hq) as [_ Hqup].
  pose proof (Zdigits2_positive n Hn).
  pose proof (Zdigits2_positive _ Hq).
  assert (Hsq : Z.succ (Z.sqrt n) * Z.succ (Z.sqrt n)
                <= 2 ^ (2 * Zdigits2 (Z.sqrt n))).
  { replace (2 * Zdigits2 (Z.sqrt n))
      with (Zdigits2 (Z.sqrt n) + Zdigits2 (Z.sqrt n)) by lia.
    rewrite Z.pow_add_r by lia. apply Z.mul_le_mono_nonneg; lia. }
  assert (Hlt : 2 ^ (Zdigits2 n - 1) < 2 ^ (2 * Zdigits2 (Z.sqrt n))) by lia.
  apply Z.pow_lt_mono_r_iff in Hlt; lia.
Qed.

Lemma SFsqrt_big_enough x :
  valid_binary x = true -> big_enough (SF64sqrt x).
Proof.
  destruct x as [sx|sx| |sx m e]; try (destruct sx; exact (fun _ => I)).
  - exact (fun _ => I).
  - destruct sx; [exact (fun _ => I)|].
    cbn [valid_binary]. unfold bounded, canonical_mantissa, fexp.
    change (SpecFloat.emin prec emax) with (-1074). change prec with 53.
    intros Hv. apply andb_true_iff in Hv. destruct Hv as [Hc _].
    apply Z.eqb_eq in Hc.
    unfold SF64sqrt, SFsqrt, SFsqrt_core_binary.
    set (d := Zdigits2 (Z.pos m)).
    set (e' := Z.min (fexp prec emax (Z.div2 (d + e + 1))) (Z.div2 e)).
    assert (He' : 2 * e' <= e).
    { assert (e' <= Z.div2 e) by apply Z.le_min_r.
      rewrite Z.div2_div in *. pose proof (Z.mul_div_le e 2). lia. }
    assert (Hd : 0 < d) by (unfold d; simpl; lia).
    assert (Hde : -1073 <= d + e) by (unfold d in *; simpl Zdigits2; lia).
    set (m' := match e - 2 * e' with
               | 0 => Z.pos m
               | Z.pos _ => Z.shiftl (Z.pos m) (e - 2 * e')
               | Z.neg _ => 0
               end).
    assert (Hm' : 0 < m' /\ Zdigits2 m' = d + (e - 2 * e')).
    { unfold m'. destruct (e - 2 * e') as [|p|p] eqn:Es; try lia.
      rewrite Zdigits2_shiftl by lia. split; [|reflexivity].
      rewrite Z.shiftl_mul_pow2 by lia. apply Z.mul_pos_pos; [lia|].
      now apply Z.pow_pos_nonneg. }
    destruct Hm' as [Hm' Dm'].
    pose proof (Z.sqrtrem_sqrt m') as Hq.
    destruct (Z.sqrtrem m') as [q r]. simpl in Hq. subst q.
    pose proof (Zdigits2_sqrt m' Hm') as Hdq.
    assert (Hq : 0 < Z.sqrt m') by now apply Z.sqrt_pos.
    pose proof (binary_round_aux_above false (Z.sqrt m') e'
                  (if r =? 0 then loc_Exact
                   else loc_Inexact (if r <=? Z.sqrt m' then Lt else Gt)))
      as H.
    change emin with (-1074) in H.
    destruct (binary_round_aux prec emax false (Z.sqrt m') e' _);
      cbn [big_enough]; try exact I.
    specialize (H Hq ltac:(lia)). lia.
Qed.

Local Open Scope float_scope.

Lemma is_zero_sf_spec x : is_zero x = true <-> is_zero_sf (Prim2SF x).
Proof.
  unfold is_zero. rewrite eqb_spec.
  change (Prim2SF zero) with (S754_zero false). unfold SFeqb.
  destruct (Prim2SF x) as [s|s| |s m e]; simpl.
  - tauto.
  - destruct s; split; (discriminate || contradiction).
  - split; (discriminate || contradiction).
  - destruct s; split; (discriminate || contradiction).
Qed.

(** The product of two square roots that are not zero is not zero: a
    non-zero binary64 square root is at least [2^-537], and the square of
    that is the smallest positive binary64 value. *)
Lemma sqrt_product_nonzero s t :
  is_zero (sqrt s) = false -> is_zero (sqrt t) = false ->
  is_zero (sqrt s * sqrt t) = false.
Proof.
  intros Hs Ht. apply not_true_iff_false. intros H.
  apply is_zero_sf_spec in H. rewrite mul_spec in H. revert H.
  apply SFmul_nonzero.
  - rewrite sqrt_spec. apply SFsqrt_big_enough, Prim2SF_valid.
  - rewrite sqrt_spec. apply SFsqrt_big_enough, Prim2SF_valid.
  - intros H. apply is_zero_sf_spec in H. congruence.
  - intros H. apply is_zero_sf_spec in H. congruence.
Qed.

End RoundingFacts.

(* ================================================================== *)
(** ** The order on scores *)

Module OrderFacts.
Import FloatFacts.
Local Open Scope float_scope.

(** Turns comparisons between floats known not to be NaN into linear
    arithmetic on their ranks. *)
Ltac by_rank :=
  repeat match goal with
  | H : (?x <? ?y) = true |- _ =>
      apply ltb_key in H; [|assumption|assumption]
  | H : (?x <=? ?y) = true |- _ =>
      apply leb_key in H; [|assumption|assumption]
  | H : (?x =? ?y) = true |- _ =>
      apply eqb_key in H; [|assumption|assumption]
  | H : (?x <? ?y) = false |- _ =>
      apply not_true_iff_false in H;
      rewrite ltb_key in H by assumption
  | H : (?x <=? ?y) = false |- _ =>
      apply not_true_iff_false in H;
      rewrite leb_key in H by assumption
  | |- (?x <? ?y) = true => apply ltb_key; [assumption|assumption|]
  | |- (?x <=? ?y) = true => apply leb_key; [assumption|assumption|]
  | |- (?x =? ?y) = true => apply eqb_key; [assumption|assumption|]
  | |- (?x <? ?y) = false =>
      apply not_true_iff_false; rewrite ltb_key by assumption
  | |- (?x <=? ?y) = false =>
      apply not_true_iff_false; rewrite leb_key by assumption
  end;
  repeat match goal with
  | |- context [key ?x] =>
      let a := fresh "a" in let b := fresh "b" in let c := fresh "c" in
      destruct (key x) as [[a b] c]
  | H : context [key ?x] |- _ =>
      let a := fresh "a" in let b := fresh "b" in let c := fresh "c" in
      destruct (key x) as [[a b] c]
  end;
  unfold rank_lt, rank_eq in *; lia.

Lemma ltb_irrefl x : (x <? x) = false.
Proof.
  destruct (x <? x) eqn:E; [|reflexivity].
  destruct (ltb_not_nan _ _ E) as [Hx _]. by_rank.
Qed.

Lemma ltb_trans x y z : (x <? y) = true -> (y <? z) = true -> (x <? z) = true.
Proof.
  intros Hxy Hyz.
  destruct (ltb_not_nan _ _ Hxy) as [Hx Hy].
  destruct (ltb_not_nan _ _ Hyz) as [_ Hz]. by_rank.
Qed.

Lemma ltb_leb x y : (x <? y) = true -> (x <=? y) = true.
Proof. intros H. destruct (ltb_not_nan _ _ H) as [Hx Hy]. by_rank. Qed.

Lemma leb_ltb_false x y : (x <=? y) = true -> (y <? x) = false.
Proof. intros H. destruct (leb_not_nan _ _ H) as [Hx Hy]. by_rank. Qed.

Lemma ltb_false_leb x y : not_nan x -> not_nan y ->
  (x <? y) = false -> (y <=? x) = true.
Proof. intros Hx Hy H. by_rank. Qed.

Lemma leb_trans x y z :
  (x <=? y) = true -> (y <=? z) = true -> (x <=? z) = true.
Proof.
  intros Hxy Hyz.
  destruct (leb_not_nan _ _ Hxy) as [Hx Hy].
  destruct (leb_not_nan _ _ Hyz) as [_ Hz]. by_rank.
Qed.

Lemma leb_ltb_trans x y z :
  (x <=? y) = true -> (y <? z) = true -> (x <? z) = true.
Proof.
  intros Hxy Hyz.
  destruct (leb_not_nan _ _ Hxy) as [Hx Hy].
  destruct (ltb_not_nan _ _ Hyz) as [_ Hz]. by_rank.
Qed.

Lemma ltb_leb_trans x y z :
  (x <? y) = true -> (y <=? z) = true -> (x <? z) = true.
Proof.
  intros Hxy Hyz.
  destruct (ltb_not_nan _ _ Hxy) as [Hx Hy].
  destruct (leb_not_nan _ _ Hyz) as [_ Hz]. by_rank.
Qed.

(** Neither below the other: equal as floats compare. *)
Lemma ltb_false_eqb x y : not_nan x -> not_nan y ->
  (x <? y) = false -> (y <? x) = false -> (x =? y) = true.
Proof. intros Hx Hy H1 H2. by_rank. Qed.

Lemma eqb_leb x y : (x =? y) = true -> (x <=? y) = true /\ (y <=? x) = true.
Proof.
  intros H.
  assert (Hn : not_nan x /\ not_nan y).
  { revert H. rewrite eqb_spec. unfold not_nan, is_nan. rewrite !eqb_spec.
    unfold SFeqb.
    destruct (Prim2SF x) as [sx|sx| |sx mx ex],
             (Prim2SF y) as [sy|sy| |sy my ey];
      simpl; try discriminate; intros _; split; try reflexivity;
      try (destruct sx; reflexivity); try (destruct sy; reflexivity);
      try (destruct sx; rewrite Z.compare_refl, ?Pos.compare_cont_refl;
           reflexivity);
      try (destruct sy; rewrite Z.compare_refl, ?Pos.compare_cont_refl;
           reflexivity). }
  destruct Hn as [Hx Hy]. split; by_rank.
Qed.

End OrderFacts.

(* ================================================================== *)
(** ** Similarity scorer *)

Module ScorerFacts.
Import Scorer Grading FloatFacts.
Local Open Scope float_scope.

(** Shape of the specification of a float, from its classification. *)
Lemma zero_spec x : is_zero x = true -> exists s, Prim2SF x = S754_zero s.
Proof.
  unfold is_zero. rewrite eqb_spec.
  change (Prim2SF zero) with (S754_zero false). unfold SFeqb.
  destruct (Prim2SF x) as [s|s| |s m e]; simpl; try discriminate.
  - intros _. now exists s.
  - destruct s; discriminate.
  - destruct s; discriminate.
Qed.

Lemma finite_spec x : is_finite x = true ->
  (exists s, Prim2SF x = S754_zero s) \/
  (exists s m e, Prim2SF x = S754_finite s m e).
Proof.
  unfold is_finite, is_nan, is_infinity.
  rewrite !eqb_spec, abs_spec.
  change (Prim2SF infinity) with (S754_infinity false). unfold SFeqb.
  destruct (Prim2SF x) as [s|s| |s m e].
  - intros _. left. now exists s.
  - destruct s; discriminate.
  - discriminate.
  - intros _. right. now exists s, m, e.
Qed.

Lemma nonzero_finite_spec x : is_finite x = true -> is_zero x = false ->
  exists s m e, Prim2SF x = S754_finite s m e.
Proof.
  intros Hf Hz. destruct (finite_spec x Hf) as [[s E]|H]; [|exact H].
  exfalso. revert Hz. unfold is_zero. rewrite eqb_spec, E.
  change (Prim2SF zero) with (S754_zero false). discriminate.
Qed.

(** A zero times a finite value is a zero. *)
Lemma mul_zero_l x y : is_zero x = true -> is_finite y = true ->
  is_zero (x * y) = true.
Proof.
  intros Hx Hy. destruct (zero_spec x Hx) as [sx Ex].
  unfold is_zero. rewrite eqb_spec, mul_spec, Ex.
  change (Prim2SF zero) with (S754_zero false).
  destruct (finite_spec y Hy) as [[sy Ey]|[sy [m [e Ey]]]]; rewrite Ey;
    reflexivity.
Qed.

Lemma mul_zero_r x y : is_finite x = true -> is_zero y = true ->
  is_zero (x * y) = true.
Proof. intros Hx Hy. rewrite mul_comm. now apply mul_zero_l. Qed.

(** The square of a zero is [+0.0]. *)
Lemma square_zero x : is_zero x = true -> x * x = 0.
Proof.
  intros Hx. destruct (zero_spec x Hx) as [s E].
  apply Prim2SF_inj. rewrite mul_spec, E.
  change (Prim2SF 0) with (S754_zero false). simpl. now rewrite xorb_nilpotent.
Qed.

(** A finite non-zero value divided by itself is exactly one: the
    quotient of the mantissas is a power of two with no remainder. *)
Lemma div_self x : is_finite x = true -> is_zero x = false -> x / x = 1.
Proof.
  intros Hf Hz. destruct (nonzero_finite_spec x Hf Hz) as [s [m [e E]]].
  apply Prim2SF_inj. rewrite div_spec, E.
  unfold SF64div, SFdiv, SFdiv_core_binary.
  rewrite !Z.sub_diag, xorb_nilpotent.
  change (Z.min (fexp prec emax 0) 0) with (-53)%Z.
  change (0 - -53)%Z with 53%Z. cbv beta iota zeta.
  rewrite Z.shiftl_mul_pow2 by lia.
  pose proof (Z.div_eucl_eq (Z.pos m * 2 ^ 53) (Z.pos m)) as Hde.
  pose proof (Z_div_mult_full (2 ^ 53) (Z.pos m)) as Hq.
  pose proof (Z_mod_mult (2 ^ 53) (Z.pos m)) as Hr.
  rewrite (Z.mul_comm (2 ^ 53)) in Hq, Hr.
  unfold Z.div in Hq. unfold Z.modulo in Hr.
  destruct (Z.div_eucl (Z.pos m * 2 ^ 53) (Z.pos m)) as [q r].
  rewrite Hq, Hr by lia.
  unfold new_location.
  destruct (Z.even (Z.pos m)); reflexivity.
Qed.

(** *** Fused multiply-add *)

(** The two factors of a fused multiply-add commute, bit for bit. *)
Lemma SFfma_comm x y z : SFfma x y z = SFfma y x z.
Proof.
  unfold SFfma.
  destruct x as [sx|sx| |sx mx ex], y as [sy|sy| |sy my ey], z;
    cbv beta iota;
    try (f_equal; apply SFmul_comm);
    try apply SFmul_comm;
    now rewrite xorb_comm, Pos.mul_comm, Z.add_comm.
Qed.

Lemma fma_comm x y z : fma x y z = fma y x z.
Proof. unfold fma. now rewrite SFfma_comm. Qed.

(** The square of a zero added to [+0.0] is [+0.0]. *)
Lemma fma_square_zero x : is_zero x = true -> fma x x 0 = 0.
Proof.
  intros Hx. destruct (zero_spec x Hx) as [s E].
  unfold fma. rewrite E. change (Prim2SF 0) with (S754_zero false).
  simpl. rewrite xorb_nilpotent. reflexivity.
Qed.

(** *** Dot product *)

Lemma dot_from_comm a : forall b acc, dot_from acc a b = dot_from acc b a.
Proof.
  induction a as [|x a IH]; intros [|y b] acc; simpl; try reflexivity.
  rewrite (fma_comm x y). apply IH.
Qed.

Lemma dot_comm a b : dot a b = dot b a.
Proof. apply dot_from_comm. Qed.

Lemma dot_from_self a : forall acc,
  dot_from acc a a = Some (fold_left (fun acc x => fma x x acc) a acc).
Proof. induction a as [|x a IH]; intros acc; simpl; [reflexivity|apply IH]. Qed.

Lemma dot_self a : dot a a = Some (sqnorm a).
Proof. apply dot_from_self. Qed.

Lemma dot_from_aligned a : forall b acc, length a = length b ->
  exists d, dot_from acc a b = Some d.
Proof.
  induction a as [|x a IH]; intros [|y b] acc H; simpl in *; try discriminate.
  - eexists; reflexivity.
  - apply IH. congruence.
Qed.

Lemma dot_aligned a b : length a = length b -> exists d, dot a b = Some d.
Proof. apply dot_from_aligned. Qed.

Lemma dot_from_misaligned a : forall b acc, length a <> length b ->
  dot_from acc a b = None.
Proof.
  induction a as [|x a IH]; intros [|y b] acc H; simpl in *;
    try reflexivity; try congruence.
  apply IH. congruence.
Qed.

(** *** Cosine *)

Lemma cosine_sim_zero_product a b :
  (norm a * norm b =? 0) = true -> _cosine_sim a b = Ok sentinel.
Proof. intros E. unfold _cosine_sim. cbv zeta. now rewrite E. Qed.

Lemma cosine_sim_quotient a b d :
  dot a b = Some d -> (norm a * norm b =? 0) = false ->
  _cosine_sim a b = Ok (d / (norm a * norm b)).
Proof. intros Hd E. unfold _cosine_sim. cbv zeta. now rewrite E, Hd. Qed.

Lemma cosine_sim_misaligned a b :
  length a <> length b -> (norm a * norm b =? 0) = false ->
  _cosine_sim a b = Raise (shapes_not_aligned (length a) (length b)).
Proof.
  intros Hlen E. unfold _cosine_sim, dot. cbv zeta.
  now rewrite E, dot_from_misaligned.
Qed.

(** Where the scorer raises: the lengths differ and the product of the
    norms does not compare equal to zero, so that [np.dot] is reached. *)
Definition misaligned (a b : vector) : Prop :=
  length a <> length b /\ (norm a * norm b =? 0) = false.

Lemma dot_from_none : forall a b acc,
  dot_from acc a b = None <-> length a <> length b.
Proof.
  induction a as [|x a IH]; intros [|y b] acc; simpl.
  - split; [discriminate | congruence].
  - split; [discriminate | reflexivity].
  - split; [discriminate | reflexivity].
  - rewrite IH. split; intros H; congruence.
Qed.

(** The scorer returns a float or raises the shape error, and raises it
    exactly on misaligned arguments. *)
Lemma cosine_sim_outcome a b :
  (misaligned a b /\
   _cosine_sim a b = Raise (shapes_not_aligned (length a) (length b))) \/
  (~ misaligned a b /\ exists s, _cosine_sim a b = Ok s).
Proof.
  unfold misaligned, _cosine_sim. cbv zeta.
  destruct (norm a * norm b =? 0) eqn:E.
  - right. split; [intros [_ H]; discriminate | now eexists].
  - destruct (dot a b) as [d|] eqn:Hd.
    + right. split; [|now eexists].
      intros [Hlen _]. apply (dot_from_misaligned a b 0) in Hlen.
      unfold dot in Hd. congruence.
    + left. apply dot_from_none in Hd. now repeat split.
Qed.

(** The accumulation is fused. With a rounding after each product the
    squared norm of [0.1, 0.3] would be [0x1.999999999999ap-4] and the
    cosine of the vector with itself [1.0]. *)
Example sqnorm_is_fused :
  sqnorm [0x1.999999999999ap-4; 0x1.3333333333333p-2]
  = 0x1.9999999999999p-4 /\
  _cosine_sim [0x1.999999999999ap-4; 0x1.3333333333333p-2]
              [0x1.999999999999ap-4; 0x1.3333333333333p-2]
  = Ok 0x1.fffffffffffffp-1.
Proof. split; vm_compute; reflexivity. Qed.

(** For vectors of one length the two argument orders agree, bit for
    bit. *)
Lemma cosine_sim_comm a b :
  length a = length b -> _cosine_sim a b = _cosine_sim b a.
Proof.
  intros H. unfold _cosine_sim.
  now rewrite (mul_comm (norm a) (norm b)), dot_comm, H.
Qed.

(** Vectors whose every component is a zero, of either sign. *)
Definition zero_vector (a : vector) : Prop :=
  Forall (fun x => is_zero x = true) a.

Lemma sqnorm_zero_vector a : zero_vector a -> sqnorm a = 0.
Proof.
  unfold sqnorm. induction 1 as [|x a Hx _ IH]; [reflexivity|].
  simpl. rewrite (fma_square_zero x Hx). exact IH.
Qed.

Lemma norm_zero_vector a : zero_vector a -> norm a = 0.
Proof. intros H. unfold norm. now rewrite sqnorm_zero_vector. Qed.

Lemma zero_vector_product a b :
  zero_vector a -> is_finite (norm b) = true -> (norm a * norm b =? 0) = true.
Proof.
  intros Ha Hb.
  assert (E : is_zero (norm a * norm b) = true).
  { apply mul_zero_l; [|exact Hb]. now rewrite (norm_zero_vector a Ha). }
  exact E.
Qed.

(** C5, as the code has it. For vectors of equal length the dot product is
    defined, and the product of the two norms decides what [_cosine_sim]
    returns: the sentinel when the product compares equal to zero, the
    quotient of the dot product by the product otherwise. With a zero norm
    and both norms finite the product is zero, so the sentinel is returned;
    with no zero norm the product is not zero, so the quotient is. The
    sentinel is [-1.0], inside the range [-1, 1] at its lower end, and it
    is graded [Incorrect]. It is not set apart from the computed scores:
    the quotient is [-1.0] for [1] against [-1]; it is NaN, not the
    sentinel, for the zero vector [0] against [2^700], whose norm
    overflows; and it is below the sentinel for [1, 1, 1] against
    [-1, -1, -1], so a sentinel can rank above a computed score. *)
Theorem cosine_sim_cases a b :
  length a = length b ->
  exists d, dot a b = Some d /\
    ((norm a * norm b =? 0) = true -> _cosine_sim a b = Ok sentinel) /\
    ((norm a * norm b =? 0) = false ->
       _cosine_sim a b = Ok (d / (norm a * norm b))) /\
    (is_zero (norm a) = true \/ is_zero (norm b) = true ->
       is_finite (norm a) = true -> is_finite (norm b) = true ->
       (norm a * norm b =? 0) = true /\ _cosine_sim a b = Ok sentinel) /\
    (is_zero (norm a) = false -> is_zero (norm b) = false ->
       (norm a * norm b =? 0) = false /\
       _cosine_sim a b = Ok (d / (norm a * norm b))) /\
    sentinel = (-1) /\
    (-1 <=? sentinel) = true /\ (sentinel <=? 1) = true /\
    grade (Some sentinel) = Incorrect /\
    ((norm [1] * norm [-1] =? 0) = false /\
     _cosine_sim [1] [-1] = Ok sentinel) /\
    (is_zero (norm [0]) = true /\ _cosine_sim [0] [0x1p700] = Ok nan) /\
    (_cosine_sim [1; 1; 1] [-1; -1; -1] = Ok (-0x1.0000000000001p+0) /\
     (-0x1.0000000000001p+0 <? sentinel) = true).
Proof.
  intros Hlen. destruct (dot_aligned a b Hlen) as [d Hd]. exists d.
  split; [exact Hd|].
  split; [apply cosine_sim_zero_product|].
  split; [now apply cosine_sim_quotient|].
  split; [|split].
  - intros Hzero Hfa Hfb.
    assert (E : (norm a * norm b =? 0) = true).
    { destruct Hzero as [Ha|Hb].
      - now apply (mul_zero_l (norm a) (norm b)).
      - now apply (mul_zero_r (norm a) (norm b)). }
    split; [exact E | now apply cosine_sim_zero_product].
  - intros Ha Hb.
    assert (E : (norm a * norm b =? 0) = false)
      by now apply RoundingFacts.sqrt_product_nonzero.
    split; [exact E | now apply cosine_sim_quotient].
  - repeat split; vm_compute; reflexivity.
Qed.

Lemma cosine_sim_cases_witness :
  exists d, dot [0; 0] [3; 4] = Some d /\
    _cosine_sim [0; 0] [3; 4] = Ok sentinel /\
    _cosine_sim [3; 4] [4; 3] = Ok 0x1.eb851eb851eb8p-1.
Proof.
  destruct (cosine_sim_cases [0; 0] [3; 4]) as [d (Hd & _ & _ & Hs & _)];
    [reflexivity|].
  destruct (cosine_sim_cases [3; 4] [4; 3]) as [d' (Hd' & _ & _ & _ & Hq & _)];
    [reflexivity|].
  exists d. split; [exact Hd|]. split.
  - apply Hs; [now left | reflexivity | reflexivity].
  - destruct Hq as [_ Hq]; [reflexivity | reflexivity |].
    rewrite Hq. vm_compute in Hd'. injection Hd' as <-.
    vm_compute. reflexivity.
Defined.

(** C5 fails as stated. The sentinel lies inside [-1, 1] and is the score
    of the exactly opposite pair [1] and [-1]; a computed score can lie
    below it, so a zero-norm chunk can rank above a scored one; and a
    vector of zero norm against one whose norm overflows gives NaN, not
    the sentinel. *)
Lemma sentinel_inside_range :
  (-1 <=? sentinel) = true /\ (sentinel <=? 1) = true /\
  _cosine_sim [1] [-1] = Ok sentinel /\
  (exists s, _cosine_sim [1; 1; 1] [-1; -1; -1] = Ok s /\
             (s <? sentinel) = true) /\
  is_zero (norm [0]) = true /\ _cosine_sim [0] [0x1p700] = Ok nan.
Proof.
  split; [reflexivity|]. split; [reflexivity|].
  split; [vm_compute; reflexivity|].
  split; [|split; vm_compute; reflexivity].
  eexists. split; vm_compute; reflexivity.
Qed.

(** C9, as the code has it. For vectors of one length [_cosine_sim] gives
    the same result in both argument orders, bit for bit; for vectors of
    different lengths both orders give the sentinel, or both raise the
    shape error, each naming the shapes in its own order. A zero vector
    against any vector of finite norm gives the sentinel in either order,
    and so does a zero vector against itself. A vector against itself
    gives the sentinel when the square of its norm compares equal to zero,
    as for the non-zero vector [2^-600], and the rounded quotient of its
    squared norm by the square of its norm otherwise; that quotient is
    exactly [1.0] when the squared norm is finite, not zero, and recovered
    exactly by squaring its square root, and it is one unit in the last
    place short of [1.0] for [1, 2]. *)
Theorem cosine_sim_symmetric :
  (forall a b, length a = length b -> _cosine_sim a b = _cosine_sim b a) /\
  (forall a b, length a <> length b ->
     (_cosine_sim a b = Ok sentinel /\ _cosine_sim b a = Ok sentinel) \/
     (_cosine_sim a b = Raise (shapes_not_aligned (length a) (length b)) /\
      _cosine_sim b a = Raise (shapes_not_aligned (length b) (length a)))) /\
  (forall a b, zero_vector a -> is_finite (norm b) = true ->
     _cosine_sim a b = Ok sentinel /\ _cosine_sim b a = Ok sentinel) /\
  (forall a, zero_vector a -> _cosine_sim a a = Ok sentinel) /\
  (forall a, (norm a * norm a =? 0) = true -> _cosine_sim a a = Ok sentinel) /\
  (forall a, (norm a * norm a =? 0) = false ->
     _cosine_sim a a = Ok (sqnorm a / (norm a * norm a))) /\
  (forall a, is_finite (sqnorm a) = true -> is_zero (sqnorm a) = false ->
     sqrt (sqnorm a) * sqrt (sqnorm a) = sqnorm a ->
     _cosine_sim a a = Ok 1) /\
  (~ zero_vector [0x1p-600] /\
   _cosine_sim [0x1p-600] [0x1p-600] = Ok sentinel) /\
  (~ zero_vector [1; 2] /\
   _cosine_sim [1; 2] [1; 2] = Ok 0x1.ffffffffffffep-1 /\
   (0x1.ffffffffffffep-1 =? 1) = false).
Proof.
  split; [exact cosine_sim_comm|].
  split; [|split; [|split; [|split; [|split; [|split; [|split]]]]]].
  - intros a b Hlen.
    destruct (norm a * norm b =? 0) eqn:E.
    + left. split; [now apply cosine_sim_zero_product|].
      apply cosine_sim_zero_product. now rewrite mul_comm.
    + right. split; [now apply cosine_sim_misaligned|].
      apply cosine_sim_misaligned; [congruence | now rewrite mul_comm].
  - intros a b Ha Hb. split.
    + apply cosine_sim_zero_product. now apply zero_vector_product.
    + apply cosine_sim_zero_product. rewrite mul_comm.
      now apply zero_vector_product.
  - intros a Ha. apply cosine_sim_zero_product.
    apply zero_vector_product; [exact Ha|].
    now rewrite (norm_zero_vector a Ha).
  - intros a. apply cosine_sim_zero_product.
  - intros a. apply cosine_sim_quotient. apply dot_self.
  - intros a Hf Hz Hsq. unfold _cosine_sim, norm. cbv zeta.
    rewrite Hsq. change (sqnorm a =? 0) with (is_zero (sqnorm a)).
    rewrite Hz, dot_self. now rewrite div_self.
  - split; [|vm_compute; reflexivity].
    intros H. inversion H as [|? ? H1 _]. vm_compute in H1. discriminate.
  - split; [|split; vm_compute; reflexivity].
    intros H. inversion H as [|? ? H1 _]. vm_compute in H1. discriminate.
Qed.

Lemma cosine_sim_symmetric_witness :
  _cosine_sim [3; 4] [4; 3] = _cosine_sim [4; 3] [3; 4] /\
  (_cosine_sim [0; -0] [3; 4] = Ok sentinel /\
   _cosine_sim [3; 4] [0; -0] = Ok sentinel) /\
  _cosine_sim [0; -0] [0; -0] = Ok sentinel /\
  _cosine_sim [3; 4] [3; 4] = Ok 1.
Proof.
  destruct cosine_sim_symmetric
    as (Hsym & _ & Hzero & Hself & _ & _ & Hone & _).
  split; [|split; [|split]].
  - apply Hsym. reflexivity.
  - apply Hzero; [repeat constructor | reflexivity].
  - apply Hself. repeat constructor.
  - apply Hone; reflexivity.
Defined.

(** C9 fails as stated: [1, 2] is not a zero vector, and its cosine with
    itself is one unit in the last place short of [1.0]; [2^-600] is not
    zero, and its square underflows, so its cosine with itself is the
    sentinel. *)
Lemma cosine_sim_self_not_one :
  ~ zero_vector [1; 2] /\
  _cosine_sim [1; 2] [1; 2] = Ok 0x1.ffffffffffffep-1 /\
  (0x1.ffffffffffffep-1 =? 1) = false /\
  ~ zero_vector [0x1p-600] /\
  _cosine_sim [0x1p-600] [0x1p-600] = Ok sentinel.
Proof.
  repeat split; try (vm_compute; reflexivity).
  - intros H. inversion H as [|? ? H1 _]. vm_compute in H1. discriminate.
  - intros H. inversion H as [|? ? H1 _]. vm_compute in H1. discriminate.
Qed.

End ScorerFacts.

(* ================================================================== *)
(** ** Grading rule *)

Module GradingFacts.
Import Grading FloatFacts OrderFacts.
Local Open Scope float_scope.

Lemma thresholds_not_nan :
  not_nan correct_threshold /\ not_nan partial_threshold.
Proof. split; reflexivity. Qed.

Lemma thresholds_ordered : (partial_threshold <? correct_threshold) = true.
Proof. reflexivity. Qed.

(** C2. An absent similarity is [Unscored]; a similarity is [Correct]
    exactly when it is above 0.85, [Partial] exactly when it is above 0.6
    and at most 0.85, and [Incorrect] when it is at most 0.6; the two
    thresholds themselves fall in the lower band. *)
Theorem grade_bands :
  grade None = Unscored /\
  (forall s, (correct_threshold <? s) = true <-> grade (Some s) = Correct) /\
  (forall s, (partial_threshold <? s) = true /\
             (s <=? correct_threshold) = true <->
             grade (Some s) = Partial) /\
  (forall s, (s <=? partial_threshold) = true ->
             grade (Some s) = Incorrect) /\
  (forall s, grade (Some s) <> Unscored) /\
  grade (Some correct_threshold) = Partial /\
  grade (Some partial_threshold) = Incorrect.
Proof.
  destruct thresholds_not_nan as [Hc Hp].
  split; [reflexivity|]. split; [|split; [|split; [|split]]].
  - intros s. unfold grade.
    destruct (correct_threshold <? s); [tauto|].
    destruct (partial_threshold <? s); split; discriminate.
  - intros s. unfold grade. split.
    + intros [Hlow Hhigh]. rewrite (leb_ltb_false _ _ Hhigh), Hlow.
      reflexivity.
    + destruct (correct_threshold <? s) eqn:Ec; [discriminate|].
      destruct (partial_threshold <? s) eqn:Ep; [|discriminate].
      intros _. split; [reflexivity|].
      destruct (ltb_not_nan _ _ Ep) as [_ Hs].
      now apply ltb_false_leb.
  - intros s Hs. unfold grade.
    assert (E : (partial_threshold <? s) = false)
      by now apply leb_ltb_false.
    rewrite E.
    destruct (correct_threshold <? s) eqn:Ec; [|reflexivity].
    pose proof (ltb_trans partial_threshold correct_threshold s
                  thresholds_ordered Ec). congruence.
  - intros s. unfold grade.
    destruct (correct_threshold <? s); [discriminate|].
    destruct (partial_threshold <? s); discriminate.
  - split; reflexivity.
Qed.

Lemma grade_bands_witness :
  grade (Some 0x1.ccccccccccccdp-1) = Correct /\
  grade (Some 0x1.6666666666666p-1) = Partial /\
  grade (Some 0x1.3333333333333p-2) = Incorrect.
Proof.
  destruct grade_bands as (_ & Hc & Hp & Hi & _).
  split; [apply Hc; reflexivity|].
  split; [apply Hp; split; reflexivity|].
  apply Hi; reflexivity.
Defined.

(** The four graded examples of the specification: 0.9, 0.7 and 0.3 as
    binary64 values, and the absent similarity. *)
Example grade_examples :
  grade (Some 0x1.ccccccccccccdp-1) = Correct /\
  grade (Some 0x1.6666666666666p-1) = Partial /\
  grade (Some 0x1.3333333333333p-2) = Incorrect /\
  grade None = Unscored.
Proof. repeat split. Qed.

End GradingFacts.

From AAC_tactics Require AAC.

(* ================================================================== *)
(** ** [list.sort] only reorders *)

Module ListSortFacts.
Import ListSort.
Import AAC_tactics.AAC.

Section Rearrange.
Variable A : Type.
Variable lt : A -> A -> bool.

#[local] Instance app_assoc_perm : Associative (@Permutation A) (@app A).
Proof. intros x y z. now rewrite app_assoc. Qed.

#[local] Instance app_comm_perm : Commutative (@Permutation A) (@app A).
Proof. intros x y. apply Permutation_app_comm. Qed.

#[local] Instance app_unit_perm : Unit (@Permutation A) (@app A) (@nil A).
Proof. split; intros x; [reflexivity | now rewrite app_nil_r]. Qed.

(** Items written one by one count as one-item lists. *)
Ltac uncons :=
  repeat match goal with
         | |- context [?x :: ?l] =>
             lazymatch l with
             | [] => fail
             | _ => change (x :: l) with ([x] ++ l)
             end
         end.

(** Closes a goal that two concatenations hold the same items. *)
Ltac same_items :=
  cbn [fst snd]; change (slice A []) with (@nil A);
  rewrite <- ?Permutation_rev; uncons; aac_reflexivity.

Lemma binarysort_perm : forall todo sorted,
  Permutation (binarysort A lt sorted todo) (sorted ++ todo).
Proof.
  induction todo as [|pivot todo IH]; intros sorted; simpl.
  - now rewrite app_nil_r.
  - rewrite IH.
    set (l := match sorted with [] => 0 | _ => _ end).
    rewrite <- (firstn_skipn l sorted) at 3. same_items.
Qed.

(** Cuts [l] at [k] and forgets how: [l] is the two pieces in order. *)
Ltac cut_at k l front back :=
  let H := fresh "Hcut" in
  pose proof (firstn_skipn k l) as H;
  set (front := firstn k l) in *;
  set (back := skipn k l) in *;
  clearbody front back.

Lemma merge_lo_loop_perm : forall fuel m min_gallop out a b,
  Permutation (fst (merge_lo_loop A lt fuel m min_gallop out a b))
              (out ++ a ++ b).
Proof.
  induction fuel as [|fuel IH]; intros m mg out a b; [reflexivity|].
  destruct a as [|a0 a']; [reflexivity|].
  destruct b as [|b0 b']; [reflexivity|].
  cbn [merge_lo_loop]. destruct m as [acount bcount|].
  - destruct (lt b0 a0).
    + destruct b' as [|b1 b']; [same_items|].
      destruct (mg <=? S bcount); rewrite IH; same_items.
    + destruct a' as [|a1 [|a2 a']].
      * destruct (mg <=? S acount); rewrite IH; same_items.
      * same_items.
      * destruct (mg <=? S acount); rewrite IH; same_items.
  - cbv zeta.
    set (k := gallop_right A lt b0 (a0 :: a') 0). clearbody k.
    cut_at k (a0 :: a') front back. rewrite <- Hcut. clear Hcut.
    destruct k as [|k], back as [|x [|y back]]; try same_items.
    + destruct b' as [|b1 b']; [same_items|].
      set (k' := gallop_left A lt x (b1 :: b') 0). clearbody k'.
      cut_at k' (b1 :: b') front' back'. rewrite <- Hcut. clear Hcut.
      destruct back' as [|z back']; [same_items|].
      destruct ((MIN_GALLOP <=? 0) || (MIN_GALLOP <=? k')); rewrite IH;
        same_items.
    + destruct b' as [|b1 b']; [same_items|].
      set (k' := gallop_left A lt x (b1 :: b') 0). clearbody k'.
      cut_at k' (b1 :: b') front' back'. rewrite <- Hcut. clear Hcut.
      destruct back' as [|z back']; [same_items|].
      destruct back as [|y' back]; [same_items|].
      destruct ((MIN_GALLOP <=? 0) || (MIN_GALLOP <=? k')); rewrite IH;
        same_items.
    + destruct b' as [|b1 b']; [same_items|].
      set (k' := gallop_left A lt x (b1 :: b') 0). clearbody k'.
      cut_at k' (b1 :: b') front' back'. rewrite <- Hcut. clear Hcut.
      destruct back' as [|z back']; [same_items|].
      destruct back as [|y' back]; [same_items|].
      destruct ((MIN_GALLOP <=? S k) || (MIN_GALLOP <=? k')); rewrite IH;
        same_items.
Qed.

Lemma merge_lo_perm a b min_gallop :
  Permutation (fst (merge_lo A lt a b min_gallop)) (a ++ b).
Proof.
  unfold merge_lo. destruct b as [|b0 [|b1 b']].
  - now rewrite app_nil_r.
  - same_items.
  - destruct a as [|a0 [|a1 a']];
      try (rewrite merge_lo_loop_perm); same_items.
Qed.

Lemma merge_hi_loop_perm : forall fuel m min_gallop ra rb out,
  Permutation (fst (merge_hi_loop A lt fuel m min_gallop ra rb out))
              (ra ++ rb ++ out).
Proof.
  induction fuel as [|fuel IH]; intros m mg ra rb out;
    [cbn [merge_hi_loop]; same_items|].
  destruct ra as [|a0 ra']; [cbn [merge_hi_loop]; same_items|].
  destruct rb as [|b0 rb']; [cbn [merge_hi_loop]; same_items|].
  cbn [merge_hi_loop]. destruct m as [acount bcount|].
  - destruct (lt b0 a0).
    + destruct ra' as [|a1 ra']; [same_items|].
      destruct (mg <=? S acount); rewrite IH; same_items.
    + destruct rb' as [|b1 [|b2 rb']].
      * destruct (mg <=? S bcount); rewrite IH; same_items.
      * same_items.
      * destruct (mg <=? S bcount); rewrite IH; same_items.
  - cbv zeta.
    set (k := length (a0 :: ra')
              - gallop_right A lt b0 (rev (a0 :: ra'))
                  (length (a0 :: ra') - 1)).
    clearbody k.
    cut_at k (a0 :: ra') front back. rewrite <- Hcut. clear Hcut.
    destruct back as [|x back]; [same_items|].
    destruct rb' as [|b1 [|b2 rb']].
    + set (k' := length (@nil A) - _). clearbody k'.
      cut_at k' (@nil A) front' back'.
      apply app_eq_nil in Hcut. destruct Hcut as [-> ->].
      destruct k', back; try same_items;
        match goal with
        | |- context [if ?c then _ else _] =>
            destruct c; rewrite IH; same_items
        end.
    + same_items.
    + set (k' := length (b1 :: b2 :: rb') - _). clearbody k'.
      cut_at k' (b1 :: b2 :: rb') front' back'. rewrite <- Hcut. clear Hcut.
      destruct k' as [|k'], back' as [|y [|z back']]; try same_items;
        destruct back as [|x' back]; try same_items;
        match goal with
        | |- context [if ?c then _ else _] =>
            destruct c; rewrite IH; same_items
        end.
Qed.

Lemma merge_hi_perm a b min_gallop :
  Permutation (fst (merge_hi A lt a b min_gallop)) (a ++ b).
Proof.
  unfold merge_hi. rewrite (Permutation_rev a) at 2.
  destruct (rev a) as [|a0 [|a1 ra']].
  - reflexivity.
  - same_items.
  - destruct b as [|b0 [|b1 b']];
      try (rewrite merge_hi_loop_perm); same_items.
Qed.

Lemma merge_at_perm a b min_gallop :
  Permutation (fst (merge_at A lt a b min_gallop)) (a ++ b).
Proof.
  unfold merge_at. destruct b as [|b0 b']; [now rewrite app_nil_r|].
  set (b := b0 :: b'). clearbody b.
  set (k := gallop_right A lt b0 a 0). clearbody k.
  cut_at k a before rest. rewrite <- Hcut. clear Hcut.
  destruct (rev rest) as [|a_last ?] eqn:E.
  { apply (f_equal (@rev A)) in E. rewrite rev_involutive in E. subst rest.
    same_items. }
  clear E.
  set (nb := gallop_left A lt a_last b (length b - 1)). clearbody nb.
  destruct nb as [|nb]; [same_items|].
  cut_at (S nb) b kept after. rewrite <- Hcut. clear Hcut.
  destruct (length rest <=? length kept).
  - pose proof (merge_lo_perm rest kept min_gallop) as H.
    destruct (merge_lo A lt rest kept min_gallop) as [merged mg].
    cbn [fst] in *. rewrite H. same_items.
  - pose proof (merge_hi_perm rest kept min_gallop) as H.
    destruct (merge_hi A lt rest kept min_gallop) as [merged mg].
    cbn [fst] in *. rewrite H. same_items.
Qed.

(** *** The pending runs *)

Lemma slice_cons r (pending : list (run A)) :
  slice A (r :: pending) = slice A pending ++ fst r.
Proof.
  unfold slice. simpl. rewrite concat_app. simpl. now rewrite app_nil_r.
Qed.

Lemma merge_greater_perm : forall fuel power pending min_gallop,
  Permutation (slice A (fst (merge_greater A lt fuel power pending min_gallop)))
              (slice A pending).
Proof.
  induction fuel as [|fuel IH]; intros power pending mg; [reflexivity|].
  cbn [merge_greater].
  destruct pending as [|[top pt] [|[second p2] below]]; try reflexivity.
  destruct (power <? p2); [|reflexivity].
  pose proof (merge_at_perm second top mg) as H.
  destruct (merge_at A lt second top mg) as [merged mg'].
  rewrite IH, !slice_cons. cbn [fst] in *. rewrite H. same_items.
Qed.

Lemma found_new_run_perm n n2 pending min_gallop :
  Permutation (slice A (fst (found_new_run A lt n n2 pending min_gallop)))
              (slice A pending).
Proof.
  unfold found_new_run. destruct pending as [|[top pt] below]; [reflexivity|].
  set (power := powerloop _ _ _ _). clearbody power.
  match goal with
  | |- context [merge_greater A lt ?f power ?p min_gallop] =>
      pose proof (merge_greater_perm f power p min_gallop) as H;
      destruct (merge_greater A lt f power p min_gallop) as [pending mg]
  end.
  cbn [fst] in H. destruct pending as [|[top' pt'] below']; [exact H|].
  cbn [fst]. rewrite slice_cons in *. exact H.
Qed.

Lemma merge_force_collapse_perm : forall fuel pending min_gallop,
  Permutation
    (slice A (fst (merge_force_collapse A lt fuel pending min_gallop)))
    (slice A pending).
Proof.
  induction fuel as [|fuel IH]; intros pending mg; [reflexivity|].
  cbn [merge_force_collapse].
  destruct pending as [|[top pt] [|[second p2] below]]; try reflexivity.
  destruct below as [|[third p3] below].
  - pose proof (merge_at_perm second top mg) as H.
    destruct (merge_at A lt second top mg) as [merged mg'].
    rewrite IH, !slice_cons. cbn [fst] in *. rewrite H. same_items.
  - destruct (length third <? length top).
    + pose proof (merge_at_perm third second mg) as H.
      destruct (merge_at A lt third second mg) as [merged mg'].
      rewrite IH, !slice_cons. cbn [fst] in *. rewrite H. same_items.
    + pose proof (merge_at_perm second top mg) as H.
      destruct (merge_at A lt second top mg) as [merged mg'].
      rewrite IH, !slice_cons. cbn [fst] in *. rewrite H. same_items.
Qed.

Lemma run_desc_le : forall l prev, run_desc A lt prev l <= length l.
Proof.
  induction l as [|x l IH]; intros prev; simpl; [lia|].
  destruct (lt x prev); [specialize (IH x)|]; lia.
Qed.

Lemma run_asc_le : forall l prev, run_asc A lt prev l <= length l.
Proof.
  induction l as [|x l IH]; intros prev; simpl; [lia|].
  destruct (lt x prev); [|specialize (IH x)]; lia.
Qed.

Lemma count_run_le l : fst (count_run A lt l) <= length l.
Proof.
  destruct l as [|x [|y l]]; simpl; try lia.
  destruct (lt y x); simpl.
  - pose proof (run_desc_le l y). lia.
  - pose proof (run_asc_le l y). lia.
Qed.

Lemma sort_loop_perm : forall fuel n minrun pending min_gallop rest,
  Permutation
    (slice A (fst (sort_loop A lt fuel n minrun pending min_gallop rest)))
    (slice A pending ++ rest).
Proof.
  induction fuel as [|fuel IH]; intros n minrun pending mg rest.
  - cbn [sort_loop fst]. now rewrite slice_cons.
  - cbn [sort_loop]. destruct rest as [|x rest']; [now rewrite app_nil_r|].
    set (rest := x :: rest'). clearbody rest.
    pose proof (count_run_le rest) as Hcount.
    destruct (count_run A lt rest) as [count descending].
    cbn [fst] in Hcount.
    set (rest1 := if descending then _ else rest).
    assert (Hrest : Permutation rest1 rest).
    { unfold rest1. destruct descending; [|reflexivity].
      rewrite <- (firstn_skipn count rest) at 3. same_items. }
    assert (Hlen : length rest1 = length rest)
      by now apply Permutation_length.
    clearbody rest1.
    set (force := if count <? minrun then _ else count).
    assert (Hforce : count <= force).
    { unfold force. destruct (Nat.ltb_spec count minrun); lia. }
    clearbody force.
    pose proof (found_new_run_perm n force pending mg) as Hfound.
    destruct (found_new_run A lt n force pending mg) as [pending1 mg1].
    cbn [fst] in Hfound.
    rewrite IH, slice_cons, Hfound. cbn [fst].
    rewrite binarysort_perm, <- Hrest.
    rewrite <- (firstn_skipn force rest1) at 4.
    rewrite <- (firstn_skipn count (firstn force rest1)) at 2.
    rewrite firstn_firstn, Nat.min_l by exact Hforce. same_items.
Qed.

Theorem sort_perm l : Permutation (sort A lt l) l.
Proof.
  unfold sort. destruct (length l <? 2); [reflexivity|].
  pose proof (sort_loop_perm (length l) (length l)
                (merge_compute_minrun (length l)) [] MIN_GALLOP l) as Hloop.
  destruct (sort_loop A lt (length l) (length l) _ [] MIN_GALLOP l)
    as [pending mg].
  pose proof (merge_force_collapse_perm (length pending) pending mg) as Hend.
  destruct (merge_force_collapse A lt (length pending) pending mg)
    as [pending' mg'].
  cbn [fst] in *. now rewrite Hend, Hloop.
Qed.

Theorem sort_reverse_perm l : Permutation (sort_reverse A lt l) l.
Proof.
  unfold sort_reverse. now rewrite <- Permutation_rev, sort_perm,
    <- Permutation_rev.
Qed.

End Rearrange.
End ListSortFacts.

(* ================================================================== *)
(** ** Effects: what a computation leaves alone *)

Module Frame.
Import Py.
Import App.

(** [m] never changes the part of the world that [field] reads. *)
Definition preserves {A X : Type} (field : world -> X) (m : M A) : Prop :=
  forall w, field (snd (m w)) = field w.

Lemma preserves_ret {A X} (field : world -> X) (a : A) :
  preserves field (ret a).
Proof. intros w. reflexivity. Qed.

Lemma preserves_lift {A X} (field : world -> X) (o : outcome A) :
  preserves field (lift o).
Proof. intros w. reflexivity. Qed.

Lemma preserves_raise {A X} (field : world -> X) (e : exn) :
  preserves field (@raise A e).
Proof. intros w. reflexivity. Qed.

Lemma preserves_get {A X} (field : world -> X) (f : world -> A) :
  preserves field (get f).
Proof. intros w. reflexivity. Qed.

Lemma preserves_bind {A B X} (field : world -> X) (m : M A) (k : A -> M B) :
  preserves field m -> (forall a, preserves field (k a)) ->
  preserves field (bind m k).
Proof.
  intros Hm Hk w. unfold bind. specialize (Hm w).
  destruct (m w) as [[a| |] w']; simpl in *; try assumption.
  now rewrite Hk.
Qed.

Lemma preserves_try_except {A X} (field : world -> X) (body : M A) handler :
  preserves field body -> (forall e, preserves field (handler e)) ->
  preserves field (try_except body handler).
Proof.
  intros Hm Hk w. unfold try_except. specialize (Hm w).
  destruct (body w) as [[a| |] w']; simpl in *; try assumption.
  now rewrite Hk.
Qed.

Lemma preserves_modify {X} (field : world -> X) (f : world -> world) :
  (forall w, field (f w) = field w) -> preserves field (modify f).
Proof. intros H w. apply H. Qed.

(** The fields a log line, a widget, or a service call leave alone. *)
Definition untouched_by_logging {X} (field : world -> X) : Prop :=
  forall l w, field (with_logger l w) = field w.
Definition untouched_by_requests {X} (field : world -> X) : Prop :=
  forall rs w, field (with_requests rs w) = field w.
Definition untouched_by_page {X} (field : world -> X) : Prop :=
  forall p w, field (with_page p w) = field w.
Definition untouched_by_response_log {X} (field : world -> X) : Prop :=
  forall l w, field (with_response_logger l w) = field w.
Definition untouched_by_conversation {X} (field : world -> X) : Prop :=
  forall c w, field (with_conversation c w) = field w.

Lemma log_preserves {X} (field : world -> X) l m :
  untouched_by_logging field -> preserves field (log l m).
Proof. intros H. apply preserves_modify. intros w. apply H. Qed.

Lemma st_preserves {X} (field : world -> X) x :
  untouched_by_page field -> preserves field (st x).
Proof. intros H. apply preserves_modify. intros w. apply H. Qed.

Lemma response_log_preserves {X} (field : world -> X) l m :
  untouched_by_response_log field -> preserves field (response_log l m).
Proof. intros H. apply preserves_modify. intros w. apply H. Qed.

Lemma append_turn_preserves {X} (field : world -> X) t :
  untouched_by_conversation field -> preserves field (append_turn t).
Proof. intros H. apply preserves_modify. intros w. apply H. Qed.

Lemma embed_content_preserves {X} (field : world -> X) model content :
  untouched_by_requests field -> preserves field (embed_content model content).
Proof. intros H w. apply H. Qed.

Lemma generate_content_preserves {X} (field : world -> X) model prompt :
  untouched_by_requests field ->
  preserves field (generate_content model prompt).
Proof.
  intros H w. unfold generate_content.
  destruct (generation_service w (requests w) model prompt); apply H.
Qed.

Lemma _embed_preserves {X} (field : world -> X) content :
  untouched_by_requests field -> untouched_by_logging field ->
  preserves field (_embed content).
Proof.
  intros Hr Hl. unfold _embed.
  apply preserves_bind; [apply preserves_get|]. intros r.
  apply preserves_bind; [now apply embed_content_preserves|].
  intros [emb|e]; [apply preserves_ret|].
  apply preserves_bind; [now apply log_preserves|].
  intros _. apply preserves_ret.
Qed.

Lemma retrieve_preserves {X} (field : world -> X) query top_k :
  untouched_by_requests field -> untouched_by_logging field ->
  preserves field (retrieve query top_k).
Proof.
  intros Hr Hl. unfold retrieve.
  apply preserves_bind; [now apply log_preserves|]. intros _.
  apply preserves_bind; [now apply _embed_preserves|].
  intros [q|].
  - apply preserves_bind; [apply preserves_get|]. intros r.
    apply preserves_bind; [apply preserves_lift|]. intros scored.
    apply preserves_bind; [now apply log_preserves|]. intros _.
    apply preserves_ret.
  - apply preserves_bind; [now apply log_preserves|]. intros _.
    apply preserves_ret.
Qed.

Lemma answer_and_grade_preserves {X} (field : world -> X) q a prompt :
  untouched_by_requests field -> untouched_by_logging field ->
  untouched_by_page field -> untouched_by_response_log field ->
  untouched_by_conversation field ->
  preserves field (answer_and_grade q a prompt).
Proof.
  intros Hr Hl Hp Hrl Hc. unfold answer_and_grade.
  apply preserves_bind; [now apply generate_content_preserves|]. intros ans.
  apply preserves_bind; [now apply st_preserves|]. intros _.
  apply preserves_bind; [now apply st_preserves|]. intros _.
  apply preserves_bind; [now apply _embed_preserves|]. intros u.
  apply preserves_bind; [now apply _embed_preserves|]. intros m.
  apply preserves_bind.
  - destruct u as [u|], m as [m|];
      try (apply preserves_bind; [now apply st_preserves|]; intros _;
           apply preserves_ret).
    apply preserves_bind; [apply preserves_lift|]. intros s.
    apply preserves_bind; [now apply st_preserves|]. intros _.
    apply preserves_ret.
  - intros sim.
    apply preserves_bind; [now apply append_turn_preserves|]. intros _.
    now apply response_log_preserves.
Qed.

Lemma submit_answer_preserves {X} (field : world -> X) q a :
  untouched_by_requests field -> untouched_by_logging field ->
  untouched_by_page field -> untouched_by_response_log field ->
  untouched_by_conversation field ->
  preserves field (submit_answer q a).
Proof.
  intros Hr Hl Hp Hrl Hc. unfold submit_answer.
  destruct (truthy (strip a)); [|apply preserves_ret].
  apply preserves_bind; [now apply retrieve_preserves|].
  intros [|r results].
  - apply preserves_bind; [now apply st_preserves|]. intros _.
    now apply response_log_preserves.
  - apply preserves_try_except; [now apply answer_and_grade_preserves|].
    intros e. unfold report_error.
    apply preserves_bind; [now apply st_preserves|]. intros _.
    now apply response_log_preserves.
Qed.

End Frame.

(* ================================================================== *)
(** ** Ranking *)

Module RetrieverFacts.
Import Py PyFacts.
Import App.
Import FloatFacts OrderFacts.
Import ScorerFacts.

(** *** The scan *)

(** The chunks the scan scores: position, text and embedding of every
    item whose embedding is present, in scan order. *)
Fixpoint candidates (idx : nat) (items : list (str * option vector))
  : list (nat * str * vector) :=
  match items with
  | [] => []
  | (_, None) :: rest => candidates (S idx) rest
  | (c, Some e) :: rest => (idx, c, e) :: candidates (S idx) rest
  end.

(** [r] is the dictionary the scan builds for candidate [cand]. *)
Definition scores_as (q : vector) (fname : str)
    (cand : nat * str * vector) (r : scored_chunk) : Prop :=
  chunk_id r = fst (fst cand) /\ filename r = fname /\
  text r = snd (fst cand) /\ _cosine_sim q (snd cand) = Ok (score r).

Lemma score_loop_ok q fname : forall items idx acc out,
  score_loop q fname idx items acc = Ok out ->
  exists fresh, out = acc ++ fresh /\
    Forall2 (scores_as q fname) (candidates idx items) fresh.
Proof.
  induction items as [|[c [e|]] items IH]; intros idx acc out H; simpl in *.
  - injection H as <-. exists []. split; [now rewrite app_nil_r|constructor].
  - destruct (_cosine_sim q e) as [s| |] eqn:Es; try discriminate.
    destruct (IH _ _ _ H) as [fresh [-> Hall]].
    eexists (_ :: fresh). split; [now rewrite <- app_assoc|].
    constructor; [|exact Hall]. repeat split. exact Es.
  - now apply IH.
Qed.

Lemma score_loop_runs q fname : forall items idx acc,
  Forall (fun cand => exists s, _cosine_sim q (snd cand) = Ok s)
         (candidates idx items) ->
  exists out, score_loop q fname idx items acc = Ok out.
Proof.
  induction items as [|[c [e|]] items IH]; intros idx acc H; simpl in *.
  - eexists; reflexivity.
  - inversion H as [|? ? [s Hs] Hrest]; subst. simpl in Hs. rewrite Hs.
    now apply IH.
  - now apply IH.
Qed.

Lemma score_loop_all_absent q fname : forall items idx acc,
  Forall (fun item => snd item = None) items ->
  score_loop q fname idx items acc = Ok acc.
Proof.
  induction items as [|[c e] items IH]; intros idx acc H; [reflexivity|].
  inversion H as [|? ? He Hrest]; subst. simpl in He. subst e. simpl.
  now apply IH.
Qed.

Lemma candidates_none : forall items idx,
  candidates idx items = [] -> Forall (fun item => snd item = None) items.
Proof.
  induction items as [|[c [e|]] items IH]; intros idx H; simpl in *.
  - constructor.
  - discriminate.
  - constructor; [reflexivity | now apply IH with (idx := S idx)].
Qed.

Lemma candidates_In : forall items idx i c e,
  In (i, c, e) (candidates idx items) <->
  idx <= i /\ nth_error items (i - idx) = Some (c, Some e).
Proof.
  induction items as [|[c0 [e0|]] items IH]; intros idx i c e; simpl.
  - split; [tauto|]. intros [_ H]. destruct (i - idx); discriminate.
  - rewrite IH. split.
    + intros [H|[Hle Hnth]].
      * injection H as <- <- <-. rewrite Nat.sub_diag. split; [lia|reflexivity].
      * split; [lia|]. replace (i - idx) with (S (i - S idx)) by lia.
        exact Hnth.
    + intros [Hle Hnth]. destruct (i - idx) as [|n] eqn:E.
      * left. simpl in Hnth. injection Hnth as <- <-. f_equal. f_equal. lia.
      * right. split; [lia|]. simpl in Hnth.
        replace (i - S idx) with n by lia. exact Hnth.
  - rewrite IH. split.
    + intros [Hle Hnth]. split; [lia|].
      replace (i - idx) with (S (i - S idx)) by lia. exact Hnth.
    + intros [Hle Hnth]. destruct (i - idx) as [|n] eqn:E.
      * simpl in Hnth. discriminate.
      * split; [lia|]. simpl in Hnth.
        replace (i - S idx) with n by lia. exact Hnth.
Qed.

Lemma candidates_from : forall items idx,
  Forall (fun cand => idx <= fst (fst cand)) (candidates idx items).
Proof.
  intros items idx. apply Forall_forall. intros [[i c] e] H.
  apply candidates_In in H. simpl. tauto.
Qed.

(** Candidates come in strictly increasing position. *)
Lemma candidates_ascending : forall items idx,
  StronglySorted (fun a b => fst (fst a) < fst (fst b))
                 (candidates idx items).
Proof.
  induction items as [|[c [e|]] items IH]; intros idx; simpl.
  - constructor.
  - constructor; [apply IH|].
    eapply Forall_impl; [|apply (candidates_from items (S idx))].
    intros cand H. simpl in *. lia.
  - apply IH.
Qed.

Lemma nth_error_combine {A B : Type} (l1 : list A) : forall (l2 : list B) i a b,
  nth_error (combine l1 l2) i = Some (a, b) <->
  nth_error l1 i = Some a /\ nth_error l2 i = Some b.
Proof.
  induction l1 as [|x l1 IH]; intros [|y l2] [|i] a b; simpl;
    try (split; [discriminate | intros [? ?]; discriminate]).
  - split; [intros H; injection H as <- <-; tauto|].
    intros [H1 H2]. congruence.
  - apply IH.
Qed.

(** *** The sort *)

(** [a] is ranked before [b]: a strictly higher score, or an equal score
    and a lower position. *)
Definition ranks_before (a b : scored_chunk) : Prop :=
  (score b <? score a)%float = true \/
  ((score a =? score b)%float = true /\ chunk_id a < chunk_id b).

Definition scored_ok (r : scored_chunk) : Prop := not_nan (score r).

Lemma ranks_before_trans a b c :
  scored_ok a -> scored_ok b -> scored_ok c ->
  ranks_before a b -> ranks_before b c -> ranks_before a c.
Proof.
  unfold scored_ok, ranks_before. intros Ha Hb Hc [Hab|[Hab Iab]] [Hbc|[Hbc Ibc]].
  - left. by_rank.
  - left. by_rank.
  - left. by_rank.
  - right. split; [by_rank | lia].
Qed.

(** A score ranked before another is at least as high. *)
Lemma ranks_before_leb a b :
  ranks_before a b -> (score b <=? score a)%float = true.
Proof.
  intros [H|[H _]].
  - now apply ltb_leb.
  - now apply eqb_leb in H.
Qed.

Lemma insert_desc_perm x : forall l, Permutation (insert_desc x l) (x :: l).
Proof.
  induction l as [|y l IH]; simpl; [reflexivity|].
  destruct (score x <? score y)%float; [|reflexivity].
  rewrite IH. apply perm_swap.
Qed.

Lemma stable_desc_perm : forall l, Permutation (stable_desc l) l.
Proof.
  induction l as [|x l IH]; simpl; [reflexivity|].
  rewrite insert_desc_perm. now constructor.
Qed.

(** Whatever the scores, the sort only reorders. *)
Lemma sort_desc_perm : forall l, Permutation (sort_desc l) l.
Proof.
  intros l. unfold sort_desc. destruct (has_nan l).
  - apply ListSortFacts.sort_reverse_perm.
  - apply stable_desc_perm.
Qed.

(** With no NaN among the scores the sort is the stable one. *)
Lemma sort_desc_stable l : Forall scored_ok l -> sort_desc l = stable_desc l.
Proof.
  intros Hok. unfold sort_desc.
  assert (E : has_nan l = false); [|now rewrite E].
  unfold has_nan. induction Hok as [|r l Hr _ IH]; [reflexivity|].
  simpl. now rewrite Hr, IH.
Qed.

Lemma insert_desc_sorted x : forall l,
  scored_ok x -> Forall scored_ok l ->
  Forall (fun y => chunk_id x < chunk_id y) l ->
  StronglySorted ranks_before l ->
  StronglySorted ranks_before (insert_desc x l).
Proof.
  induction l as [|y l IH]; intros Hx Hl Hid Hs; simpl.
  - repeat constructor.
  - inversion Hl as [|? ? Hy Hl']; subst.
    inversion Hid as [|? ? Hxy Hid']; subst.
    inversion Hs as [|? ? Hs' Hyl]; subst.
    destruct (score x <? score y)%float eqn:E.
    + constructor; [now apply IH|].
      eapply Permutation_Forall;
        [apply Permutation_sym, insert_desc_perm|].
      constructor; [now left | assumption].
    + assert (Hxy' : ranks_before x y).
      { unfold ranks_before, scored_ok in *.
        destruct (score y <? score x)%float eqn:E'; [now left|].
        right. split; [by_rank | assumption]. }
      constructor; [assumption|].
      constructor; [assumption|].
      rewrite Forall_forall in *. intros z Hz.
      eapply ranks_before_trans with (b := y); auto.
Qed.

(** On scores without NaN, scanned in increasing position, the sort puts
    higher scores first and keeps equal scores in position order. *)
Lemma stable_desc_sorted : forall l,
  Forall scored_ok l ->
  StronglySorted (fun a b => chunk_id a < chunk_id b) l ->
  StronglySorted ranks_before (stable_desc l).
Proof.
  induction l as [|x l IH]; intros Hl Hs; simpl; [constructor|].
  inversion Hl as [|? ? Hx Hl']; subst.
  inversion Hs as [|? ? Hs' Hxl]; subst.
  apply insert_desc_sorted; auto.
  - eapply Permutation_Forall; [apply Permutation_sym, stable_desc_perm|].
    assumption.
  - eapply Permutation_Forall; [apply Permutation_sym, stable_desc_perm|].
    assumption.
Qed.

Lemma sort_desc_sorted : forall l,
  Forall scored_ok l ->
  StronglySorted (fun a b => chunk_id a < chunk_id b) l ->
  StronglySorted ranks_before (sort_desc l).
Proof.
  intros l Hl Hs. rewrite sort_desc_stable by exact Hl.
  now apply stable_desc_sorted.
Qed.

(** Any two orderings of the same scored chunks that both respect
    [ranks_before] are the same list: what a stable descending sort
    returns is fixed by that contract, whatever the algorithm. *)
Lemma ranks_before_asym a b :
  scored_ok a -> scored_ok b -> ranks_before a b -> ranks_before b a -> False.
Proof.
  unfold scored_ok, ranks_before.
  intros Ha Hb [Hab|[Hab Iab]] [Hba|[Hba Iba]]; try lia; by_rank.
Qed.

Lemma ranked_unique : forall l1 l2,
  Forall scored_ok l1 -> Permutation l1 l2 ->
  StronglySorted ranks_before l1 -> StronglySorted ranks_before l2 ->
  l1 = l2.
Proof.
  induction l1 as [|x l1 IH]; intros l2 Hok Hperm Hs1 Hs2.
  - now apply Permutation_nil in Hperm.
  - destruct l2 as [|y l2].
    + apply Permutation_sym, Permutation_nil in Hperm. discriminate.
    + inversion Hok as [|? ? Hx Hok1]; subst.
      inversion Hs1 as [|? ? Hs1' Hx1]; subst.
      inversion Hs2 as [|? ? Hs2' Hy2]; subst.
      assert (Hy : scored_ok y).
      { assert (Hin : In y (x :: l1))
          by (apply (Permutation_in _ (Permutation_sym Hperm)); now left).
        rewrite Forall_forall in Hok. now apply Hok. }
      assert (E : x = y).
      { assert (Hxin : In x (y :: l2))
          by (apply (Permutation_in _ Hperm); now left).
        assert (Hyin : In y (x :: l1))
          by (apply (Permutation_in _ (Permutation_sym Hperm)); now left).
        destruct Hxin as [->|Hxin]; [reflexivity|].
        destruct Hyin as [->|Hyin]; [reflexivity|].
        rewrite Forall_forall in Hx1, Hy2.
        exfalso. apply (ranks_before_asym x y Hx Hy); auto. }
      subst y. f_equal. apply IH; auto.
      now apply Permutation_cons_inv in Hperm.
Qed.

(** On scores without NaN the result of the sort is the one list that is
    a reordering of the input and respects [ranks_before]. *)
Lemma sort_desc_unique l l' :
  Forall scored_ok l ->
  StronglySorted (fun a b => chunk_id a < chunk_id b) l ->
  Permutation l' l -> StronglySorted ranks_before l' ->
  l' = sort_desc l.
Proof.
  intros Hok Hasc Hperm Hsorted. symmetry.
  apply ranked_unique.
  - eapply Permutation_Forall; [apply Permutation_sym, sort_desc_perm|].
    assumption.
  - rewrite sort_desc_perm. now apply Permutation_sym.
  - now apply sort_desc_sorted.
  - assumption.
Qed.

(** With a NaN among the scores the order is the one the algorithm
    leaves: the scores [0, nan, 0, 1] at positions 0 to 3 come out as
    positions 1, 3, 0, 2. Without one, the algorithm and the insertion
    agree. *)
Example sort_desc_with_nan :
  List.map chunk_id
    (sort_desc
       (List.map (fun p => {| chunk_id := fst p; filename := [];
                              text := []; score := snd p |})
          [(0, 0%float); (1, nan); (2, 0%float); (3, 1%float)]))
  = [1; 3; 0; 2].
Proof. vm_compute. reflexivity. Qed.

Example sort_desc_without_nan :
  ListSort.sort_reverse scored_chunk score_lt
    (List.map (fun p => {| chunk_id := fst p; filename := [];
                           text := []; score := snd p |})
       [(0, 0%float); (1, 1%float); (2, 0%float); (3, (-1)%float);
          (4, 1%float); (5, 0.5%float); (6, 2%float)])
  = stable_desc
      (List.map (fun p => {| chunk_id := fst p; filename := [];
                             text := []; score := snd p |})
         [(0, 0%float); (1, 1%float); (2, 0%float); (3, (-1)%float);
          (4, 1%float); (5, 0.5%float); (6, 2%float)]).
Proof. vm_compute. reflexivity. Qed.

(** *** The cut *)

Lemma slice_to_firstn {A : Type} (l : list A) (k : Z) : (0 <= k)%Z ->
  slice_to l k = firstn (Z.to_nat k) l.
Proof.
  intros Hk. unfold slice_to, clamp_index.
  destruct (Z.ltb_spec k 0); [lia|].
  destruct (Z.le_gt_cases k (Z.of_nat (length l))).
  - now rewrite Z.min_l by lia.
  - rewrite Z.min_r by lia. rewrite !firstn_all2 by lia. reflexivity.
Qed.

Lemma In_firstn {A : Type} (l : list A) : forall n x,
  In x (firstn n l) -> In x l.
Proof.
  intros n x H. rewrite <- (firstn_skipn n l). apply in_or_app. now left.
Qed.

Lemma StronglySorted_firstn {A : Type} (R : A -> A -> Prop) (l : list A) :
  forall n, StronglySorted R l -> StronglySorted R (firstn n l).
Proof.
  induction l as [|x l IH]; intros [|n] H; simpl; try constructor.
  - inversion H; subst. now apply IH.
  - inversion H; subst. now apply Forall_firstn.
Qed.

(** In a sorted list whatever is kept by a cut is related to whatever is
    dropped. *)
Lemma sorted_cut {A : Type} (R : A -> A -> Prop) (l : list A) :
  forall n x y, StronglySorted R l ->
  In x (firstn n l) -> In y (skipn n l) -> R x y.
Proof.
  induction l as [|z l IH]; intros [|n] x y H Hx Hy; simpl in *;
    try contradiction.
  inversion H as [|? ? Hs Hz]; subst. destruct Hx as [<-|Hx].
  - rewrite Forall_forall in Hz. apply Hz.
    rewrite <- (firstn_skipn n l). apply in_or_app. now right.
  - now apply IH with (n := n).
Qed.

Lemma Forall2_In_r {A B : Type} (R : A -> B -> Prop) l1 l2 b :
  Forall2 R l1 l2 -> In b l2 -> exists a, In a l1 /\ R a b.
Proof.
  induction 1 as [|a0 b0 l1 l2 Hab _ IH]; intros Hb; [contradiction|].
  destruct Hb as [<-|Hb].
  - exists a0. split; [now left | assumption].
  - destruct (IH Hb) as [a [Ha Hr]]. exists a. split; [now right | assumption].
Qed.

Lemma Forall2_In_l {A B : Type} (R : A -> B -> Prop) l1 l2 a :
  Forall2 R l1 l2 -> In a l1 -> exists b, In b l2 /\ R a b.
Proof.
  induction 1 as [|a0 b0 l1 l2 Hab _ IH]; intros Ha; [contradiction|].
  destruct Ha as [<-|Ha].
  - exists b0. split; [now left | assumption].
  - destruct (IH Ha) as [b [Hb Hr]]. exists b. split; [now right | assumption].
Qed.

(** Scored dictionaries inherit the increasing positions of their
    candidates. *)
Lemma scored_ascending q fname : forall cands scored,
  Forall2 (scores_as q fname) cands scored ->
  StronglySorted (fun a b => fst (fst a) < fst (fst b)) cands ->
  StronglySorted (fun a b => chunk_id a < chunk_id b) scored.
Proof.
  induction 1 as [|c r cands scored Hcr Hall IH]; intros Hs; [constructor|].
  inversion Hs as [|? ? Hs' Hc]; subst. constructor; [now apply IH|].
  apply Forall_forall. intros r' Hr'.
  destruct (Forall2_In_r _ _ _ _ Hall Hr') as [c' [Hc' Hcr']].
  rewrite Forall_forall in Hc. specialize (Hc c' Hc').
  destruct Hcr as [-> _], Hcr' as [-> _]. exact Hc.
Qed.

(** *** [retrieve] *)

(** What the embedding service answers for the query in world [w]. *)
Definition query_reply (w : world) (query : str) : reply vector :=
  embedding_service w (requests w) (embed_model (retriever w)) query.

(** The pairs the scan walks through. *)
Definition stored_items (w : world) : list (str * option vector) :=
  combine (chunks (retriever w)) (embeddings (retriever w)).

Lemma retrieve_query_failed w query top_k e :
  query_reply w query = Failed e -> fst (retrieve query top_k w) = Ok [].
Proof.
  unfold query_reply. intros H.
  cbv [retrieve bind log modify _embed get embed_content ret]. simpl.
  rewrite H. reflexivity.
Qed.

Lemma retrieve_scans w query top_k q :
  query_reply w query = Replied q ->
  fst (retrieve query top_k w)
  = match score_loop q (basename (filepath (retriever w))) 0
            (stored_items w) [] with
    | Ok scored => Ok (slice_to (sort_desc scored) top_k)
    | Raise e => Raise e
    | Diverge => Diverge
    end.
Proof.
  unfold query_reply, stored_items. intros H.
  cbv [retrieve bind log modify _embed get embed_content ret lift]. simpl.
  rewrite H. simpl.
  destruct (score_loop q _ 0 _ []); reflexivity.
Qed.

Lemma stored_items_absent w :
  Forall (fun e => e = None) (embeddings (retriever w)) ->
  Forall (fun item => snd item = None) (stored_items w).
Proof.
  unfold stored_items. intros H. apply Forall_forall. intros [c e] Hin.
  apply in_combine_r in Hin. rewrite Forall_forall in H. now apply H.
Qed.

Lemma sort_desc_nil l : sort_desc l = [] -> l = [].
Proof.
  intros H. pose proof (sort_desc_perm l) as P. rewrite H in P.
  now apply Permutation_nil in P.
Qed.

(** The scan always ends. It raises exactly when some candidate is
    misaligned with the query, and then the shape error of the first such
    candidate. *)
Lemma score_loop_outcome q fname : forall items idx acc,
  match score_loop q fname idx items acc with
  | Ok _ =>
      forall i c v, In (i, c, v) (candidates idx items) -> ~ misaligned q v
  | Raise e =>
      exists i c v,
        In (i, c, v) (candidates idx items) /\ misaligned q v /\
        e = shapes_not_aligned (length q) (length v) /\
        forall j c' v', In (j, c', v') (candidates idx items) -> j < i ->
                        ~ misaligned q v'
  | Diverge => False
  end.
Proof.
  induction items as [|[c [v|]] items IH]; intros idx acc; simpl.
  - intros i c v [].
  - destruct (cosine_sim_outcome q v) as [[Hmis Es]|[Hok [s Es]]]; rewrite Es.
    + exists idx, c, v. split; [now left|]. split; [exact Hmis|].
      split; [reflexivity|]. intros j c' v' [E|Hin] Hj.
      * injection E as <- _ _. lia.
      * apply candidates_In in Hin. lia.
    + match goal with
      | |- match score_loop _ _ _ _ ?acc' with _ => _ end =>
          specialize (IH (S idx) acc')
      end.
      destruct (score_loop q fname (S idx) items _) as [scored|e|].
      * intros i c' v' [E|Hin]; [|now apply (IH i c' v')].
        injection E as _ _ <-. exact Hok.
      * destruct IH as (i & c' & v' & Hin & Hmis & He & Hfirst).
        exists i, c', v'. split; [now right|]. split; [exact Hmis|].
        split; [exact He|]. intros j c2 v2 [E|Hin2] Hj.
        -- injection E as _ _ <-. exact Hok.
        -- now apply (Hfirst j c2 v2).
      * exact IH.
  - apply IH.
Qed.

(** The candidates are the positions below the chunk count whose
    embedding is present. *)
Lemma candidates_stored w i v :
  (exists c, In (i, c, v) (candidates 0 (stored_items w))) <->
  i < length (chunks (retriever w)) /\
  nth_error (embeddings (retriever w)) i = Some (Some v).
Proof.
  unfold stored_items. split.
  - intros [c Hin]. apply candidates_In in Hin. destruct Hin as [_ Hnth].
    rewrite Nat.sub_0_r in Hnth. apply nth_error_combine in Hnth.
    destruct Hnth as [Hc He]. split; [|exact He].
    apply nth_error_Some. congruence.
  - intros [Hi He].
    destruct (nth_error (chunks (retriever w)) i) as [c|] eqn:Hc;
      [|apply nth_error_None in Hc; lia].
    exists c. apply candidates_In. split; [lia|]. rewrite Nat.sub_0_r.
    apply nth_error_combine. now split.
Qed.

(** Whatever [retrieve] returns comes from a stored pair whose embedding
    is present, at the position the dictionary names. *)
Lemma retrieve_returns_present w query top_k results :
  fst (retrieve query top_k w) = Ok results ->
  forall r, In r results ->
    nth_error (chunks (retriever w)) (chunk_id r) = Some (text r) /\
    exists e, nth_error (embeddings (retriever w)) (chunk_id r)
              = Some (Some e).
Proof.
  intros Hrun r Hr.
  destruct (query_reply w query) as [q|e] eqn:Hq.
  - rewrite (retrieve_scans w query top_k q Hq) in Hrun.
    destruct (score_loop q _ 0 (stored_items w) []) as [scored| |] eqn:Hscan;
      try discriminate.
    injection Hrun as <-. unfold slice_to in Hr. apply In_firstn in Hr.
    apply (Permutation_in _ (sort_desc_perm scored)) in Hr.
    destruct (score_loop_ok _ _ _ _ _ _ Hscan) as [fresh [E Hall]].
    simpl in E. subst fresh.
    destruct (Forall2_In_r _ _ _ _ Hall Hr) as [[[i c] v] [Hin Has]].
    apply candidates_In in Hin. destruct Hin as [_ Hnth].
    rewrite Nat.sub_0_r in Hnth. unfold stored_items in Hnth.
    apply nth_error_combine in Hnth. destruct Hnth as [Hc He].
    destruct Has as (Hi & _ & Ht & _). simpl in Hi, Ht.
    rewrite Hi, Ht. split; [exact Hc | now exists v].
  - rewrite (retrieve_query_failed w query top_k e Hq) in Hrun.
    injection Hrun as <-. contradiction.
Qed.

(** C1, as the code has it. When the query embeds to [q], [top_k] is not
    negative, and every stored embedding gives a cosine score against [q]
    that is a number (no shape error, no NaN), [retrieve] returns at most
    [top_k] dictionaries, exactly as many as [top_k] and the number of
    present embeddings allow; each comes from a chunk whose embedding is
    present and carries that chunk's text and cosine score; they are
    ordered by descending score, equal scores by ascending position; and
    every chunk with a present embedding is either returned or scores no
    higher than every returned one. *)
Theorem retrieve_ranked w query top_k q :
  query_reply w query = Replied q ->
  (0 <= top_k)%Z ->
  (forall i c e,
     nth_error (chunks (retriever w)) i = Some c ->
     nth_error (embeddings (retriever w)) i = Some (Some e) ->
     exists s, _cosine_sim q e = Ok s /\ not_nan s) ->
  exists results,
    fst (retrieve query top_k w) = Ok results /\
    (Z.of_nat (length results) <= top_k)%Z /\
    length results
    = Nat.min (Z.to_nat top_k) (length (candidates 0 (stored_items w))) /\
    (forall r, In r results ->
       nth_error (chunks (retriever w)) (chunk_id r) = Some (text r) /\
       exists e,
         nth_error (embeddings (retriever w)) (chunk_id r) = Some (Some e) /\
         _cosine_sim q e = Ok (score r)) /\
    StronglySorted ranks_before results /\
    (forall i c e s,
       nth_error (chunks (retriever w)) i = Some c ->
       nth_error (embeddings (retriever w)) i = Some (Some e) ->
       _cosine_sim q e = Ok s ->
       (exists r, In r results /\ chunk_id r = i) \/
       (forall r, In r results -> (s <=? score r)%float = true)).
Proof.
  intros Hq Hk Hscores.
  set (fname := basename (filepath (retriever w))).
  (* every candidate is a stored pair with a present embedding *)
  assert (Hcand : forall i c e, In (i, c, e) (candidates 0 (stored_items w)) <->
            nth_error (chunks (retriever w)) i = Some c /\
            nth_error (embeddings (retriever w)) i = Some (Some e)).
  { intros i c e. rewrite candidates_In, Nat.sub_0_r.
    unfold stored_items. rewrite nth_error_combine.
    split; [tauto | intros H; split; [lia | exact H]]. }
  (* the scan runs to its end *)
  destruct (score_loop_runs q fname (stored_items w) 0 []) as [scored Hrun].
  { apply Forall_forall. intros [[i c] e] Hin. apply Hcand in Hin.
    destruct Hin as [Hc He]. destruct (Hscores i c e Hc He) as [s [Hs _]].
    now exists s. }
  destruct (score_loop_ok _ _ _ _ _ _ Hrun) as [fresh [E Hall]].
  simpl in E. subst fresh.
  assert (Hok : Forall scored_ok scored).
  { apply Forall_forall. intros r Hr.
    destruct (Forall2_In_r _ _ _ _ Hall Hr) as [[[i c] e] [Hin Has]].
    apply Hcand in Hin. destruct Hin as [Hc He].
    destruct (Hscores i c e Hc He) as [s [Hs Hnan]].
    destruct Has as (_ & _ & _ & Hs'). simpl in Hs'.
    unfold scored_ok. congruence. }
  assert (Hsorted : StronglySorted ranks_before (sort_desc scored)).
  { apply sort_desc_sorted; [assumption|].
    eapply scored_ascending; [exact Hall | apply candidates_ascending]. }
  exists (slice_to (sort_desc scored) top_k).
  rewrite (retrieve_scans w query top_k q Hq). fold fname. rewrite Hrun.
  split; [reflexivity|]. split; [now apply slice_to_length|].
  rewrite slice_to_firstn by assumption.
  split; [|split; [|split]].
  - rewrite length_firstn, (Permutation_length (sort_desc_perm scored)).
    now rewrite (Forall2_length Hall).
  - intros r Hr. apply In_firstn in Hr.
    apply (Permutation_in _ (sort_desc_perm scored)) in Hr.
    destruct (Forall2_In_r _ _ _ _ Hall Hr) as [[[i c] e] [Hin Has]].
    apply Hcand in Hin. destruct Hin as [Hc He].
    destruct Has as (Hi & _ & Ht & Hs). simpl in Hi, Ht, Hs.
    rewrite Hi, Ht. split; [exact Hc|]. now exists e.
  - now apply StronglySorted_firstn.
  - intros i c e s Hc He Hs.
    assert (Hin : In (i, c, e) (candidates 0 (stored_items w)))
      by (apply Hcand; tauto).
    destruct (Forall2_In_l _ _ _ _ Hall Hin) as [r [Hr Has]].
    destruct Has as (Hi & _ & _ & Hs'). simpl in Hi, Hs'.
    assert (Es : score r = s) by congruence.
    apply (Permutation_in _ (Permutation_sym (sort_desc_perm scored))) in Hr.
    rewrite <- (firstn_skipn (Z.to_nat top_k) (sort_desc scored)) in Hr.
    apply in_app_or in Hr. destruct Hr as [Hr|Hr].
    + left. now exists r.
    + right. intros r' Hr'. rewrite <- Es. apply ranks_before_leb.
      eapply sorted_cut; eassumption.
Qed.

Lemma retrieve_ranked_witness :
  exists results,
    fst (retrieve Scenario.sample_question 1 Scenario.plain_world)
    = Ok results /\
    length results = 1 /\
    StronglySorted ranks_before results /\
    (forall r, In r results -> chunk_id r = 1).
Proof.
  destruct (retrieve_ranked Scenario.plain_world Scenario.sample_question 1
              [0; 1]%float) as [results (Hrun & _ & Hlen & _ & Hsorted & _)].
  - vm_compute. reflexivity.
  - lia.
  - intros i c e _ He.
    destruct i as [|[|i]]; vm_compute in He.
    + injection He as <-. eexists. split; vm_compute; reflexivity.
    + injection He as <-. eexists. split; vm_compute; reflexivity.
    + destruct i; discriminate He.
  - exists results. split; [exact Hrun|]. split; [exact Hlen|].
    split; [exact Hsorted|].
    intros r Hr. vm_compute in Hrun. injection Hrun as <-.
    destruct Hr as [<-|[]]. reflexivity.
Defined.

(** C1 fails as stated. The retriever is built from a 251-word file; the
    service embeds the first chunk and the query as [2^700] and the second
    chunk as [1.0]. The first chunk's score is NaN (infinity over
    infinity), the second's is 0. With [top_k = 1] the NaN-scored chunk is
    the one returned, and the score 0 of the chunk left out is not at most
    the score returned. *)
Lemma retrieve_misranks_nan :
  length (chunks (retriever Scenario.overflow_world)) = 2 /\
  embeddings (retriever Scenario.overflow_world)
  = [Some [0x1p700]; Some [1]]%float /\
  query_reply Scenario.overflow_world Scenario.sample_question
  = Replied [0x1p700]%float /\
  _cosine_sim [0x1p700]%float [1]%float = Ok 0%float /\
  exists r,
    fst (retrieve Scenario.sample_question 1 Scenario.overflow_world)
    = Ok [r] /\
    chunk_id r = 0 /\ is_nan (score r) = true /\
    (0 <=? score r)%float = false.
Proof.
  repeat split; try (vm_compute; reflexivity).
  eexists. split; [vm_compute; reflexivity|].
  repeat split.
Qed.

(** C6, as the code has it. [retrieve] returns the empty list, and does
    not raise, when the query's embedding fails, whatever is stored, and
    when every stored embedding is absent, whatever the query. With
    [top_k > 0] these are the only ways it returns the empty list.
    [retrieve] does raise: exactly when the query is embedded and some
    chunk holds an embedding misaligned with the query's, that is of
    another length and with a product of norms that does not compare equal
    to zero. The exception is then numpy's shape error, naming the length
    of the query's embedding and that of the first such stored embedding.
    In every case [retrieve] ends. *)
Theorem retrieve_empty_on_failure :
  (forall w query top_k e,
     query_reply w query = Failed e ->
     fst (retrieve query top_k w) = Ok []) /\
  (forall w query top_k,
     Forall (fun e => e = None) (embeddings (retriever w)) ->
     fst (retrieve query top_k w) = Ok []) /\
  (forall w query top_k,
     (0 < top_k)%Z ->
     fst (retrieve query top_k w) = Ok [] ->
     (exists e, query_reply w query = Failed e) \/
     Forall (fun item => snd item = None) (stored_items w)) /\
  (forall w query top_k e,
     fst (retrieve query top_k w) = Raise e <->
     exists q i v,
       query_reply w query = Replied q /\
       i < length (chunks (retriever w)) /\
       nth_error (embeddings (retriever w)) i = Some (Some v) /\
       misaligned q v /\
       (forall j v', j < i ->
          nth_error (embeddings (retriever w)) j = Some (Some v') ->
          ~ misaligned q v') /\
       e = shapes_not_aligned (length q) (length v)) /\
  (forall w query top_k, fst (retrieve query top_k w) <> Diverge).
Proof.
  split; [exact retrieve_query_failed|]. split; [|split; [|split]].
  - intros w query top_k Habsent.
    destruct (query_reply w query) as [q|e] eqn:Hq.
    + rewrite (retrieve_scans w query top_k q Hq).
      rewrite score_loop_all_absent by now apply stored_items_absent.
      unfold slice_to. simpl. now rewrite firstn_nil.
    + now apply retrieve_query_failed with (e := e).
  - intros w query top_k Hk Hempty.
    destruct (query_reply w query) as [q|e] eqn:Hq; [|left; now exists e].
    right. rewrite (retrieve_scans w query top_k q Hq) in Hempty.
    destruct (score_loop q _ 0 (stored_items w) []) as [scored| |] eqn:Hrun;
      try discriminate.
    injection Hempty as Hcut.
    rewrite slice_to_firstn in Hcut by lia.
    destruct (sort_desc scored) as [|r rest] eqn:Hsort.
    + apply sort_desc_nil in Hsort. subst scored.
      destruct (score_loop_ok _ _ _ _ _ _ Hrun) as [fresh [E Hall]].
      simpl in E. subst fresh. inversion Hall as [Hc|]; subst.
      now apply candidates_none with (idx := 0).
    + destruct (Z.to_nat top_k) as [|n] eqn:En; [lia|]. discriminate Hcut.
  - intros w query top_k e.
    destruct (query_reply w query) as [q|e0] eqn:Hq.
    + rewrite (retrieve_scans w query top_k q Hq).
      pose proof (score_loop_outcome q (basename (filepath (retriever w)))
                    (stored_items w) 0 []) as Hout.
      destruct (score_loop q _ 0 (stored_items w) []) as [scored|e1|].
      * split; [discriminate|].
        intros (q' & i & v & Eq & Hi & He & Hmis & _). injection Eq as <-.
        destruct (proj2 (candidates_stored w i v) (conj Hi He)) as [c Hin].
        now destruct (Hout i c v Hin).
      * destruct Hout as (i & c & v & Hin & Hmis & -> & Hfirst).
        assert (Hs : i < length (chunks (retriever w)) /\
                     nth_error (embeddings (retriever w)) i = Some (Some v))
          by (apply candidates_stored; now exists c).
        destruct Hs as [Hi He]. split.
        -- intros E. injection E as <-. exists q, i, v.
           repeat split; try assumption; try apply Hmis.
           intros j v' Hj Hej.
           destruct (proj2 (candidates_stored w j v') (conj (Nat.lt_trans _ _ _ Hj Hi) Hej))
             as [c' Hin'].
           now apply (Hfirst j c' v').
        -- intros (q' & i' & v' & Eq & Hi' & He' & Hmis' & Hfirst' & ->).
           injection Eq as <-.
           destruct (proj2 (candidates_stored w i' v') (conj Hi' He'))
             as [c' Hin'].
           destruct (Nat.lt_trichotomy i i') as [Hlt|[Heq|Hgt]].
           ++ now destruct (Hfirst' i v Hlt He).
           ++ subst i'. rewrite He in He'. now injection He' as <-.
           ++ now destruct (Hfirst i' c' v' Hin' Hgt).
      * contradiction.
    + rewrite (retrieve_query_failed w query top_k e0 Hq).
      split; [discriminate|]. intros (q & _ & _ & Eq & _). discriminate Eq.
  - intros w query top_k.
    destruct (query_reply w query) as [q|e0] eqn:Hq.
    + rewrite (retrieve_scans w query top_k q Hq).
      pose proof (score_loop_outcome q (basename (filepath (retriever w)))
                    (stored_items w) 0 []) as Hout.
      destruct (score_loop q _ 0 (stored_items w) []); [discriminate..|].
      contradiction.
    + now rewrite (retrieve_query_failed w query top_k e0 Hq).
Qed.

Lemma retrieve_empty_on_failure_witness :
  fst (retrieve Scenario.sample_question 3 Scenario.query_fails_world) = Ok []
  /\ fst (retrieve Scenario.sample_question 3 Scenario.offline_world) = Ok [].
Proof.
  destruct retrieve_empty_on_failure as (Hquery & Hstored & _). split.
  - apply Hquery with (e := Scenario.quota_error). vm_compute. reflexivity.
  - apply Hstored. vm_compute. repeat constructor.
Defined.

(** C6 fails as stated: [retrieve] can raise. The retriever holds two
    embeddings of two components, the service embeds the query with one
    component, and [np.dot] raises its shape error on the first stored
    embedding; nothing in [retrieve] catches it. *)
Lemma retrieve_raises_on_shape_mismatch :
  embeddings
    (retriever
       (Scenario.loaded [Replied [1; 0]; Replied [0; 1]; Replied [1]]%float []))
  = [Some [1; 0]; Some [0; 1]]%float /\
  query_reply
    (Scenario.loaded [Replied [1; 0]; Replied [0; 1]; Replied [1]]%float [])
    Scenario.sample_question
  = Replied [1]%float /\
  fst (retrieve Scenario.sample_question 3
         (Scenario.loaded [Replied [1; 0]; Replied [0; 1]; Replied [1]]%float []))
  = Raise (ValueError
             (lit "shapes (1,) and (2,) not aligned: 1 (dim 0) != 2 (dim 0)")).
Proof. repeat split; vm_compute; reflexivity. Qed.

(** C10. [retrieve] leaves the retriever object as it found it: chunk
    list, embedding list, file path and model identifier. Beyond the
    object it leaves the files, the page, the response log and the
    conversation alone as well; only the service call and the log lines
    are recorded. *)
Theorem retrieve_read_only w query top_k :
  chunks (retriever (snd (retrieve query top_k w))) = chunks (retriever w) /\
  embeddings (retriever (snd (retrieve query top_k w)))
  = embeddings (retriever w) /\
  filepath (retriever (snd (retrieve query top_k w)))
  = filepath (retriever w) /\
  embed_model (retriever (snd (retrieve query top_k w)))
  = embed_model (retriever w) /\
  files (snd (retrieve query top_k w)) = files w /\
  page (snd (retrieve query top_k w)) = page w /\
  response_logger (snd (retrieve query top_k w)) = response_logger w /\
  conversation (snd (retrieve query top_k w)) = conversation w.
Proof.
  assert (Hr : retriever (snd (retrieve query top_k w)) = retriever w)
    by (apply Frame.retrieve_preserves; intros ? ?; reflexivity).
  rewrite Hr. repeat split;
    apply Frame.retrieve_preserves; intros ? ?; reflexivity.
Qed.

End RetrieverFacts.

(* ================================================================== *)
(** ** Construction of the retriever *)

Module ConstructionFacts.
Import Py PyFacts.
Import App.
Import Chunker.

(** An embedding call's reply as [_embed] hands it on. *)
Definition reply_option {A : Type} (r : reply A) : option A :=
  match r with
  | Replied a => Some a
  | Failed _ => None
  end.

(** The replies the loading loop meets: one call per chunk, each call
    seeing the calls before it. *)
Fixpoint embed_replies (service : list request -> str -> str -> reply vector)
    (model : str) (history : list request) (todo : list str)
  : list (option vector) :=
  match todo with
  | [] => []
  | c :: rest =>
      reply_option (service history model c)
      :: embed_replies service model (history ++ [EmbedRequest model c]) rest
  end.

Lemma embed_replies_length service model : forall todo history,
  length (embed_replies service model history todo) = length todo.
Proof.
  induction todo as [|c todo IH]; intros history; simpl; [reflexivity|].
  now rewrite IH.
Qed.

Lemma embed_replies_nth service model : forall todo history i c,
  nth_error todo i = Some c ->
  nth_error (embed_replies service model history todo) i
  = Some (reply_option
            (service (history ++ List.map (EmbedRequest model) (firstn i todo))
                     model c)).
Proof.
  induction todo as [|c0 todo IH]; intros history [|i] c H; simpl in *;
    try discriminate.
  - injection H as <-. now rewrite app_nil_r.
  - rewrite (IH _ _ _ H). now rewrite <- app_assoc.
Qed.

Lemma _embed_run content w :
  _embed content w
  = (Ok (reply_option (embedding_service w (requests w)
                         (embed_model (retriever w)) content)),
     snd (_embed content w)).
Proof.
  cbv [_embed bind get embed_content ret log modify]. simpl.
  destruct (embedding_service w (requests w) (embed_model (retriever w))
              content); reflexivity.
Qed.

Lemma _embed_requests content w :
  requests (snd (_embed content w))
  = requests w ++ [EmbedRequest (embed_model (retriever w)) content].
Proof.
  cbv [_embed bind get embed_content ret log modify]. simpl.
  destruct (embedding_service w (requests w) (embed_model (retriever w))
              content); reflexivity.
Qed.

(** The loop appends one entry per chunk, present or absent, and touches
    nothing else of the object. *)
Lemma embed_loop_run : forall todo w,
  exists w', embed_loop todo w = (Ok tt, w') /\
    embeddings (retriever w')
    = embeddings (retriever w)
      ++ embed_replies (embedding_service w) (embed_model (retriever w))
           (requests w) todo /\
    chunks (retriever w') = chunks (retriever w) /\
    filepath (retriever w') = filepath (retriever w) /\
    embed_model (retriever w') = embed_model (retriever w).
Proof.
  induction todo as [|c todo IH]; intros w.
  - exists w. simpl. now rewrite app_nil_r.
  - cbn [embed_loop]. unfold bind at 1. rewrite _embed_run.
    set (w1 := snd (_embed c w)).
    assert (Hr1 : retriever w1 = retriever w)
      by (apply Frame._embed_preserves; intros ? ?; reflexivity).
    assert (Hs1 : embedding_service w1 = embedding_service w)
      by (apply (Frame._embed_preserves embedding_service);
          intros ? ?; reflexivity).
    pose proof (_embed_requests c w) as Hq1. fold w1 in Hq1.
    cbv [append_embedding set_embeddings bind get modify]. cbn beta iota.
    match goal with
    | |- exists w', embed_loop todo ?w2 = _ /\ _ =>
        destruct (IH w2) as [w' (Hrun & He & Hc & Hf & Hm)]
    end.
    exists w'. split; [exact Hrun|]. simpl in He, Hc, Hf, Hm.
    rewrite He, Hc, Hf, Hm, Hr1, Hs1, Hq1. simpl.
    rewrite <- app_assoc. repeat split.
Qed.

(** The reply to the call that embeds chunk [i] during construction. *)
Definition chunk_reply (w : world) (cs : list str) (i : nat) (c : str)
  : reply vector :=
  embedding_service w
    (requests w ++ List.map (EmbedRequest text_embedding_model) (firstn i cs))
    text_embedding_model c.

Lemma default_chunking_returns content :
  exists cs, chunk_text content default_chunk_size default_overlap = Some cs.
Proof.
  unfold chunk_text, chunk_text_fuel.
  apply ChunkerFacts.chunk_loop_enough;
    unfold default_chunk_size, default_overlap; lia.
Qed.

(** C7. When the source file can be read, construction succeeds and leaves
    the chunk list of the file next to an embedding list of the same
    length; entry [i] is what the embedding call for chunk [i] replied,
    absent exactly when that call failed, so a failure neither shifts nor
    drops a chunk. [retrieve], [_embed] and the Submit handler leave the
    retriever object unchanged, so the two lists stay as construction left
    them; and [retrieve] only ever returns chunks whose embedding entry is
    present, so an absent entry is skipped in ranking and nothing more. *)
Theorem construction_aligns_embeddings w path content :
  files w path = Some content ->
  exists cs w',
    chunk_text content default_chunk_size default_overlap = Some cs /\
    __init__ path w = (Ok tt, w') /\
    chunks (retriever w') = cs /\
    length (embeddings (retriever w')) = length (chunks (retriever w')) /\
    (forall i c, nth_error cs i = Some c ->
       nth_error (embeddings (retriever w')) i
       = Some (reply_option (chunk_reply w cs i c))) /\
    (forall i c, nth_error cs i = Some c ->
       nth_error (embeddings (retriever w')) i = Some None <->
       exists e, chunk_reply w cs i c = Failed e) /\
    (forall query top_k w1,
       retriever (snd (retrieve query top_k w1)) = retriever w1) /\
    (forall content' w1,
       retriever (snd (_embed content' w1)) = retriever w1) /\
    (forall question answer w1,
       retriever (snd (submit_answer question answer w1)) = retriever w1) /\
    (forall query top_k w1 results,
       fst (retrieve query top_k w1) = Ok results ->
       forall r, In r results ->
         nth_error (chunks (retriever w1)) (chunk_id r) = Some (text r) /\
         exists e, nth_error (embeddings (retriever w1)) (chunk_id r)
                   = Some (Some e)).
Proof.
  intros Hfile. destruct (default_chunking_returns content) as [cs Hcs].
  exists cs.
  cbv [__init__ _load_and_embed_chunks bind modify log get].
  cbn [files with_logger with_retriever retriever filepath fst snd].
  rewrite Hfile. unfold run_chunk_text. rewrite Hcs.
  cbv [ret set_chunks set_embeddings bind modify log].
  cbn [files with_logger with_retriever retriever filepath fst snd
       chunks embeddings embed_model].
  match goal with
  | |- exists w', _ /\ embed_loop cs ?w2 = _ /\ _ =>
      destruct (embed_loop_run cs w2) as [w' (Hrun & He & Hc & _)]
  end.
  cbn [files with_logger with_retriever retriever filepath fst snd
       chunks embeddings embed_model requests embedding_service app]
    in He, Hc.
  assert (Hnth : forall i c, nth_error cs i = Some c ->
            nth_error (embeddings (retriever w')) i
            = Some (reply_option (chunk_reply w cs i c))).
  { intros i c Hi. rewrite He. now apply embed_replies_nth. }
  exists w'. split; [reflexivity|]. split; [exact Hrun|].
  split; [exact Hc|]. split; [|split; [exact Hnth|split]].
  - rewrite He, Hc. apply embed_replies_length.
  - intros i c Hi. rewrite (Hnth i c Hi). split.
    + intros H. injection H as H.
      destruct (chunk_reply w cs i c) as [v|e]; [discriminate|now exists e].
    + intros [e ->]. reflexivity.
  - split; [|split; [|split]].
    + intros. apply Frame.retrieve_preserves; intros ? ?; reflexivity.
    + intros. apply Frame._embed_preserves; intros ? ?; reflexivity.
    + intros. apply Frame.submit_answer_preserves; intros ? ?; reflexivity.
    + intros query top_k w1 results.
      apply RetrieverFacts.retrieve_returns_present.
Qed.

Lemma construction_aligns_embeddings_witness :
  exists cs w',
    __init__ Scenario.chapter_path
      (Scenario.blank [Replied [1; 0]%float] []) = (Ok tt, w') /\
    chunks (retriever w') = cs /\
    length (embeddings (retriever w')) = length (chunks (retriever w')).
Proof.
  destruct (construction_aligns_embeddings
              (Scenario.blank [Replied [1; 0]%float] [])
              Scenario.chapter_path Scenario.chapter)
    as [cs [w' (_ & Hrun & Hc & Hlen & _)]].
  - reflexivity.
  - exists cs, w'. repeat split; assumption.
Defined.

(** Construction on the sample file with a service that fails on the
    second chunk: both chunks are kept, the second embedding is absent. *)
Example construction_with_one_failure :
  List.map (fun c => length (split c))
    (chunks (retriever (Scenario.loaded [Replied [1; 0]%float] [])))
  = [251; 1] /\
  embeddings (retriever (Scenario.loaded [Replied [1; 0]%float] []))
  = [Some [1; 0]%float; None].
Proof. split; vm_compute; reflexivity. Qed.

End ConstructionFacts.

(* ================================================================== *)
(** ** The Submit-Answer handler *)

Module AppFacts.
Import Py PyFacts.
Import App.

(** The chunks a call returned, none if it did not return. *)
Definition returned (o : outcome (list scored_chunk)) : list scored_chunk :=
  match o with
  | Ok results => results
  | _ => []
  end.

(** The reply of the generation service to the handler's one call, made
    in the world [retrieve] left. *)
Definition generation_reply (w : world) (question : str) : reply str :=
  let w1 := snd (retrieve question 3 w) in
  generation_service w1 (requests w1) generation_model
    (build_teaching_prompt question (returned (fst (retrieve question 3 w)))).

(** C8. When a non-blank answer is submitted, retrieval returns chunks,
    and the generation call fails with [e], the handler ends normally with
    the conversation exactly as before, one error notice for [e] added to
    the page, and one error record for [e] added to the response log. *)
Theorem generation_failure_keeps_history w question user_answer e :
  truthy (strip user_answer) = true ->
  returned (fst (retrieve question 3 w)) <> [] ->
  generation_reply w question = Failed e ->
  exists w',
    submit_answer question user_answer w = (Ok tt, w') /\
    conversation w' = conversation w /\
    page w' = page w ++ [ErrorNotice e] /\
    response_logger w'
    = response_logger w ++ [(ERROR, MsgGenerationError question e)].
Proof.
  intros Hanswer Hfound Hgen. unfold generation_reply in Hgen.
  pose proof (Frame.retrieve_preserves conversation question 3
                ltac:(intros ? ?; reflexivity)
                ltac:(intros ? ?; reflexivity) w) as Hconv.
  pose proof (Frame.retrieve_preserves page question 3
                ltac:(intros ? ?; reflexivity)
                ltac:(intros ? ?; reflexivity) w) as Hpage.
  pose proof (Frame.retrieve_preserves response_logger question 3
                ltac:(intros ? ?; reflexivity)
                ltac:(intros ? ?; reflexivity) w) as Hlog.
  unfold submit_answer. rewrite Hanswer. unfold bind at 1.
  destruct (retrieve question 3 w) as [[results| |] w1]; simpl in *;
    try congruence.
  destruct results as [|r results]; [congruence|].
  cbv [try_except answer_and_grade bind generate_content].
  rewrite Hgen.
  cbv [report_error bind st response_log modify]. simpl.
  eexists. split; [reflexivity|]. simpl.
  rewrite Hconv, Hpage, Hlog. repeat split.
Qed.

Lemma generation_failure_keeps_history_witness :
  exists w',
    submit_answer Scenario.sample_question Scenario.sample_answer
      Scenario.plain_world = (Ok tt, w') /\
    conversation w' = conversation Scenario.plain_world /\
    page w' = page Scenario.plain_world ++ [ErrorNotice Scenario.quota_error] /\
    response_logger w'
    = response_logger Scenario.plain_world
      ++ [(ERROR, MsgGenerationError Scenario.sample_question
                    Scenario.quota_error)].
Proof.
  apply generation_failure_keeps_history.
  - reflexivity.
  - vm_compute. discriminate.
  - vm_compute. reflexivity.
Defined.

(** A submission the services answer: one turn is appended. *)
Example answered_submission_appends_turn :
  let w := Scenario.loaded
             [Replied [1; 0]; Replied [0; 1]; Replied [0; 1];
              Replied [3; 4]; Replied [3; 4]]%float
             [Replied (lit "Media is a means of communication.")] in
  List.map (fun t => (feedback t, similarity t))
    (conversation (snd (submit_answer Scenario.sample_question
                          Scenario.sample_answer w)))
  = [(Correct, Some 1%float)].
Proof. vm_compute. reflexivity. Qed.

End AppFacts.

(* ================================================================== *)
(** ** Sentence chunker *)

Module SentenceChunkerFacts.
Import Py PyFacts SentenceChunker.
Local Open Scope Z_scope.

(** A separator between two texts separates their words. *)
Lemma split_from_app_space c a : forall cur b,
  isspace c = true ->
  split_from cur (a ++ c :: b) = split_from cur a ++ split b.
Proof.
  induction a as [|x a IH]; intros cur b Hc; simpl.
  - rewrite Hc. now destruct cur.
  - destruct (isspace x).
    + destruct cur; [now apply IH|]. simpl. f_equal. now apply IH.
    + now apply IH.
Qed.

Lemma split_app_space c a b :
  isspace c = true -> split (a ++ c :: b) = split a ++ split b.
Proof. apply split_from_app_space. Qed.

(** Cutting a text into sentences neither breaks nor loses a word. *)
Lemma sentences_from_words s : forall cur gap,
  (gap = true -> cur = []) ->
  concat (List.map split (sentences_from cur gap s)) = split (rev cur ++ s).
Proof.
  induction s as [|c s IH]; intros cur gap Hgap.
  - simpl. now rewrite !app_nil_r.
  - cbn [sentences_from].
    destruct ((c =? 32)%N && gap) eqn:E1.
    + apply andb_true_iff in E1. destruct E1 as [Ec Eg].
      apply N.eqb_eq in Ec. subst c. rewrite (Hgap Eg).
      rewrite IH by reflexivity. reflexivity.
    + destruct ((c =? 32)%N
                && match cur with p :: _ => ends_sentence p | [] => false end)
        eqn:E2.
      * apply andb_true_iff in E2. destruct E2 as [Ec _].
        apply N.eqb_eq in Ec. subst c. cbn [List.map concat].
        rewrite IH by reflexivity. simpl rev. simpl app at 2.
        now rewrite split_app_space.
      * rewrite IH by discriminate. simpl rev. now rewrite <- app_assoc.
Qed.

Lemma split_sentences_words text :
  concat (List.map split (split_sentences text)) = split text.
Proof. apply (sentences_from_words text [] false). discriminate. Qed.

Lemma split_sentences_nonempty text : split_sentences text <> [].
Proof.
  unfold split_sentences. generalize (@nil char) false.
  induction text as [|c s IH]; intros cur gap; cbn [sentences_from].
  - discriminate.
  - destruct ((c =? 32)%N && gap); [apply IH|].
    destruct ((c =? 32)%N && _); [discriminate | apply IH].
Qed.

(** The words a chunk adds to the chunks before it: the chunk without
    its first [overlap] words, or without as many as the chunk before it
    had, when that one was shorter. *)
Fixpoint fresh_after (overlap : nat) (prev : list str) (chunks : list str)
  : list str :=
  match chunks with
  | [] => []
  | c :: rest =>
      skipn (Nat.min overlap (length prev)) (split c)
      ++ fresh_after overlap (split c) rest
  end.

(** The words of the last chunk, [prev] when there is none. *)
Definition last_words (prev : list str) (chunks : list str) : list str :=
  match chunks with
  | [] => prev
  | _ => split (last chunks [])
  end.

Lemma fresh_after_snoc overlap c : forall chunks prev,
  fresh_after overlap prev (chunks ++ [c])
  = fresh_after overlap prev chunks
    ++ skipn (Nat.min overlap (length (last_words prev chunks))) (split c).
Proof.
  induction chunks as [|c0 chunks IH]; intros prev.
  - simpl. now rewrite app_nil_r.
  - cbn [app fresh_after]. rewrite IH, <- app_assoc. do 3 f_equal.
    destruct chunks; reflexivity.
Qed.

Lemma last_words_snoc prev chunks c :
  last_words prev (chunks ++ [c]) = split c.
Proof.
  unfold last_words. rewrite last_last. now destruct chunks.
Qed.

Lemma slice_from_length {A : Type} (l : list A) (n : Z) :
  0 < n ->
  length (slice_from l (- n)) = Nat.min (Z.to_nat n) (length l).
Proof.
  intros Hn. unfold slice_from, clamp_index.
  destruct (Z.ltb_spec (- n) 0); [|lia].
  rewrite length_skipn. lia.
Qed.

(** What the loop keeps true: the chunks emitted and the words pending
    account for exactly the words read so far. *)
Lemma split_loop_words chunk_size overlap :
  0 <= overlap ->
  forall sentences chunks cur len seen,
  Forall word cur ->
  (Nat.min (Z.to_nat overlap) (length (last_words [] chunks))
   <= length cur)%nat ->
  fresh_after (Z.to_nat overlap) [] chunks
  ++ skipn (Nat.min (Z.to_nat overlap) (length (last_words [] chunks))) cur
  = seen ->
  let '(chunks', cur') :=
    split_loop sentences chunk_size overlap chunks cur len in
  Forall word cur' /\
  fresh_after (Z.to_nat overlap) [] chunks'
  ++ skipn (Nat.min (Z.to_nat overlap) (length (last_words [] chunks'))) cur'
  = seen ++ concat (List.map split sentences).
Proof.
  intros Hov.
  induction sentences as [|sentence rest IH];
    intros chunks cur len seen Hcur Hk Hseen.
  - simpl. rewrite app_nil_r. split; assumption.
  - cbn [split_loop List.map concat]. cbv zeta.
    assert (Hsw : Forall word (split sentence)) by apply split_words.
    destruct (len + Z.of_nat (length (split sentence)) <=? chunk_size).
    + specialize (IH chunks (cur ++ split sentence)
                    (len + Z.of_nat (length (split sentence)))
                    (seen ++ split sentence)).
      rewrite <- app_assoc in IH. apply IH.
      * apply Forall_app. split; assumption.
      * rewrite length_app. lia.
      * rewrite skipn_app.
        replace (Nat.min (Z.to_nat overlap) (length (last_words [] chunks))
                 - length cur)%nat with 0%nat by lia.
        simpl skipn at 2. rewrite app_assoc. now rewrite Hseen.
    + set (kept := if overlap =? 0 then [] else slice_from cur (- overlap)).
      assert (Hkept : Forall word kept /\
                length kept = Nat.min (Z.to_nat overlap) (length cur)).
      { unfold kept. destruct (Z.eqb_spec overlap 0) as [->|Hne].
        - split; [constructor | reflexivity].
        - split; [apply Forall_skipn; assumption|].
          apply slice_from_length. lia. }
      destruct Hkept as [Hkw Hkl].
      specialize (IH (chunks ++ [join space cur]) (kept ++ split sentence)
                    (Z.of_nat (length (kept ++ split sentence)))
                    (seen ++ split sentence)).
      rewrite <- app_assoc in IH. apply IH.
      * apply Forall_app. split; assumption.
      * rewrite last_words_snoc, split_join, length_app by assumption. lia.
      * rewrite fresh_after_snoc, last_words_snoc, !split_join by assumption.
        rewrite Hseen. f_equal. rewrite skipn_app, <- Hkl.
        rewrite skipn_all, Nat.sub_diag. reflexivity.
Qed.

(** X1. With a non-negative overlap the sentence chunker loses and
    invents no word: the first chunk, followed by every later chunk
    without the words it repeats from the chunk before it (its first
    [overlap] words, or as many as that chunk had), is the word sequence
    of the text, for every chunk size. *)
Theorem sentence_chunks_keep_words text chunk_size overlap :
  0 <= overlap ->
  fresh_after (Z.to_nat overlap) []
    (aggressive_recursive_split text chunk_size overlap)
  = split text.
Proof.
  intros Hov. unfold aggressive_recursive_split.
  pose proof (split_loop_words chunk_size overlap Hov
                (split_sentences text) [] [] 0 []
                (Forall_nil _) (Nat.le_min_r _ _)
                ltac:(simpl; apply skipn_nil)) as H.
  revert H.
  destruct (split_loop (split_sentences text) chunk_size overlap [] [] 0)
    as [chunks cur].
  cbv beta iota. intros [Hcur Hall].
  rewrite split_sentences_words in Hall. simpl in Hall.
  destruct cur as [|w cur].
  - rewrite skipn_nil, app_nil_r in Hall. exact Hall.
  - rewrite fresh_after_snoc, split_join by assumption. exact Hall.
Qed.

Lemma sentence_chunks_keep_words_witness :
  fresh_after 1 []
    (aggressive_recursive_split
       (lit "Hello world. This is a test! Is it?  Yes.") 5 1)
  = split (lit "Hello world. This is a test! Is it?  Yes.").
Proof. apply (sentence_chunks_keep_words _ 5 1). lia. Defined.

Lemma split_loop_bound chunk_size overlap :
  0 <= overlap ->
  forall sentences chunks cur len,
  Forall (fun s => Z.of_nat (length (split s)) <= chunk_size - overlap)
         sentences ->
  Forall word cur -> len = Z.of_nat (length cur) -> len <= chunk_size ->
  Forall (fun c : str => c <> [] /\ Z.of_nat (length (split c)) <= chunk_size)
         chunks ->
  let '(chunks', cur') :=
    split_loop sentences chunk_size overlap chunks cur len in
  Forall word cur' /\ Z.of_nat (length cur') <= chunk_size /\
  Forall (fun c : str => c <> [] /\ Z.of_nat (length (split c)) <= chunk_size)
         chunks'.
Proof.
  intros Hov.
  induction sentences as [|sentence rest IH];
    intros chunks cur len Hs Hcur Hlen Hle Hchunks.
  - simpl. subst len. repeat split; assumption.
  - cbn [split_loop]. cbv zeta.
    inversion Hs as [|? ? Hfirst Hrest]; subst.
    assert (Hsw : Forall word (split sentence)) by apply split_words.
    destruct (Z.leb_spec (Z.of_nat (length cur)
                          + Z.of_nat (length (split sentence))) chunk_size)
      as [Hfit|Hover].
    + apply IH; try assumption.
      * apply Forall_app. split; assumption.
      * rewrite length_app. lia.
    + set (kept := if overlap =? 0 then [] else slice_from cur (- overlap)).
      assert (Hkept : Forall word kept /\
                Z.of_nat (length kept) <= overlap).
      { unfold kept. destruct (Z.eqb_spec overlap 0) as [->|Hne].
        - split; [constructor | simpl; lia].
        - split; [apply Forall_skipn; assumption|].
          rewrite slice_from_length by lia. lia. }
      destruct Hkept as [Hkw Hkl].
      assert (Hne : cur <> []).
      { intros ->. simpl in Hover. lia. }
      apply IH; try assumption.
      * apply Forall_app. split; assumption.
      * reflexivity.
      * rewrite length_app. lia.
      * apply Forall_app. split; [assumption|].
        constructor; [|constructor]. split.
        -- intros E. apply (f_equal truthy) in E.
           rewrite join_truthy in E by assumption. discriminate.
        -- rewrite split_join by assumption. lia.
Qed.

(** X2. When the overlap is not negative and no sentence has more than
    [chunk_size - overlap] words, every chunk of the sentence chunker has
    at most [chunk_size] words and none is empty. *)
Theorem sentence_chunks_bounded text chunk_size overlap :
  0 <= overlap ->
  Forall (fun s => Z.of_nat (length (split s)) <= chunk_size - overlap)
         (split_sentences text) ->
  Forall (fun c : str => c <> [] /\ Z.of_nat (length (split c)) <= chunk_size)
         (aggressive_recursive_split text chunk_size overlap).
Proof.
  intros Hov Hs. unfold aggressive_recursive_split.
  assert (Hcs : 0 <= chunk_size).
  { pose proof (split_sentences_nonempty text) as Hne.
    destruct (split_sentences text) as [|s0 rest]; [congruence|].
    inversion Hs; subst. lia. }
  pose proof (split_loop_bound chunk_size overlap Hov
                (split_sentences text) [] [] 0 Hs
                (Forall_nil _) eq_refl Hcs (@Forall_nil str _)) as H.
  revert H.
  destruct (split_loop (split_sentences text) chunk_size overlap [] [] 0)
    as [chunks cur].
  cbv beta iota. intros (Hcur & Hlen & Hchunks).
  destruct cur as [|w cur]; [assumption|].
  apply Forall_app. split; [assumption|]. constructor; [|constructor].
  split.
  - intros E. apply (f_equal truthy) in E.
    rewrite join_truthy in E by (assumption || discriminate). discriminate.
  - rewrite split_join by assumption. exact Hlen.
Qed.

Lemma sentence_chunks_bounded_witness :
  Forall (fun c : str => c <> [] /\ Z.of_nat (length (split c)) <= 5)
         (aggressive_recursive_split
            (lit "Hello world. This is a test! Is it?  Yes.") 5 1).
Proof.
  apply sentence_chunks_bounded; [lia|].
  vm_compute. repeat constructor; discriminate.
Defined.

Lemma split_loop_prefix chunk_size overlap : forall sentences chunks cur len,
  exists more,
    fst (split_loop sentences chunk_size overlap chunks cur len)
    = chunks ++ more.
Proof.
  induction sentences as [|sentence rest IH]; intros chunks cur len.
  - exists []. simpl. now rewrite app_nil_r.
  - cbn [split_loop]. cbv zeta.
    destruct (len + Z.of_nat (length (split sentence)) <=? chunk_size).
    + apply IH.
    + match goal with
      | |- exists more, fst (split_loop _ _ _ (_ ++ [?c]) ?cur' ?len') = _ =>
          destruct (IH (chunks ++ [c]) cur' len') as [more Hmore]
      end.
      exists (join space cur :: more). rewrite Hmore.
      now rewrite <- app_assoc.
Qed.

(** X3. When the first sentence alone has more words than [chunk_size],
    the first chunk the sentence chunker returns is the empty string. *)
Theorem oversized_first_sentence_empty_chunk
    text chunk_size overlap first rest :
  split_sentences text = first :: rest ->
  chunk_size < Z.of_nat (length (split first)) ->
  exists more,
    aggressive_recursive_split text chunk_size overlap = [] :: more.
Proof.
  intros Hs Hbig. unfold aggressive_recursive_split. rewrite Hs.
  cbn [split_loop]. cbv zeta.
  destruct (Z.leb_spec (0 + Z.of_nat (length (split first))) chunk_size);
    [lia|].
  match goal with
  | |- context [split_loop rest chunk_size overlap ?cs ?cur ?len] =>
      destruct (split_loop_prefix chunk_size overlap rest cs cur len)
        as [more Hmore];
      destruct (split_loop rest chunk_size overlap cs cur len)
        as [chunks' cur']
  end.
  simpl in Hmore. subst chunks'.
  destruct cur'; eexists; reflexivity.
Qed.

Lemma oversized_first_sentence_empty_chunk_witness :
  exists more,
    aggressive_recursive_split (lit "a b c d. e") 2 1 = [] :: more.
Proof.
  apply (oversized_first_sentence_empty_chunk _ 2 1 (lit "a b c d.")
           [lit "e"]).
  - reflexivity.
  - vm_compute. reflexivity.
Defined.

End SentenceChunkerFacts.

(* ================================================================== *)
(** ** Offline store *)

Module StoreFacts.
Import Py.
Import World Store.

(** Log lines that settle a chunk: stored, skipped, or failed. *)
Definition settles (r : level * store_message) : bool :=
  match snd r with
  | MsgStored _ | MsgSkipping _ | MsgChunkError _ _ => true
  | _ => false
  end.

Definition tells_stored (r : level * store_message) : bool :=
  match snd r with
  | MsgStored _ => true
  | _ => false
  end.

(** What one pass of the loop body does to the store. *)
Lemma process_chunk_step name total idx chunk s :
  embedder (process_chunk name total idx chunk s) = embedder s /\
  insert_one_raises (process_chunk name total idx chunk s)
  = insert_one_raises s /\
  calls (process_chunk name total idx chunk s)
  = calls s ++ [EmbedRequest store_embedding_model chunk] /\
  exists docs entries,
    collection (process_chunk name total idx chunk s) = collection s ++ docs /\
    journal (process_chunk name total idx chunk s) = journal s ++ entries /\
    length (filter settles entries) = 1 /\
    length (filter tells_stored entries) = length docs /\
    (docs = [] \/
     exists x e, docs = [{| chapter := name; chunk_index := idx;
                            doc_text := chunk; embedding := x :: e |}]).
Proof.
  unfold process_chunk, embed_text. cbn [calls embedder logging].
  destruct (embedder s (calls s) store_embedding_model chunk) as [emb|err].
  - destruct emb as [|x e]; cbn [has_embedding].
    + repeat split. exists [], [(INFO, MsgProcessing idx total);
                                (WARNING, MsgSkipping idx)].
      simpl. rewrite app_nil_r, <- app_assoc. repeat split. now left.
    + cbn [insert_one_raises collection with_calls logging].
      destruct (insert_one_raises s (collection s) _) as [err|].
      * repeat split. exists [], [(INFO, MsgProcessing idx total);
                                  (ERROR, MsgChunkError idx err)].
        simpl. rewrite app_nil_r, <- app_assoc. repeat split. now left.
      * repeat split.
        exists [{| chapter := name; chunk_index := idx; doc_text := chunk;
                   embedding := x :: e |}],
               [(INFO, MsgProcessing idx total); (INFO, MsgStored idx)].
        simpl. rewrite <- app_assoc. repeat split. right. now exists x, e.
  - cbn [has_embedding]. repeat split.
    exists [], [(INFO, MsgProcessing idx total); (ERROR, MsgEmbedFailed err);
                (WARNING, MsgSkipping idx)].
    simpl. rewrite app_nil_r, <- !app_assoc. repeat split. now left.
Qed.

(** A stored document sits at the position its index names. *)
Definition placed (name : str) (chunks : list str) (first : nat)
    (d : document) : Prop :=
  chapter d = name /\ embedding d <> [] /\ first <= chunk_index d /\
  nth_error chunks (chunk_index d - first) = Some (doc_text d).

Lemma process_from_run name total : forall todo idx s,
  embedder (process_from name total idx todo s) = embedder s /\
  insert_one_raises (process_from name total idx todo s)
  = insert_one_raises s /\
  calls (process_from name total idx todo s)
  = calls s ++ List.map (EmbedRequest store_embedding_model) todo /\
  exists docs entries,
    collection (process_from name total idx todo s) = collection s ++ docs /\
    journal (process_from name total idx todo s) = journal s ++ entries /\
    length (filter settles entries) = length todo /\
    length (filter tells_stored entries) = length docs /\
    Forall (placed name todo idx) docs /\
    StronglySorted (fun a b => chunk_index a < chunk_index b) docs.
Proof.
  induction todo as [|chunk rest IH]; intros idx s.
  - simpl. rewrite app_nil_r. repeat split. exists [], [].
    rewrite !app_nil_r. repeat split; constructor.
  - cbn [process_from List.map].
    destruct (process_chunk_step name total idx chunk s)
      as (He & Hi & Hc & docs1 & entries1 & Hd1 & Hj1 & Hs1 & Ht1 & Hshape).
    destruct (IH (S idx) (process_chunk name total idx chunk s))
      as (He' & Hi' & Hc' & docs2 & entries2 & Hd2 & Hj2 & Hs2 & Ht2
          & Hplaced & Hsorted).
    rewrite He', Hi', Hc', He, Hi, Hc. rewrite <- app_assoc.
    repeat split.
    exists (docs1 ++ docs2), (entries1 ++ entries2).
    rewrite Hd2, Hd1, Hj2, Hj1, !app_assoc, !filter_app, !length_app.
    rewrite Hs1, Hs2, Ht1, Ht2.
    assert (Hlater : Forall (placed name (chunk :: rest) idx) docs2
                     /\ Forall (fun d => idx < chunk_index d) docs2).
    { split; apply Forall_forall; intros d Hd;
        rewrite Forall_forall in Hplaced;
        destruct (Hplaced d Hd) as (H1 & H2 & H3 & H4); [|lia].
      repeat split; try assumption; try lia.
      replace (chunk_index d - idx) with (S (chunk_index d - S idx)) by lia.
      exact H4. }
    destruct Hlater as [Hlater Habove].
    repeat split.
    + apply Forall_app. split; [|exact Hlater].
      destruct Hshape as [->|[x [e ->]]]; constructor; [|constructor].
      repeat split; simpl; try discriminate; try lia.
      now rewrite Nat.sub_diag.
    + destruct Hshape as [->|[x [e ->]]]; [exact Hsorted|].
      simpl. constructor; [exact Hsorted|]. exact Habove.
Qed.

(** X4. [process_chunks] only ever appends to the collection. Every
    document it adds carries the chapter name, a non-empty embedding, and
    the text of the chunk at the 1-based position its [chunk_index] names;
    the added documents come in strictly increasing [chunk_index], so a
    chunk that is skipped leaves a gap and never shifts a later one. *)
Theorem process_chunks_appends name chunks s :
  exists docs,
    collection (process_chunks name chunks s) = collection s ++ docs /\
    Forall (fun d => chapter d = name /\ embedding d <> [] /\
                     1 <= chunk_index d /\
                     nth_error chunks (chunk_index d - 1) = Some (doc_text d))
           docs /\
    StronglySorted (fun a b => chunk_index a < chunk_index b) docs.
Proof.
  unfold process_chunks.
  destruct (process_from_run name (length chunks) chunks 1 s)
    as (_ & _ & _ & docs & entries & Hd & _ & _ & _ & Hplaced & Hsorted).
  exists docs. repeat split; assumption.
Qed.

(** X5. [process_chunks] makes exactly one embedding call per chunk, in
    chunk order and whatever the inserts do, and logs exactly one settling
    line per chunk (stored, skipped, or error); the lines that say stored
    are as many as the documents added. *)
Theorem process_chunks_accounts name chunks s :
  calls (process_chunks name chunks s)
  = calls s ++ List.map (EmbedRequest store_embedding_model) chunks /\
  exists entries,
    journal (process_chunks name chunks s) = journal s ++ entries /\
    length (filter settles entries) = length chunks /\
    length (filter tells_stored entries) + length (collection s)
    = length (collection (process_chunks name chunks s)).
Proof.
  unfold process_chunks.
  destruct (process_from_run name (length chunks) chunks 1 s)
    as (_ & _ & Hc & docs & entries & Hd & Hj & Hs & Ht & _).
  split; [exact Hc|]. exists entries. rewrite Hd, length_app.
  repeat split; try assumption. lia.
Qed.

Lemma process_from_complete name total : forall todo idx s,
  (forall history model content,
     exists x e, embedder s history model content = Replied (x :: e)) ->
  (forall stored d, insert_one_raises s stored d = None) ->
  exists docs,
    collection (process_from name total idx todo s) = collection s ++ docs /\
    List.map doc_text docs = todo /\
    List.map chunk_index docs = seq idx (length todo).
Proof.
  induction todo as [|chunk rest IH]; intros idx s Hemb Hins.
  - exists []. simpl. now rewrite app_nil_r.
  - cbn [process_from].
    destruct (process_chunk_step name total idx chunk s)
      as (He & Hi & _).
    destruct (IH (S idx) (process_chunk name total idx chunk s))
      as (docs & Hd & Ht & Hi').
    { intros h m c. rewrite He. apply Hemb. }
    { intros st d. rewrite Hi. apply Hins. }
    rewrite Hd. unfold process_chunk, embed_text.
    destruct (Hemb (calls (logging INFO (MsgProcessing idx total) s))
                store_embedding_model chunk) as [x [e Hr]].
    cbn [calls embedder logging] in *. rewrite Hr.
    cbn [has_embedding insert_one_raises collection with_calls logging].
    rewrite Hins. cbn [collection with_collection logging].
    eexists (_ :: docs). rewrite <- app_assoc. split; [reflexivity|].
    simpl. now rewrite Ht, Hi'.
Qed.

(** X6. When every embedding call returns a non-empty embedding and no
    insert raises, [process_chunks] stores every chunk: the documents
    added carry the chunk texts in order, numbered from 1. *)
Theorem process_chunks_complete name chunks s :
  (forall history model content,
     exists x e, embedder s history model content = Replied (x :: e)) ->
  (forall stored d, insert_one_raises s stored d = None) ->
  exists docs,
    collection (process_chunks name chunks s) = collection s ++ docs /\
    List.map doc_text docs = chunks /\
    List.map chunk_index docs = seq 1 (length chunks).
Proof. apply process_from_complete. Qed.

(** A store whose service embeds everything as a unit vector and whose
    collection accepts everything. *)
Definition obliging : store :=
  {| embedder := fun _ _ _ => Replied [1%float];
     calls := [];
     insert_one_raises := fun _ _ => None;
     collection := [];
     journal := [] |}.

Lemma process_chunks_complete_witness :
  exists docs,
    collection (process_chunks (lit "Understanding Media")
                  [lit "first"; lit "second"] obliging)
    = collection obliging ++ docs /\
    List.map doc_text docs = [lit "first"; lit "second"] /\
    List.map chunk_index docs = seq 1 2.
Proof.
  apply (process_chunks_complete (lit "Understanding Media")
           [lit "first"; lit "second"] obliging).
  - intros. now exists 1%float, [].
  - reflexivity.
Defined.

(** One chunk whose embedding comes back empty between two that are
    stored: the stored indexes are 1 and 3. *)
Example process_chunks_gap :
  List.map chunk_index
    (collection
       (process_chunks (lit "Understanding Media")
          [lit "first"; lit "second"; lit "third"]
          {| embedder := fun history _ _ =>
               match length history with
               | 1 => Replied []
               | _ => Replied [1%float]
               end;
             calls := []; insert_one_raises := fun _ _ => None;
             collection := []; journal := [] |}))
  = [1; 3].
Proof. vm_compute. reflexivity. Qed.

End StoreFacts.

(* ================================================================== *)
(** ** Chunker: the windows in closed form *)

Module WindowFacts.
Import Py PyFacts Chunker.
Local Open Scope Z_scope.

(** The first [count] windows of [chunk_size] words that start at word
    [i] and advance by [stride]. *)
Fixpoint windows (count : nat) (words : list str) (chunk_size stride i : Z)
  : list str :=
  match count with
  | O => []
  | S count' =>
      join space (firstn (Z.to_nat chunk_size) (skipn (Z.to_nat i) words))
      :: windows count' words chunk_size stride (i + stride)
  end.

(** How many windows start before the end of [n] words, from word [i]. *)
Definition windows_left (n stride i : Z) : nat :=
  Z.to_nat ((n - i + stride - 1) / stride).

Lemma windows_left_done n stride i :
  0 < stride -> n <= i -> windows_left n stride i = 0%nat.
Proof.
  intros Hs Hi. unfold windows_left.
  assert ((n - i + stride - 1) / stride <= 0); [|lia].
  apply Z.lt_succ_r. apply Z.div_lt_upper_bound; lia.
Qed.

Lemma windows_left_more n stride i :
  0 < stride -> i < n ->
  windows_left n stride i = S (windows_left n stride (i + stride)).
Proof.
  intros Hs Hi. unfold windows_left.
  replace (n - i + stride - 1) with (n - (i + stride) + stride - 1 + 1 * stride)
    by lia.
  rewrite Z.div_add by lia.
  assert (0 <= (n - (i + stride) + stride - 1) / stride)
    by (apply Z.div_pos; lia).
  lia.
Qed.

Lemma chunk_loop_windows words cs ov :
  0 < cs -> 0 <= ov < cs -> Forall word words ->
  forall fuel i chunks,
  0 <= i -> Z.max 0 (Z.of_nat (length words) - i) < Z.of_nat fuel ->
  chunk_loop fuel words cs ov i chunks
  = Some (chunks
          ++ windows (windows_left (Z.of_nat (length words)) (cs - ov) i)
               words cs (cs - ov) i).
Proof.
  intros Hcs Hov Hwords.
  induction fuel as [|fuel IH]; intros i chunks Hi Hfuel; [lia|].
  simpl. destruct (Z.ltb_spec i (Z.of_nat (length words))) as [Hlt|Hge].
  - rewrite slice_window by lia.
    set (win := firstn (Z.to_nat cs) (skipn (Z.to_nat i) words)).
    assert (Hwin : Forall word win) by now apply Forall_window.
    assert (Hne : win <> []).
    { intros E. apply (f_equal (@length str)) in E. unfold win in E.
      rewrite length_firstn, length_skipn in E. simpl in E. lia. }
    rewrite join_truthy by assumption.
    rewrite IH by lia. rewrite (windows_left_more _ _ i) by lia.
    cbn [windows]. fold win. now rewrite <- app_assoc.
  - rewrite windows_left_done by lia. simpl. now rewrite app_nil_r.
Qed.

Lemma windows_length count words cs stride : forall i,
  length (windows count words cs stride i) = count.
Proof. induction count as [|count IH]; intros i; simpl; congruence. Qed.

Lemma windows_nth count words cs stride : forall i k,
  (k < count)%nat ->
  nth_error (windows count words cs stride i) k
  = Some (join space
            (firstn (Z.to_nat cs)
               (skipn (Z.to_nat (i + Z.of_nat k * stride)) words))).
Proof.
  induction count as [|count IH]; intros i k Hk; [lia|].
  destruct k as [|k]; simpl nth_error.
  - do 4 f_equal. lia.
  - rewrite IH by lia. do 4 f_equal. lia.
Qed.

(** X7. For [chunk_size > 0] and [0 <= overlap < chunk_size] the chunker
    returns one chunk per stride of [chunk_size - overlap] words, rounded
    up, and chunk [k] is the [chunk_size] words (fewer at the end of the
    text) that start at word [k * (chunk_size - overlap)], joined by single
    spaces. *)
Theorem chunk_text_windows txt cs ov :
  0 < cs -> 0 <= ov < cs ->
  exists chunks,
    chunk_text txt cs ov = Some chunks /\
    Z.of_nat (length chunks)
    = (Z.of_nat (length (split txt)) + (cs - ov) - 1) / (cs - ov) /\
    forall k, (k < length chunks)%nat ->
      nth_error chunks k
      = Some (join space
                (firstn (Z.to_nat cs)
                   (skipn (Z.to_nat (Z.of_nat k * (cs - ov))) (split txt)))).
Proof.
  intros Hcs Hov. unfold chunk_text, chunk_text_fuel.
  rewrite (chunk_loop_windows (split txt) cs ov Hcs Hov (split_words txt))
    by lia.
  eexists. split; [reflexivity|]. cbn [app].
  rewrite windows_length. split.
  - unfold windows_left. rewrite Z.sub_0_r.
    rewrite Z2Nat.id; [reflexivity|]. apply Z.div_pos; lia.
  - intros k Hk. now rewrite windows_nth.
Qed.

Lemma chunk_text_windows_witness :
  exists chunks,
    chunk_text (lit "Media is a means of communication") 4 1 = Some chunks /\
    Z.of_nat (length chunks) = 2.
Proof.
  destruct (chunk_text_windows (lit "Media is a means of communication") 4 1)
    as [chunks (Hrun & Hlen & _)]; [lia | lia |].
  exists chunks. split; [exact Hrun|]. rewrite Hlen. reflexivity.
Defined.

Lemma chunk_loop_nonempty words cs ov : forall fuel i chunks out,
  Forall (fun c : str => c <> []) chunks ->
  chunk_loop fuel words cs ov i chunks = Some out ->
  Forall (fun c : str => c <> []) out.
Proof.
  induction fuel as [|fuel IH]; intros i chunks out Hchunks H;
    [discriminate|].
  simpl in H. destruct (i <? Z.of_nat (length words)).
  - eapply IH; [|exact H].
    destruct (join space (slice words i (i + cs))) eqn:E; simpl.
    + exact Hchunks.
    + apply Forall_app. split; [exact Hchunks|].
      constructor; [discriminate | constructor].
  - injection H as <-. exact Hchunks.
Qed.

(** X8. Whatever the parameters and the fuel, a result of the chunker
    holds no empty chunk. *)
Theorem chunk_text_no_empty_chunk fuel txt cs ov chunks :
  chunk_text_fuel fuel txt cs ov = Some chunks ->
  Forall (fun c : str => c <> []) chunks.
Proof.
  unfold chunk_text_fuel. apply chunk_loop_nonempty. constructor.
Qed.

Lemma chunk_text_no_empty_chunk_witness :
  Forall (fun c : str => c <> [])
    [lit "Media is a means"; lit "means of communication"].
Proof.
  apply (chunk_text_no_empty_chunk 7
           (lit "Media is a means of communication") 4 1).
  reflexivity.
Defined.

End WindowFacts.

(* ================================================================== *)
(** ** Retrieval: calls, cuts and failures *)

Module RetrievalFacts.
Import Py PyFacts.
Import App.
Import RetrieverFacts.

(** [retrieve] by what the service answers for the query. *)
Lemma retrieve_by_reply w query top_k :
  fst (retrieve query top_k w)
  = match query_reply w query with
    | Failed _ => Ok []
    | Replied q =>
        match score_loop q (basename (filepath (retriever w))) 0
                (stored_items w) [] with
        | Ok scored => Ok (slice_to (sort_desc scored) top_k)
        | Raise e => Raise e
        | Diverge => Diverge
        end
    end.
Proof.
  destruct (query_reply w query) as [q|e] eqn:Hq.
  - now apply retrieve_scans.
  - now apply retrieve_query_failed with (e := e).
Qed.

Lemma candidates_length : forall items idx,
  length (candidates idx items) <= length items.
Proof.
  induction items as [|[c [e|]] items IH]; intros idx; simpl.
  - lia.
  - specialize (IH (S idx)). lia.
  - specialize (IH (S idx)). lia.
Qed.

Lemma Forall2_same_length {A B : Type} (R : A -> B -> Prop) l1 l2 :
  Forall2 R l1 l2 -> length l1 = length l2.
Proof. induction 1; simpl; congruence. Qed.

(** The scan scores no more dictionaries than there are chunks. *)
Lemma scored_length w q scored :
  score_loop q (basename (filepath (retriever w))) 0 (stored_items w) []
  = Ok scored ->
  length (sort_desc scored) <= length (chunks (retriever w)).
Proof.
  intros Hscan.
  rewrite (Permutation_length (sort_desc_perm scored)).
  destruct (score_loop_ok _ _ _ _ _ _ Hscan) as [fresh [E Hall]].
  simpl in E. subst fresh.
  rewrite <- (Forall2_same_length _ _ _ Hall).
  pose proof (candidates_length (stored_items w) 0) as Hc.
  unfold stored_items in *. rewrite length_combine in Hc. lia.
Qed.

Lemma slice_to_nil {A : Type} (k : Z) : slice_to (@nil A) k = [].
Proof. unfold slice_to. apply firstn_nil. Qed.

Lemma slice_to_negative {A : Type} (l : list A) (k : Z) : (k < 0)%Z ->
  slice_to l k = firstn (length l - Z.to_nat (- k)) l.
Proof.
  intros Hk. unfold slice_to, clamp_index.
  destruct (Z.ltb_spec k 0); [|lia]. f_equal. lia.
Qed.

(** X9. Every [top_k] cuts the same ranking. If [retrieve] returns
    [everything] when asked for as many chunks as the retriever holds, then
    for any [top_k] it returns the first [top_k] of [everything]; a negative
    [top_k] is not rejected and returns all of [everything] but its last
    [-top_k] entries. *)
Theorem retrieve_cuts_one_ranking w query everything :
  fst (retrieve query (Z.of_nat (length (chunks (retriever w)))) w)
  = Ok everything ->
  forall top_k,
    fst (retrieve query top_k w)
    = Ok (if (top_k <? 0)%Z
          then firstn (length everything - Z.to_nat (- top_k)) everything
          else firstn (Z.to_nat top_k) everything).
Proof.
  intros Hall top_k. rewrite retrieve_by_reply in *.
  destruct (query_reply w query) as [q|e].
  - destruct (score_loop q _ 0 (stored_items w) []) as [scored| |] eqn:Hscan;
      try discriminate.
    pose proof (scored_length w q scored Hscan) as Hlen.
    injection Hall as <-.
    rewrite (slice_to_firstn _ (Z.of_nat _)) by lia.
    rewrite Nat2Z.id.
    replace (firstn (length (chunks (retriever w))) (sort_desc scored))
      with (sort_desc scored) by (symmetry; apply firstn_all2; lia).
    f_equal.
    destruct (Z.ltb_spec top_k 0).
    + now apply slice_to_negative.
    + now apply slice_to_firstn.
  - injection Hall as <-. f_equal.
    destruct (top_k <? 0)%Z; now rewrite firstn_nil.
Qed.

Lemma retrieve_cuts_one_ranking_witness :
  fst (retrieve Scenario.sample_question (-1) Scenario.plain_world)
  = Ok [{| chunk_id := 1; filename := Scenario.chapter_path;
           text := join space (repeat (lit "media") 1);
           score := 1%float |}].
Proof.
  apply (retrieve_cuts_one_ranking Scenario.plain_world
           Scenario.sample_question
           [{| chunk_id := 1; filename := Scenario.chapter_path;
               text := join space (repeat (lit "media") 1);
               score := 1%float |};
            {| chunk_id := 0; filename := Scenario.chapter_path;
               text := join space (repeat (lit "media") 251);
               score := 0%float |}]).
  vm_compute. reflexivity.
Defined.

(** X10. Asking for fewer chunks returns a prefix of what asking for more
    returns: for [0 <= k <= k'], the result for [k] is the first [k]
    entries of the result for [k']. *)
Theorem retrieve_top_k_prefix w query k k' results :
  (0 <= k <= k')%Z ->
  fst (retrieve query k' w) = Ok results ->
  fst (retrieve query k w) = Ok (firstn (Z.to_nat k) results).
Proof.
  intros Hk Hrun. rewrite retrieve_by_reply in *.
  destruct (query_reply w query) as [q|e].
  - destruct (score_loop q _ 0 (stored_items w) []) as [scored| |];
      try discriminate.
    injection Hrun as <-. rewrite !slice_to_firstn by lia.
    rewrite firstn_firstn. do 2 f_equal. lia.
  - injection Hrun as <-. now rewrite firstn_nil.
Qed.

Lemma retrieve_top_k_prefix_witness :
  fst (retrieve Scenario.sample_question 1 Scenario.plain_world)
  = Ok [{| chunk_id := 1; filename := Scenario.chapter_path;
           text := join space (repeat (lit "media") 1);
           score := 1%float |}].
Proof.
  apply (retrieve_top_k_prefix Scenario.plain_world Scenario.sample_question
           1 3
           [{| chunk_id := 1; filename := Scenario.chapter_path;
               text := join space (repeat (lit "media") 1);
               score := 1%float |};
            {| chunk_id := 0; filename := Scenario.chapter_path;
               text := join space (repeat (lit "media") 251);
               score := 0%float |}]).
  - lia.
  - vm_compute. reflexivity.
Defined.

Lemma ascending_NoDup {A : Type} (f : A -> nat) (l : list A) :
  StronglySorted (fun a b => f a < f b) l -> NoDup (List.map f l).
Proof.
  induction 1 as [|a l _ IH Hall]; simpl; constructor; [|exact IH].
  intros Hin. apply in_map_iff in Hin. destruct Hin as [b [E Hb]].
  rewrite Forall_forall in Hall. specialize (Hall b Hb). lia.
Qed.

Lemma NoDup_firstn {A : Type} (l : list A) (n : nat) :
  NoDup l -> NoDup (firstn n l).
Proof.
  intros H. rewrite <- (firstn_skipn n l) in H.
  now apply NoDup_app_remove_r in H.
Qed.

(** X11. No chunk is returned twice: the dictionaries [retrieve] returns
    have pairwise different [chunk_id]s, and each names the base name of the
    retriever's file. *)
Theorem retrieve_distinct_chunks w query top_k results :
  fst (retrieve query top_k w) = Ok results ->
  NoDup (List.map chunk_id results) /\
  Forall (fun r => filename r = basename (filepath (retriever w))) results.
Proof.
  intros Hrun. rewrite retrieve_by_reply in Hrun.
  destruct (query_reply w query) as [q|e].
  - destruct (score_loop q _ 0 (stored_items w) []) as [scored| |] eqn:Hscan;
      try discriminate.
    injection Hrun as <-.
    destruct (score_loop_ok _ _ _ _ _ _ Hscan) as [fresh [E Hall]].
    simpl in E. subst fresh. unfold slice_to. split.
    + rewrite <- firstn_map. apply NoDup_firstn.
      apply (Permutation_NoDup
               (Permutation_sym
                  (Permutation_map chunk_id (sort_desc_perm scored)))).
      apply ascending_NoDup.
      apply (scored_ascending _ _ _ _ Hall). apply candidates_ascending.
    + apply Forall_forall. intros r Hr. apply In_firstn in Hr.
      apply (Permutation_in _ (sort_desc_perm scored)) in Hr.
      destruct (Forall2_In_r _ _ _ _ Hall Hr) as [cand [_ Has]].
      apply Has.
  - injection Hrun as <-. split; constructor.
Qed.

Lemma retrieve_distinct_chunks_witness :
  exists results,
    fst (retrieve Scenario.sample_question 3 Scenario.plain_world)
    = Ok results /\
    NoDup (List.map chunk_id results).
Proof.
  eexists. split; [vm_compute; reflexivity|].
  eapply (retrieve_distinct_chunks Scenario.plain_world
            Scenario.sample_question 3).
  vm_compute. reflexivity.
Defined.

(** X12. [retrieve] always ends, and when it does not return a list it
    raised numpy's shape error: the query was embedded, and some chunk
    holds an embedding whose length differs from the query embedding's;
    the error names the two lengths. *)
Theorem retrieve_failure_is_shape_error w query top_k :
  (forall results, fst (retrieve query top_k w) <> Ok results) ->
  exists q i v,
    fst (retrieve query top_k w)
    = Raise (shapes_not_aligned (length q) (length v)) /\
    query_reply w query = Replied q /\
    i < length (chunks (retriever w)) /\
    nth_error (embeddings (retriever w)) i = Some (Some v) /\
    length v <> length q.
Proof.
  intros Hnot. rewrite retrieve_by_reply in *.
  destruct (query_reply w query) as [q|e]; [|now destruct (Hnot [])].
  pose proof (score_loop_outcome q (basename (filepath (retriever w)))
                (stored_items w) 0 []) as Hout.
  destruct (score_loop q _ 0 (stored_items w) []) as [scored|e|].
  - now destruct (Hnot (slice_to (sort_desc scored) top_k)).
  - destruct Hout as (i & c & v & Hin & [Hlen _] & -> & _).
    exists q, i, v. split; [reflexivity|]. split; [reflexivity|].
    assert (Hs : i < length (chunks (retriever w)) /\
                 nth_error (embeddings (retriever w)) i = Some (Some v))
      by (apply candidates_stored; now exists c).
    destruct Hs as [Hi He]. split; [exact Hi|]. split; [exact He|]. congruence.
  - contradiction.
Qed.

Lemma retrieve_failure_is_shape_error_witness :
  fst (retrieve Scenario.sample_question 3
         (Scenario.loaded
            [Replied [1; 0]; Replied [0; 1]; Replied [1]]%float []))
  = Raise (shapes_not_aligned 1 2).
Proof.
  destruct (retrieve_failure_is_shape_error
              (Scenario.loaded
                 [Replied [1; 0]; Replied [0; 1]; Replied [1]]%float [])
              Scenario.sample_question 3) as (q & i & v & Hrun & _).
  - intros results. vm_compute. discriminate.
  - vm_compute. reflexivity.
Defined.

(** X13. Whatever happens, [retrieve] makes exactly one service call, the
    embedding of the query with the retriever's model. Its log lines are
    the announcement, then the two error lines when that call failed, or
    the count of returned chunks when a list is returned; the count logged
    is the length of the list. *)
Theorem retrieve_accounts w query top_k :
  requests (snd (retrieve query top_k w))
  = requests w ++ [EmbedRequest (embed_model (retriever w)) query] /\
  logger (snd (retrieve query top_k w))
  = logger w
    ++ (INFO, MsgRetrieving top_k query)
       :: match query_reply w query, fst (retrieve query top_k w) with
          | Failed e, _ =>
              [(ERROR, MsgEmbeddingFailed e); (ERROR, MsgNoQueryEmbedding)]
          | Replied _, Ok results => [(INFO, MsgRetrieved (length results))]
          | Replied _, _ => []
          end.
Proof.
  unfold query_reply.
  cbv [retrieve bind log modify _embed get embed_content ret lift]. simpl.
  destruct (embedding_service w (requests w) (embed_model (retriever w))
              query) as [q|e]; simpl.
  - destruct (score_loop q _ 0 _ []); simpl;
      rewrite <- ?app_assoc; split; reflexivity.
  - rewrite <- !app_assoc. split; reflexivity.
Qed.

End RetrievalFacts.

(* ================================================================== *)
(** ** Construction and reloading: calls, log lines, and what is rebuilt *)

Module LoadingFacts.
Import Py PyFacts.
Import App.
Import Chunker.
Import ConstructionFacts.

(** The error lines the loading loop writes: one per failed call, each call
    seeing the calls before it. *)
Fixpoint embed_failures (service : list request -> str -> str -> reply vector)
    (model : str) (history : list request) (todo : list str)
  : list log_record :=
  match todo with
  | [] => []
  | c :: rest =>
      match service history model c with
      | Replied _ => []
      | Failed e => [(ERROR, MsgEmbeddingFailed e)]
      end ++ embed_failures service model (history ++ [EmbedRequest model c])
               rest
  end.

Definition absent {A : Type} (o : option A) : bool :=
  match o with None => true | Some _ => false end.

Lemma embed_failures_count service model : forall todo history,
  length (embed_failures service model history todo)
  = length (filter absent (embed_replies service model history todo)).
Proof.
  induction todo as [|c todo IH]; intros history; simpl; [reflexivity|].
  rewrite length_app, IH.
  destruct (service history model c); reflexivity.
Qed.

Lemma embed_failures_errors service model : forall todo history,
  Forall (fun line => exists e, line = (ERROR, MsgEmbeddingFailed e))
         (embed_failures service model history todo).
Proof.
  induction todo as [|c todo IH]; intros history; simpl; [constructor|].
  apply Forall_app. split; [|apply IH].
  destruct (service history model c) as [v|e]; [constructor|].
  constructor; [now exists e | constructor].
Qed.

Lemma _embed_logger content w :
  logger (snd (_embed content w))
  = logger w
    ++ match embedding_service w (requests w) (embed_model (retriever w))
               content with
       | Replied _ => []
       | Failed e => [(ERROR, MsgEmbeddingFailed e)]
       end.
Proof.
  cbv [_embed bind get embed_content ret log modify]. simpl.
  destruct (embedding_service w (requests w) (embed_model (retriever w))
              content); simpl; [now rewrite app_nil_r | reflexivity].
Qed.

(** The fields that neither a service call, nor a log line, nor an update
    of the retriever object changes. *)
Definition untouched_by_loading {X : Type} (field : world -> X) : Prop :=
  Frame.untouched_by_requests field /\ Frame.untouched_by_logging field /\
  forall r w, field (with_retriever r w) = field w.

Lemma embed_loop_preserves {X : Type} (field : world -> X) :
  untouched_by_loading field ->
  forall todo, Frame.preserves field (embed_loop todo).
Proof.
  intros (Hr & Hl & Ho). induction todo as [|c todo IH]; simpl.
  - apply Frame.preserves_ret.
  - apply Frame.preserves_bind; [now apply Frame._embed_preserves|].
    intros emb. apply Frame.preserves_bind; [|intros _; exact IH].
    unfold append_embedding, set_embeddings.
    apply Frame.preserves_bind; [apply Frame.preserves_get|]. intros r.
    apply Frame.preserves_modify. intros w. apply Ho.
Qed.

Lemma _load_and_embed_chunks_preserves {X : Type} (field : world -> X) :
  untouched_by_loading field ->
  Frame.preserves field _load_and_embed_chunks.
Proof.
  intros H. pose proof H as (Hr & Hl & Ho). unfold _load_and_embed_chunks.
  apply Frame.preserves_bind; [apply Frame.preserves_get|]. intros r.
  apply Frame.preserves_bind; [apply Frame.preserves_get|]. intros fs.
  destruct (fs (filepath r)) as [content|].
  - apply Frame.preserves_bind.
    { unfold run_chunk_text. destruct (chunk_text content _ _);
        [apply Frame.preserves_ret | apply Frame.preserves_lift]. }
    intros cs.
    apply Frame.preserves_bind;
      [apply Frame.preserves_modify; intros w; apply Ho|]. intros _.
    apply Frame.preserves_bind;
      [apply Frame.preserves_modify; intros w; apply Ho|]. intros _.
    apply Frame.preserves_bind; [now apply Frame.log_preserves|]. intros _.
    now apply embed_loop_preserves.
  - apply Frame.preserves_bind; [now apply Frame.log_preserves|]. intros _.
    apply Frame.preserves_raise.
Qed.

(** The loop makes one call per chunk, in order, and writes one error line
    per failed call. *)
Lemma embed_loop_trace : forall todo w,
  requests (snd (embed_loop todo w))
  = requests w ++ List.map (EmbedRequest (embed_model (retriever w))) todo /\
  logger (snd (embed_loop todo w))
  = logger w
    ++ embed_failures (embedding_service w) (embed_model (retriever w))
         (requests w) todo.
Proof.
  induction todo as [|c todo IH]; intros w.
  - simpl. now rewrite !app_nil_r.
  - assert (Hstep : exists w2,
              embed_loop (c :: todo) w = embed_loop todo w2 /\
              requests w2
              = requests w ++ [EmbedRequest (embed_model (retriever w)) c] /\
              logger w2
              = logger w
                ++ match embedding_service w (requests w)
                           (embed_model (retriever w)) c with
                   | Replied _ => []
                   | Failed e => [(ERROR, MsgEmbeddingFailed e)]
                   end /\
              embed_model (retriever w2) = embed_model (retriever w) /\
              embedding_service w2 = embedding_service w).
    { cbn [embed_loop]. unfold bind at 1. rewrite _embed_run.
      cbv [append_embedding set_embeddings bind get modify]. cbn beta iota.
      eexists. split; [reflexivity|]. simpl.
      rewrite _embed_requests, _embed_logger.
      repeat split.
      - apply (Frame._embed_preserves (fun w => embed_model (retriever w)));
          intros ? ?; reflexivity.
      - apply (Frame._embed_preserves embedding_service);
          intros ? ?; reflexivity. }
    destruct Hstep as (w2 & -> & Hq2 & Hl2 & Hm2 & Hs2).
    destruct (IH w2) as [Hq Hl].
    rewrite Hq, Hl, Hq2, Hl2, Hm2, Hs2. simpl.
    rewrite <- !app_assoc. split; reflexivity.
Qed.

(** Running the loader where the file can be read. *)
Lemma load_run w content :
  files w (filepath (retriever w)) = Some content ->
  exists cs w',
    chunk_text content default_chunk_size default_overlap = Some cs /\
    _load_and_embed_chunks w = (Ok tt, w') /\
    chunks (retriever w') = cs /\
    embeddings (retriever w')
    = embed_replies (embedding_service w) (embed_model (retriever w))
        (requests w) cs /\
    filepath (retriever w') = filepath (retriever w) /\
    embed_model (retriever w') = embed_model (retriever w) /\
    requests w'
    = requests w ++ List.map (EmbedRequest (embed_model (retriever w))) cs /\
    logger w'
    = logger w ++ (INFO, MsgChunking (length cs))
        :: embed_failures (embedding_service w) (embed_model (retriever w))
             (requests w) cs.
Proof.
  intros Hfile. destruct (default_chunking_returns content) as [cs Hcs].
  exists cs.
  cbv [_load_and_embed_chunks bind get].
  rewrite Hfile. unfold run_chunk_text. rewrite Hcs.
  cbv [ret set_chunks set_embeddings bind modify log].
  cbn [files with_logger with_retriever retriever filepath fst snd
       chunks embeddings embed_model].
  match goal with
  | |- exists w', _ /\ embed_loop cs ?w2 = _ /\ _ =>
      destruct (embed_loop_run cs w2) as [w' (Hrun & He & Hc & Hf & Hm)];
      pose proof (embed_loop_trace cs w2) as [Hq Hl]
  end.
  rewrite Hrun in Hq, Hl.
  cbn [files with_logger with_retriever retriever filepath fst snd
       chunks embeddings embed_model requests embedding_service logger app]
    in He, Hc, Hf, Hm, Hq, Hl.
  exists w'. rewrite <- app_assoc in Hl. repeat split; assumption.
Qed.

(** X14. Construction on a path where there is no file raises
    [FileNotFoundError] for that path before any service call is made; the
    object is left with the path, the model name and two empty lists, and
    the log holds the announcement and one error line. *)
Theorem construction_without_file w path :
  files w path = None ->
  exists w',
    __init__ path w = (Raise (FileNotFoundError path), w') /\
    requests w' = requests w /\
    retriever w' = {| filepath := path; embed_model := text_embedding_model;
                      chunks := []; embeddings := [] |} /\
    logger w'
    = logger w ++ [(INFO, MsgInitializing path);
                   (ERROR, MsgFileNotFound path)].
Proof.
  intros Hfile. eexists.
  cbv [__init__ _load_and_embed_chunks bind modify log get raise].
  cbn [files with_logger with_retriever retriever filepath fst snd].
  rewrite Hfile. split; [reflexivity|]. simpl.
  rewrite <- app_assoc. repeat split.
Qed.

Lemma construction_without_file_witness :
  fst (__init__ (lit "missing.txt") (Scenario.blank [] []))
  = Raise (FileNotFoundError (lit "missing.txt")).
Proof.
  destruct (construction_without_file (Scenario.blank [] [])
              (lit "missing.txt")) as [w' [Hrun _]]; [reflexivity|].
  now rewrite Hrun.
Defined.

(** X15. Construction on a readable file makes one embedding call per
    chunk, in chunk order and with the text-embedding model, and no other
    call; it logs the announcement, the chunk count, and one error line per
    failed call, so the error lines are as many as the absent entries of
    the embedding list. The page, the conversation, the response log and
    the files are not touched. *)
Theorem construction_calls_in_order w path content :
  files w path = Some content ->
  exists cs w',
    chunk_text content default_chunk_size default_overlap = Some cs /\
    __init__ path w = (Ok tt, w') /\
    requests w'
    = requests w ++ List.map (EmbedRequest text_embedding_model) cs /\
    (exists errors,
       logger w'
       = logger w ++ (INFO, MsgInitializing path)
           :: (INFO, MsgChunking (length cs)) :: errors /\
       Forall (fun line => exists e, line = (ERROR, MsgEmbeddingFailed e))
              errors /\
       length errors
       = length (filter absent (embeddings (retriever w')))) /\
    page w' = page w /\ conversation w' = conversation w /\
    response_logger w' = response_logger w /\ files w' = files w.
Proof.
  intros Hfile.
  cbv [__init__ bind modify log].
  match goal with
  | |- exists cs w', _ /\ _load_and_embed_chunks ?w0 = _ /\ _ =>
      set (w1 := w0)
  end.
  destruct (load_run w1 content Hfile)
    as (cs & w' & Hcs & Hrun & _ & He & _ & _ & Hq & Hl).
  exists cs, w'. split; [exact Hcs|]. split; [exact Hrun|].
  assert (Hkeep : forall X (field : world -> X),
            untouched_by_loading field -> field w' = field w1).
  { intros X field H.
    pose proof (_load_and_embed_chunks_preserves field H w1) as Hp.
    now rewrite Hrun in Hp. }
  split; [exact Hq|]. split.
  - eexists. split; [rewrite Hl; simpl; rewrite <- app_assoc; reflexivity|].
    split.
    + apply embed_failures_errors.
    + rewrite He. apply embed_failures_count.
  - repeat split;
      (rewrite Hkeep; [reflexivity|]; repeat split; intros ? ?; reflexivity).
Qed.

Lemma construction_calls_in_order_witness :
  exists cs w',
    chunk_text Scenario.chapter default_chunk_size default_overlap = Some cs /\
    __init__ Scenario.chapter_path (Scenario.blank [] []) = (Ok tt, w') /\
    requests w' = [] ++ List.map (EmbedRequest text_embedding_model) cs.
Proof.
  destruct (construction_calls_in_order (Scenario.blank [] [])
              Scenario.chapter_path Scenario.chapter)
    as (cs & w' & Hcs & Hrun & Hq & _); [reflexivity|].
  exists cs, w'. repeat split; assumption.
Defined.

(** A service whose reply does not depend on the calls made before. *)
Definition forgetful (w : world) : Prop :=
  forall h1 h2 model content,
    embedding_service w h1 model content
    = embedding_service w h2 model content.

Lemma embed_replies_forgetful service model :
  (forall h1 h2 m c, service h1 m c = service h2 m c) ->
  forall todo h1 h2,
    embed_replies service model h1 todo = embed_replies service model h2 todo.
Proof.
  intros H. induction todo as [|c todo IH]; intros h1 h2; simpl;
    [reflexivity|].
  rewrite (H h1 h2). f_equal. apply IH.
Qed.

(** X16. Reloading rebuilds both lists from the file: whatever the object
    held before, afterwards there is one embedding entry per chunk; and
    when the service's replies do not depend on earlier calls, loading a
    second time leaves the object exactly as the first load did. *)
Theorem reload_rebuilds w content :
  files w (filepath (retriever w)) = Some content ->
  exists w1,
    _load_and_embed_chunks w = (Ok tt, w1) /\
    length (embeddings (retriever w1)) = length (chunks (retriever w1)) /\
    (forgetful w ->
     exists w2, _load_and_embed_chunks w1 = (Ok tt, w2) /\
                retriever w2 = retriever w1).
Proof.
  intros Hfile.
  destruct (load_run w content Hfile)
    as (cs & w1 & Hcs & Hrun & Hc & He & Hf & Hm & _).
  exists w1. split; [exact Hrun|]. split.
  - rewrite He, Hc. apply embed_replies_length.
  - intros Hforget.
    assert (Hkeep : forall X (field : world -> X),
              untouched_by_loading field -> field w1 = field w).
    { intros X field H.
      pose proof (_load_and_embed_chunks_preserves field H w) as Hp.
      now rewrite Hrun in Hp. }
    assert (Hfiles : files w1 = files w)
      by (apply Hkeep; repeat split; intros ? ?; reflexivity).
    assert (Hserv : embedding_service w1 = embedding_service w)
      by (apply Hkeep; repeat split; intros ? ?; reflexivity).
    assert (Hfile1 : files w1 (filepath (retriever w1)) = Some content)
      by now rewrite Hfiles, Hf.
    destruct (load_run w1 content Hfile1)
      as (cs' & w2 & Hcs' & Hrun' & Hc' & He' & Hf' & Hm' & _).
    exists w2. split; [exact Hrun'|].
    assert (cs' = cs) by congruence. subst cs'.
    rewrite Hserv, Hm in He'.
    rewrite (embed_replies_forgetful (embedding_service w) _ Hforget _
               (requests w1) (requests w)) in He'.
    destruct (retriever w2), (retriever w1). simpl in *. congruence.
Qed.

Lemma reload_rebuilds_witness :
  exists w1,
    _load_and_embed_chunks Scenario.offline_world = (Ok tt, w1) /\
    length (embeddings (retriever w1)) = length (chunks (retriever w1)).
Proof.
  destruct (reload_rebuilds Scenario.offline_world Scenario.chapter)
    as (w1 & Hrun & Hlen & _); [vm_compute; reflexivity|].
  exists w1. split; assumption.
Defined.

End LoadingFacts.

(* ================================================================== *)
(** ** The prompt builder *)

Module PromptFacts.
Import Py PyFacts.
Import App.

Lemma passages_texts : forall r1 r2 start,
  List.map text r1 = List.map text r2 ->
  passages start r1 = passages start r2.
Proof.
  induction r1 as [|c1 r1 IH]; intros [|c2 r2] start H; simpl in *;
    try discriminate; [reflexivity|].
  injection H as Hc Hr. now rewrite Hc, (IH r2 (S start) Hr).
Qed.

(** X17. The prompt depends on the retrieved chunks through their texts
    and order only: scores, chunk ids and file names do not reach it. *)
Theorem prompt_ignores_scores query r1 r2 :
  List.map text r1 = List.map text r2 ->
  build_teaching_prompt query r1 = build_teaching_prompt query r2.
Proof.
  intros H. unfold build_teaching_prompt.
  now rewrite (passages_texts r1 r2 1 H).
Qed.

Lemma prompt_ignores_scores_witness :
  build_teaching_prompt Scenario.sample_question
    [{| chunk_id := 0; filename := lit "a.txt"; text := lit "Media informs.";
        score := 1%float |}]
  = build_teaching_prompt Scenario.sample_question
      [{| chunk_id := 7; filename := lit "b.txt"; text := lit "Media informs.";
          score := (-1)%float |}].
Proof. apply prompt_ignores_scores. reflexivity. Defined.

Lemma join_cons sep w ws : ws <> [] ->
  join sep (w :: ws) = w ++ sep ++ join sep ws.
Proof. destruct ws; [congruence | reflexivity]. Qed.

Lemma join_snoc sep : forall ws w, ws <> [] ->
  join sep (ws ++ [w]) = join sep ws ++ sep ++ w.
Proof.
  induction ws as [|x ws IH]; intros w Hne; [congruence|].
  destruct ws as [|y ws]; [reflexivity|].
  change ((x :: y :: ws) ++ [w]) with (x :: ((y :: ws) ++ [w])).
  rewrite join_cons by (simpl; discriminate).
  rewrite IH by discriminate.
  rewrite (join_cons sep x (y :: ws)) by discriminate.
  now rewrite <- !app_assoc.
Qed.

(** [strip] takes one line break off each end of a text that begins and
    ends with characters that are not white space. *)
Lemma strip_frame c d s t body :
  body = c :: s -> body = t ++ [d] ->
  isspace c = false -> isspace d = false ->
  strip (newline ++ body ++ newline) = body.
Proof.
  intros Hhead Hlast Hc Hd. unfold strip.
  assert (H1 : lstrip (newline ++ body ++ newline) = body ++ newline).
  { rewrite Hhead. unfold newline. cbn [app lstrip].
    change (isspace 10%N) with true. cbv iota. now rewrite Hc. }
  assert (H2 : lstrip (rev (body ++ newline)) = rev body).
  { rewrite rev_app_distr, Hlast, rev_app_distr. unfold newline.
    cbn [rev app lstrip]. change (isspace 10%N) with true. cbv iota.
    now rewrite Hd. }
  rewrite H1, H2. apply rev_involutive.
Qed.

(** X18. [strip] removes exactly the line break before [# Identity] and
    the one after [# Answer]: the prompt is the template's lines, the
    numbered passages, the question heading, the query and the answer
    heading joined by line breaks, and white space inside the query or the
    passages is kept. *)
Theorem prompt_is_template query retrieved :
  build_teaching_prompt query retrieved
  = join newline
      (tl template_head
       ++ [passages 1 retrieved; []; lit "# Question"; query; [];
           lit "# Answer"]).
Proof.
  unfold build_teaching_prompt.
  set (p := passages 1 retrieved).
  set (body := join newline
                 (tl template_head
                  ++ [p; []; lit "# Question"; query; []; lit "# Answer"])).
  assert (Hjoin : join newline
                    (template_head
                     ++ [p; []; lit "# Question"; query; [];
                         lit "# Answer"; []])
                  = newline ++ body ++ newline).
  { change (template_head
            ++ [p; []; lit "# Question"; query; []; lit "# Answer"; []])
      with ([] :: ((tl template_head
                    ++ [p; []; lit "# Question"; query; []; lit "# Answer"])
                   ++ [[]])).
    rewrite join_cons by discriminate.
    rewrite join_snoc by discriminate.
    fold body. now rewrite app_nil_r. }
  rewrite Hjoin.
  eapply (strip_frame 35%N 114%N).
  - unfold body. reflexivity.
  - unfold body.
    change (tl template_head
            ++ [p; []; lit "# Question"; query; []; lit "# Answer"])
      with ((tl template_head ++ [p; []; lit "# Question"; query; []])
            ++ [lit "# Answer"]).
    rewrite join_snoc by discriminate.
    change (lit "# Answer") with (lit "# Answe" ++ [114%N]).
    rewrite !app_assoc. reflexivity.
  - reflexivity.
  - reflexivity.
Qed.

End PromptFacts.

(* ================================================================== *)
(** ** The Submit-Answer handler: every path *)

Module HandlerFacts.
Import Py PyFacts.
Import App.
Import RetrieverFacts ConstructionFacts AppFacts.

(** The calls made up to and including the generation call. *)
Definition history_at_grading (w : world) (question : str) : list request :=
  let w1 := snd (retrieve question 3 w) in
  requests w1
  ++ [GenerateRequest generation_model
        (build_teaching_prompt question
           (returned (fst (retrieve question 3 w))))].

(** The reply to the call that embeds the user's answer. *)
Definition user_reply (w : world) (question user_answer : str)
  : reply vector :=
  embedding_service w (history_at_grading w question)
    (embed_model (retriever w)) user_answer.

(** The reply to the call that embeds the model's answer. *)
Definition model_reply (w : world) (question user_answer model_answer : str)
  : reply vector :=
  embedding_service w
    (history_at_grading w question
     ++ [EmbedRequest (embed_model (retriever w)) user_answer])
    (embed_model (retriever w)) model_answer.

(** The similarity the handler arrives at from the two replies: none when
    either embedding failed, otherwise what [_cosine_sim] gives. *)
Definition similarity_of (user model : reply vector)
  : outcome (option float) :=
  match user, model with
  | Replied u, Replied m =>
      match _cosine_sim u m with
      | Ok s => Ok (Some s)
      | Raise e => Raise e
      | Diverge => Diverge
      end
  | _, _ => Ok None
  end.

(** The line the handler shows for a similarity. *)
Definition feedback_widget (sim : option float) : widget :=
  match sim with
  | Some s => FeedbackLine (grade sim) s
  | None => NoFeedbackInfo
  end.

(** The [try] block once the generation call has replied. *)
Lemma answer_and_grade_run question user_answer prompt w answer :
  generation_service w (requests w) generation_model prompt
  = Replied answer ->
  let model := embed_model (retriever w) in
  let history := requests w ++ [GenerateRequest generation_model prompt] in
  let user := embedding_service w history model user_answer in
  let reply := embedding_service w
                 (history ++ [EmbedRequest model user_answer]) model answer in
  exists w',
    requests w'
    = history ++ [EmbedRequest model user_answer; EmbedRequest model answer]
    /\
    match similarity_of user reply with
    | Ok sim =>
        answer_and_grade question user_answer prompt w = (Ok tt, w') /\
        conversation w'
        = conversation w
          ++ [{| question := question; user_answer := user_answer;
                 model_answer := answer; feedback := grade sim;
                 similarity := sim |}] /\
        page w'
        = page w ++ [ModelAnswerHeading; ModelAnswerBody answer;
                     feedback_widget sim] /\
        response_logger w'
        = response_logger w
          ++ [(INFO, MsgAnswered question user_answer answer sim)]
    | Raise e =>
        answer_and_grade question user_answer prompt w = (Raise e, w') /\
        conversation w' = conversation w /\
        page w' = page w ++ [ModelAnswerHeading; ModelAnswerBody answer] /\
        response_logger w' = response_logger w
    | Diverge => False
    end.
Proof.
  intros Hgen. cbv zeta.
  cbv [answer_and_grade bind generate_content]. rewrite Hgen.
  cbv [st modify _embed bind get embed_content ret log lift append_turn
       response_log similarity_of].
  cbn [requests retriever embedding_service record_request with_requests
       with_page with_logger with_conversation with_response_logger
       embed_model fst snd page logger conversation response_logger].
  destruct (embedding_service w
              (requests w ++ [GenerateRequest generation_model prompt])
              (embed_model (retriever w)) user_answer) as [u|eu];
  cbn [requests retriever embedding_service record_request with_requests
       with_page with_logger with_conversation with_response_logger
       embed_model fst snd page logger conversation response_logger];
  destruct (embedding_service w
              ((requests w ++ [GenerateRequest generation_model prompt])
               ++ [EmbedRequest (embed_model (retriever w)) user_answer])
              (embed_model (retriever w)) answer) as [m|em];
  cbn [requests retriever embedding_service record_request with_requests
       with_page with_logger with_conversation with_response_logger
       embed_model fst snd page logger conversation response_logger].
  1: assert (Hnd : _cosine_sim u m <> Diverge)
       by (unfold _cosine_sim;
           destruct (norm u * norm m =? 0)%float; [discriminate|];
           destruct (dot u m); discriminate).
  1: destruct (_cosine_sim u m) as [s|e|]; [| |congruence].
  all: eexists; split; cycle 1.
  all: try (split; [reflexivity|]).
  all: cbn [requests retriever embedding_service record_request with_requests
       with_page with_logger with_conversation with_response_logger
       embed_model fst snd page logger conversation response_logger].
  all: repeat split; rewrite <- ?app_assoc; reflexivity.
Qed.

(** The one call [retrieve] makes. *)
Lemma retrieve_requests w query top_k :
  requests (snd (retrieve query top_k w))
  = requests w ++ [EmbedRequest (embed_model (retriever w)) query].
Proof.
  cbv [retrieve bind log modify _embed get embed_content ret lift]. simpl.
  destruct (embedding_service w (requests w) (embed_model (retriever w))
              query) as [q|e]; simpl; [|reflexivity].
  destruct (score_loop q _ 0 _ []); reflexivity.
Qed.

(** What [retrieve] leaves alone, and what it adds to the calls. *)
Lemma retrieve_frame w query :
  let w1 := snd (retrieve query 3 w) in
  retriever w1 = retriever w /\
  embedding_service w1 = embedding_service w /\
  page w1 = page w /\ conversation w1 = conversation w /\
  response_logger w1 = response_logger w.
Proof.
  cbv zeta. repeat split;
    apply Frame.retrieve_preserves; intros ? ?; reflexivity.
Qed.

(** With a non-blank answer and chunks found, the handler is the guarded
    [try] block run in the world [retrieve] left. *)
Lemma submit_answer_found w question user_answer :
  truthy (strip user_answer) = true ->
  returned (fst (retrieve question 3 w)) <> [] ->
  submit_answer question user_answer w
  = try_except
      (answer_and_grade question user_answer
         (build_teaching_prompt question
            (returned (fst (retrieve question 3 w)))))
      (report_error question) (snd (retrieve question 3 w)).
Proof.
  intros Hanswer Hfound. unfold submit_answer. rewrite Hanswer.
  unfold bind at 1.
  destruct (retrieve question 3 w) as [[[|r results]| |] w1];
    cbn [fst snd returned] in *; congruence.
Qed.

(** The handler from the point where [retrieve] has returned chunks and
    the generation call has replied. *)
Lemma submit_answer_graded w question user_answer answer :
  truthy (strip user_answer) = true ->
  returned (fst (retrieve question 3 w)) <> [] ->
  generation_reply w question = Replied answer ->
  let model := embed_model (retriever w) in
  let prompt := build_teaching_prompt question
                  (returned (fst (retrieve question 3 w))) in
  exists w',
    requests w'
    = requests w
      ++ [EmbedRequest model question; GenerateRequest generation_model prompt;
          EmbedRequest model user_answer; EmbedRequest model answer] /\
    match similarity_of (user_reply w question user_answer)
            (model_reply w question user_answer answer) with
    | Ok sim =>
        submit_answer question user_answer w = (Ok tt, w') /\
        conversation w'
        = conversation w
          ++ [{| question := question; user_answer := user_answer;
                 model_answer := answer; feedback := grade sim;
                 similarity := sim |}] /\
        page w'
        = page w ++ [ModelAnswerHeading; ModelAnswerBody answer;
                     feedback_widget sim] /\
        response_logger w'
        = response_logger w
          ++ [(INFO, MsgAnswered question user_answer answer sim)]
    | Raise e =>
        submit_answer question user_answer w = (Ok tt, w') /\
        conversation w' = conversation w /\
        page w'
        = page w ++ [ModelAnswerHeading; ModelAnswerBody answer;
                     ErrorNotice e] /\
        response_logger w'
        = response_logger w ++ [(ERROR, MsgGenerationError question e)]
    | Diverge => False
    end.
Proof.
  intros Hanswer Hfound Hgen. cbv zeta.
  unfold user_reply, model_reply, history_at_grading.
  unfold generation_reply in Hgen. cbv zeta in Hgen.
  destruct (retrieve_frame w question) as (Hr & Hs & Hp & Hc & Hl).
  pose proof (retrieve_requests w question 3) as Hq.
  rewrite (submit_answer_found w question user_answer Hanswer Hfound).
  cbv zeta in Hr, Hs, Hp, Hc, Hl.
  set (w1 := snd (retrieve question 3 w)) in *.
  set (prompt := build_teaching_prompt question
                   (returned (fst (retrieve question 3 w)))) in *.
  destruct (answer_and_grade_run question user_answer prompt w1 answer Hgen)
    as (w2 & Hq2 & Hrun).
  cbv zeta in Hq2, Hrun.
  rewrite ?Hr, ?Hs in Hq2. rewrite ?Hr, ?Hs in Hrun.
  unfold try_except.
  destruct (similarity_of _ _) as [sim|e|]; [| |contradiction].
  - destruct Hrun as (-> & Hc2 & Hp2 & Hl2). exists w2.
    rewrite Hq2, Hc2, Hp2, Hl2, Hq, Hc, Hp, Hl.
    rewrite <- !app_assoc. repeat split.
  - destruct Hrun as (-> & Hc2 & Hp2 & Hl2).
    cbv [report_error bind st response_log modify]. eexists.
    split; [|split; [reflexivity|]]; simpl;
      rewrite ?Hq2, ?Hc2, ?Hp2, ?Hl2, ?Hq, ?Hc, ?Hp, ?Hl;
      rewrite <- ?app_assoc; repeat split.
Qed.

(** X19. When a non-blank answer is submitted, retrieval returns chunks,
    the generation call replies, and the grading step gives a similarity
    (a score, or none because an embedding call failed), the handler makes
    exactly four service calls in order (query embedding, generation, user
    answer embedding, model answer embedding), appends one turn carrying
    the question, both answers, the similarity and its band, shows the
    answer and the feedback line, and writes one response record. *)
Theorem answered_submission_records_turn w question user_answer answer sim :
  truthy (strip user_answer) = true ->
  returned (fst (retrieve question 3 w)) <> [] ->
  generation_reply w question = Replied answer ->
  similarity_of (user_reply w question user_answer)
    (model_reply w question user_answer answer) = Ok sim ->
  exists w',
    submit_answer question user_answer w = (Ok tt, w') /\
    requests w'
    = requests w
      ++ [EmbedRequest (embed_model (retriever w)) question;
          GenerateRequest generation_model
            (build_teaching_prompt question
               (returned (fst (retrieve question 3 w))));
          EmbedRequest (embed_model (retriever w)) user_answer;
          EmbedRequest (embed_model (retriever w)) answer] /\
    conversation w'
    = conversation w
      ++ [{| question := question; user_answer := user_answer;
             model_answer := answer; feedback := grade sim;
             similarity := sim |}] /\
    page w'
    = page w ++ [ModelAnswerHeading; ModelAnswerBody answer;
                 feedback_widget sim] /\
    response_logger w'
    = response_logger w
      ++ [(INFO, MsgAnswered question user_answer answer sim)].
Proof.
  intros Hanswer Hfound Hgen Hsim.
  destruct (submit_answer_graded w question user_answer answer
              Hanswer Hfound Hgen) as (w' & Hq & Hrun).
  cbv zeta in Hq, Hrun. rewrite Hsim in Hrun.
  destruct Hrun as (Hrun & Hc & Hp & Hl).
  exists w'. repeat split; assumption.
Qed.

Lemma answered_submission_records_turn_witness :
  exists w',
    submit_answer Scenario.sample_question Scenario.sample_answer
      (Scenario.loaded
         [Replied [1; 0]; Replied [0; 1]; Replied [0; 1];
          Replied [3; 4]; Replied [3; 4]]%float
         [Replied (lit "Media is a means of communication.")])
    = (Ok tt, w') /\
    List.map similarity (conversation w') = [Some 1%float].
Proof.
  destruct (answered_submission_records_turn
              (Scenario.loaded
                 [Replied [1; 0]; Replied [0; 1]; Replied [0; 1];
                  Replied [3; 4]; Replied [3; 4]]%float
                 [Replied (lit "Media is a means of communication.")])
              Scenario.sample_question Scenario.sample_answer
              (lit "Media is a means of communication.") (Some 1%float))
    as (w' & Hrun & _ & Hc & _).
  - reflexivity.
  - vm_compute. discriminate.
  - vm_compute. reflexivity.
  - vm_compute. reflexivity.
  - exists w'. split; [exact Hrun|]. rewrite Hc. reflexivity.
Defined.

(** X20. An exception raised while grading (numpy's shape error from
    [_cosine_sim]) is caught by the same handler as a generation failure:
    the handler ends normally, the model answer stays on the page followed
    by the error notice, one error record is written, and no turn is
    appended although the answer was generated. *)
Theorem grading_error_drops_turn w question user_answer answer e :
  truthy (strip user_answer) = true ->
  returned (fst (retrieve question 3 w)) <> [] ->
  generation_reply w question = Replied answer ->
  similarity_of (user_reply w question user_answer)
    (model_reply w question user_answer answer) = Raise e ->
  exists w',
    submit_answer question user_answer w = (Ok tt, w') /\
    conversation w' = conversation w /\
    page w'
    = page w ++ [ModelAnswerHeading; ModelAnswerBody answer; ErrorNotice e] /\
    response_logger w'
    = response_logger w ++ [(ERROR, MsgGenerationError question e)].
Proof.
  intros Hanswer Hfound Hgen Hsim.
  destruct (submit_answer_graded w question user_answer answer
              Hanswer Hfound Hgen) as (w' & Hq & Hrun).
  cbv zeta in Hq, Hrun. rewrite Hsim in Hrun.
  destruct Hrun as (Hrun & Hc & Hp & Hl).
  exists w'. repeat split; assumption.
Qed.

Lemma grading_error_drops_turn_witness :
  exists w',
    submit_answer Scenario.sample_question Scenario.sample_answer
      (Scenario.loaded
         [Replied [1; 0]; Replied [0; 1]; Replied [0; 1];
          Replied [3; 4]; Replied [1]]%float
         [Replied (lit "Media is a means of communication.")])
    = (Ok tt, w') /\
    conversation w' = [].
Proof.
  destruct (grading_error_drops_turn
              (Scenario.loaded
                 [Replied [1; 0]; Replied [0; 1]; Replied [0; 1];
                  Replied [3; 4]; Replied [1]]%float
                 [Replied (lit "Media is a means of communication.")])
              Scenario.sample_question Scenario.sample_answer
              (lit "Media is a means of communication.")
              (shapes_not_aligned 2 1))
    as (w' & Hrun & Hc & _).
  - reflexivity.
  - vm_compute. discriminate.
  - vm_compute. reflexivity.
  - vm_compute. reflexivity.
  - exists w'. split; [exact Hrun|]. rewrite Hc. reflexivity.
Defined.

(** X21. When a non-blank answer is submitted and retrieval returns no
    chunk, the handler stops after the one query-embedding call: no
    generation call is made, the warning is shown, one response record is
    written and the conversation is as before. *)
Theorem no_chunks_skips_generation w question user_answer :
  truthy (strip user_answer) = true ->
  fst (retrieve question 3 w) = Ok [] ->
  exists w',
    submit_answer question user_answer w = (Ok tt, w') /\
    requests w'
    = requests w ++ [EmbedRequest (embed_model (retriever w)) question] /\
    conversation w' = conversation w /\
    page w' = page w ++ [NoChunksWarning] /\
    response_logger w'
    = response_logger w ++ [(INFO, MsgNoChunksFound question user_answer)].
Proof.
  intros Hanswer Hnone.
  destruct (retrieve_frame w question) as (Hr & Hs & Hp & Hc & Hl).
  pose proof (retrieve_requests w question 3) as Hq.
  unfold submit_answer. rewrite Hanswer. unfold bind at 1.
  destruct (retrieve question 3 w) as [o w1]. cbn [fst snd] in *. subst o.
  cbv [bind st response_log modify]. eexists.
  split; [reflexivity|]. simpl. rewrite Hq, Hc, Hp, Hl. repeat split.
Qed.

Lemma no_chunks_skips_generation_witness :
  exists w',
    submit_answer Scenario.sample_question Scenario.sample_answer
      Scenario.offline_world = (Ok tt, w') /\
    page w' = page Scenario.offline_world ++ [NoChunksWarning].
Proof.
  destruct (no_chunks_skips_generation Scenario.offline_world
              Scenario.sample_question Scenario.sample_answer)
    as (w' & Hrun & _ & _ & Hp & _).
  - reflexivity.
  - vm_compute. reflexivity.
  - exists w'. split; assumption.
Defined.

(** The [try] block with its handler always ends normally, and appends at
    most one turn. *)
Lemma guarded_grading_ends question user_answer prompt w :
  exists w',
    try_except (answer_and_grade question user_answer prompt)
      (report_error question) w = (Ok tt, w') /\
    (conversation w' = conversation w \/
     exists t, conversation w' = conversation w ++ [t] /\
               World.question t = question /\
               World.user_answer t = user_answer /\
               feedback t = grade (similarity t)).
Proof.
  destruct (generation_service w (requests w) generation_model prompt)
    as [answer|e] eqn:Hgen.
  - destruct (answer_and_grade_run question user_answer prompt w answer Hgen)
      as (w' & _ & Hrun).
    cbv zeta in Hrun. unfold try_except.
    destruct (similarity_of _ _) as [sim|e|]; [| |contradiction].
    + destruct Hrun as (-> & Hc & _). exists w'. split; [reflexivity|].
      right. eexists. split; [exact Hc|]. repeat split.
    + destruct Hrun as (-> & Hc & _).
      cbv [report_error bind st response_log modify]. eexists.
      split; [reflexivity|]. left. exact Hc.
  - cbv [try_except answer_and_grade bind generate_content]. rewrite Hgen.
    cbv [report_error bind st response_log modify]. eexists.
    split; [reflexivity|]. left. reflexivity.
Qed.

(** X22. One press of Submit never rewrites the history: afterwards the
    conversation is the one before, or the one before with a single turn
    appended whose question and user answer are the submitted ones and
    whose band is the grade of its recorded similarity. *)
Theorem submit_appends_at_most_one_turn w question user_answer :
  conversation (snd (submit_answer question user_answer w)) = conversation w
  \/ exists t,
       conversation (snd (submit_answer question user_answer w))
       = conversation w ++ [t] /\
       World.question t = question /\ World.user_answer t = user_answer /\
       feedback t = grade (similarity t).
Proof.
  destruct (retrieve_frame w question) as (_ & _ & _ & Hc & _).
  cbv zeta in Hc.
  remember (submit_answer question user_answer w) as out eqn:E.
  unfold submit_answer in E.
  destruct (truthy (strip user_answer)); [|subst out; now left].
  unfold bind at 1 in E.
  destruct (retrieve question 3 w) as [[results| |] w1]; cbn [fst snd] in *;
    try (subst out; now left).
  destruct results as [|r results].
  - subst out. left. exact Hc.
  - destruct (guarded_grading_ends question user_answer
                (build_teaching_prompt question (r :: results)) w1)
      as (w' & Hrun & Hcases).
    rewrite Hrun in E. subst out. cbn [snd]. rewrite <- Hc. exact Hcases.
Qed.

(** [retrieve] returns, or raises the shape error. *)
Lemma retrieve_ends w query top_k :
  (exists results, fst (retrieve query top_k w) = Ok results) \/
  (exists n m, n <> m /\
     fst (retrieve query top_k w) = Raise (shapes_not_aligned n m)).
Proof.
  rewrite RetrievalFacts.retrieve_by_reply.
  destruct (query_reply w query) as [q|e]; [|left; now eexists].
  pose proof (score_loop_outcome q
                (basename (filepath (retriever w))) (stored_items w) 0 [])
    as Hout.
  destruct (score_loop q _ 0 (stored_items w) []) as [scored|e|].
  - left. now eexists.
  - right. destruct Hout as (i & c & v & _ & [Hlen _] & -> & _).
    now exists (length q), (length v).
  - contradiction.
Qed.

(** X23. The handler guards the generation and grading steps only. When
    it does not end normally, the answer was not blank and [retrieve]
    raised numpy's shape error, on two different lengths, which leaves the
    handler uncaught; the page, the conversation and the response log are
    then as before. *)
Theorem submit_fails_only_in_retrieval w question user_answer :
  fst (submit_answer question user_answer w) <> Ok tt ->
  truthy (strip user_answer) = true /\
  (exists n m, n <> m /\
     fst (retrieve question 3 w) = Raise (shapes_not_aligned n m) /\
     fst (submit_answer question user_answer w)
     = Raise (shapes_not_aligned n m)) /\
  page (snd (submit_answer question user_answer w)) = page w /\
  conversation (snd (submit_answer question user_answer w)) = conversation w /\
  response_logger (snd (submit_answer question user_answer w))
  = response_logger w.
Proof.
  destruct (retrieve_frame w question) as (_ & _ & Hp & Hc & Hl).
  cbv zeta in Hp, Hc, Hl.
  pose proof (retrieve_ends w question 3) as Hends.
  remember (submit_answer question user_answer w) as out eqn:E.
  unfold submit_answer in E.
  destruct (truthy (strip user_answer));
    [|subst out; intros H; now destruct H].
  unfold bind at 1 in E.
  destruct (retrieve question 3 w) as [o w1]. cbn [fst snd] in *.
  destruct Hends as [[results ->]|(n & m & Hnm & ->)].
  - intros Hnot. exfalso. apply Hnot. destruct results as [|r results].
    + subst out. reflexivity.
    + destruct (guarded_grading_ends question user_answer
                  (build_teaching_prompt question (r :: results)) w1)
        as (w' & Hrun & _).
      rewrite Hrun in E. subst out. reflexivity.
  - intros _. subst out. cbn [fst snd].
    split; [reflexivity|]. split; [|repeat split; assumption].
    exists n, m. repeat split. exact Hnm.
Qed.

Lemma submit_fails_only_in_retrieval_witness :
  fst (submit_answer Scenario.sample_question Scenario.sample_answer
         (Scenario.loaded
            [Replied [1; 0]; Replied [0; 1]; Replied [1]]%float []))
  = Raise (shapes_not_aligned 1 2).
Proof.
  destruct (submit_fails_only_in_retrieval
              (Scenario.loaded
                 [Replied [1; 0]; Replied [0; 1]; Replied [1]]%float [])
              Scenario.sample_question Scenario.sample_answer)
    as (_ & (n & m & _ & Hr & Hs) & _).
  - vm_compute. discriminate.
  - assert (E : fst (retrieve Scenario.sample_question 3
                       (Scenario.loaded
                          [Replied [1; 0]; Replied [0; 1]; Replied [1]]%float
                          []))
                = Raise (shapes_not_aligned 1 2))
      by (vm_compute; reflexivity).
    rewrite E in Hr. rewrite Hs.
    generalize dependent (shapes_not_aligned n m).
    generalize (shapes_not_aligned 1 2). intros e e' Hr _. congruence.
Defined.

End HandlerFacts.

From Stdlib Require DecimalNat.

(* ================================================================== *)
(** ** From chunk_text.py to embed_and_store.py: the order of the chunk
    files *)

Module ScriptsFacts.
Import Py PyFacts.
Import Scripts.

(** *** File names *)

Lemma lit_inj s1 s2 : lit s1 = lit s2 -> s1 = s2.
Proof.
  unfold lit. intros H.
  apply (f_equal (List.map ascii_of_N)) in H.
  rewrite !map_map in H.
  rewrite !(map_ext _ (fun a => a) ascii_N_embedding), !map_id in H.
  rewrite <- (string_of_list_ascii_of_string s1),
          <- (string_of_list_ascii_of_string s2).
  now rewrite H.
Qed.

Lemma decimal_inj i j : decimal i = decimal j -> i = j.
Proof.
  unfold decimal. intros H. apply lit_inj in H.
  apply DecimalNat.Unsigned.to_uint_inj.
  pose proof (NilEmpty.usu (Nat.to_uint i)) as Hi.
  pose proof (NilEmpty.usu (Nat.to_uint j)) as Hj.
  rewrite H in Hi. congruence.
Qed.

Lemma chunk_file_name_inj i j :
  chunk_file_name i = chunk_file_name j -> i = j.
Proof.
  unfold chunk_file_name. intros H.
  apply app_inv_head in H. apply app_inv_tail in H. now apply decimal_inj.
Qed.

Lemma startswith_app p : forall rest, startswith (p ++ rest) p = true.
Proof.
  induction p as [|c p IH]; intros rest; simpl.
  - now destruct rest.
  - now rewrite N.eqb_refl, IH.
Qed.

Lemma chunk_file_name_txt i : endswith (chunk_file_name i) (lit ".txt") = true.
Proof.
  unfold endswith, chunk_file_name. rewrite !rev_app_distr, <- app_assoc.
  apply startswith_app.
Qed.

(** *** The order of [sorted] *)

Definition str_le (a b : str) : Prop := str_ltb b a = false.

Lemma str_ltb_irrefl a : str_ltb a a = false.
Proof.
  induction a as [|x a IH]; simpl; [reflexivity|].
  now rewrite N.ltb_irrefl, N.eqb_refl, IH.
Qed.

Lemma str_ltb_trans : forall a b c,
  str_ltb a b = true -> str_ltb b c = true -> str_ltb a c = true.
Proof.
  induction a as [|x a IH]; intros [|y b] [|z c] Hab Hbc; simpl in *;
    try discriminate; try reflexivity.
  apply orb_true_iff in Hab, Hbc. apply orb_true_iff.
  rewrite !andb_true_iff, !N.ltb_lt, !N.eqb_eq in *.
  destruct Hab as [Hab|[-> Hab]], Hbc as [Hbc|[<- Hbc]].
  - left. lia.
  - now left.
  - now left.
  - right. split; [reflexivity | now apply IH with (b := b)].
Qed.

Lemma str_ltb_total : forall a b,
  a = b \/ str_ltb a b = true \/ str_ltb b a = true.
Proof.
  induction a as [|x a IH]; intros [|y b]; simpl; auto.
  destruct (N.compare_spec x y) as [->|Hlt|Hgt].
  - rewrite N.ltb_irrefl, N.eqb_refl. simpl.
    destruct (IH b) as [->|[H|H]]; auto.
  - right. left. apply N.ltb_lt in Hlt. now rewrite Hlt.
  - right. right. apply N.ltb_lt in Hgt. now rewrite Hgt.
Qed.

Lemma str_ltb_asym a b : str_ltb a b = true -> str_ltb b a = false.
Proof.
  intros H. destruct (str_ltb b a) eqn:E; [|reflexivity].
  pose proof (str_ltb_trans a b a H E) as Haa.
  now rewrite str_ltb_irrefl in Haa.
Qed.

Lemma str_le_trans a b c : str_le a b -> str_le b c -> str_le a c.
Proof.
  unfold str_le. intros Hab Hbc.
  destruct (str_ltb c a) eqn:Hca; [|reflexivity].
  destruct (str_ltb_total a b) as [->|[H|H]]; [congruence| |congruence].
  pose proof (str_ltb_trans c a b Hca H). congruence.
Qed.

Lemma str_le_antisym a b : str_le a b -> str_le b a -> a = b.
Proof.
  unfold str_le. intros Hab Hba.
  destruct (str_ltb_total a b) as [->|[H|H]]; congruence.
Qed.

Lemma insert_sorted_perm x : forall l, Permutation (insert_sorted x l) (x :: l).
Proof.
  induction l as [|y l IH]; simpl; [reflexivity|].
  destruct (str_ltb y x); [|reflexivity].
  rewrite IH. apply perm_swap.
Qed.

Lemma sorted_perm : forall l, Permutation (sorted l) l.
Proof.
  induction l as [|x l IH]; simpl; [reflexivity|].
  rewrite insert_sorted_perm. now constructor.
Qed.

Lemma insert_sorted_ascending x : forall l,
  StronglySorted str_le l -> StronglySorted str_le (insert_sorted x l).
Proof.
  induction l as [|y l IH]; intros Hs; simpl.
  - repeat constructor.
  - inversion Hs as [|? ? Hs' Hy]; subst.
    destruct (str_ltb y x) eqn:E.
    + constructor; [now apply IH|].
      apply (Permutation_Forall (Permutation_sym (insert_sorted_perm x l))).
      constructor; [|exact Hy]. now apply str_ltb_asym.
    + constructor; [exact Hs|]. constructor; [exact E|].
      eapply Forall_impl; [|exact Hy]. intros z Hz.
      now apply str_le_trans with (b := y).
Qed.

Lemma sorted_ascending : forall l, StronglySorted str_le (sorted l).
Proof.
  induction l as [|x l IH]; simpl; [constructor|].
  now apply insert_sorted_ascending.
Qed.

(** Two ascending lists with the same members are the same list. *)
Lemma ascending_unique : forall l1 l2,
  StronglySorted str_le l1 -> StronglySorted str_le l2 ->
  Permutation l1 l2 -> l1 = l2.
Proof.
  induction l1 as [|a l1 IH]; intros l2 H1 H2 P.
  - apply Permutation_nil in P. now subst.
  - destruct l2 as [|b l2];
      [apply Permutation_sym, Permutation_nil in P; discriminate|].
    inversion H1 as [|? ? H1' Ha]; inversion H2 as [|? ? H2' Hb]; subst.
    assert (a = b).
    { rewrite Forall_forall in Ha, Hb.
      assert (In a (b :: l2)) as [->|Hin]
        by (apply (Permutation_in _ P); now left); [reflexivity|].
      assert (In b (a :: l1)) as [->|Hin']
        by (apply (Permutation_in _ (Permutation_sym P)); now left);
        [reflexivity|].
      apply str_le_antisym; [now apply Ha | now apply Hb]. }
    subst b. f_equal. apply IH; try assumption.
    now apply Permutation_cons_inv in P.
Qed.

(** In an ascending list a smaller name stands before a larger one. *)
Lemma ascending_positions : forall l x y,
  StronglySorted str_le l -> In x l -> In y l -> str_ltb x y = true ->
  exists i j, i < j /\ nth_error l i = Some x /\ nth_error l j = Some y.
Proof.
  induction l as [|z l IH]; intros x y Hs Hx Hy Hlt; [contradiction|].
  inversion Hs as [|? ? Hs' Hz]; subst. rewrite Forall_forall in Hz.
  destruct Hx as [->|Hx].
  - destruct Hy as [->|Hy]; [now rewrite str_ltb_irrefl in Hlt|].
    apply In_nth_error in Hy. destruct Hy as [j Hj].
    exists 0, (S j). repeat split; [lia | assumption].
  - destruct Hy as [->|Hy].
    + specialize (Hz x Hx). unfold str_le in Hz. congruence.
    + destruct (IH x y Hs' Hx Hy Hlt) as (i & j & Hij & Hi & Hj).
      exists (S i), (S j). repeat split; [lia | assumption | assumption].
Qed.

(** *** The folder the first script leaves *)

Definition saved_names (first n : nat) : list str :=
  List.map chunk_file_name (seq first n).

Lemma str_eqb_eq a b : str_eqb a b = true <-> a = b.
Proof. unfold str_eqb. destruct (list_eq_dec N.eq_dec a b); split; congruence. Qed.

Lemma write_file_fresh name content : forall d,
  ~ In name (List.map fst d) -> write_file name content d = d ++ [(name, content)].
Proof.
  induction d as [|[n c] d IH]; intros Hfresh; simpl; [reflexivity|].
  destruct (str_eqb n name) eqn:E.
  - apply str_eqb_eq in E. subst n. destruct Hfresh. now left.
  - rewrite IH; [reflexivity|]. intros Hin. apply Hfresh. now right.
Qed.

Lemma save_loop_fresh : forall chunks i d out,
  (forall k, In (chunk_file_name k) (List.map fst d) -> k < i) ->
  fst (save_loop i chunks d out)
  = d ++ combine (saved_names i (length chunks)) chunks.
Proof.
  induction chunks as [|c chunks IH]; intros i d out Hold; simpl.
  - now rewrite app_nil_r.
  - rewrite write_file_fresh
      by (intros Hin; apply Hold in Hin; lia).
    rewrite IH.
    + now rewrite <- app_assoc.
    + intros k Hin. rewrite map_app in Hin. apply in_app_or in Hin.
      destruct Hin as [Hin|[Hin|[]]].
      * apply Hold in Hin. lia.
      * simpl in Hin. apply chunk_file_name_inj in Hin. lia.
Qed.

Lemma saved_names_NoDup first n : NoDup (saved_names first n).
Proof.
  unfold saved_names. revert first.
  induction n as [|n IH]; intros first; simpl; constructor; [|apply IH].
  intros Hin. apply in_map_iff in Hin. destruct Hin as [k [E Hk]].
  apply chunk_file_name_inj in E. apply in_seq in Hk. lia.
Qed.

Lemma map_fst_combine {A B : Type} : forall (l1 : list A) (l2 : list B),
  length l1 = length l2 -> List.map fst (combine l1 l2) = l1.
Proof.
  induction l1 as [|a l1 IH]; intros [|b l2] H; simpl in *;
    try discriminate; [reflexivity|].
  f_equal. apply IH. congruence.
Qed.

Lemma read_file_combine : forall names contents k name,
  NoDup names -> nth_error names k = Some name ->
  length names = length contents ->
  read_file (combine names contents) name = nth_error contents k.
Proof.
  induction names as [|n names IH]; intros [|c contents] k name Hnd Hk Hlen;
    simpl in *; try discriminate.
  - destruct k; discriminate.
  - inversion Hnd as [|? ? Hfresh Hnd']; subst.
    destruct k as [|k]; simpl in *.
    + injection Hk as ->.
      now rewrite (proj2 (str_eqb_eq name name) eq_refl).
    + destruct (str_eqb n name) eqn:E.
      * apply str_eqb_eq in E. subst n. apply nth_error_In in Hk.
        contradiction.
      * apply IH; [assumption | assumption | congruence].
Qed.

(** The folder after the saving loop has run in an empty folder. *)
Lemma saved_folder chunks out :
  fst (save_loop 1 chunks [] out)
  = combine (saved_names 1 (length chunks)) chunks.
Proof. apply (save_loop_fresh chunks 1 [] out). intros k []. Qed.

Lemma saved_names_length first n : length (saved_names first n) = n.
Proof. unfold saved_names. now rewrite length_map, length_seq. Qed.

(** Reading a saved file gives back its chunk. *)
Lemma read_saved chunks k :
  k < length chunks ->
  read_file (combine (saved_names 1 (length chunks)) chunks)
    (chunk_file_name (S k))
  = nth_error chunks k.
Proof.
  intros Hk. apply read_file_combine.
  - apply saved_names_NoDup.
  - unfold saved_names. rewrite nth_error_map, nth_error_seq.
    destruct (Nat.ltb_spec k (length chunks)); [reflexivity | lia].
  - apply saved_names_length.
Qed.

(** *** The loading loop *)

Lemma load_loop_reads d : forall names acc,
  (forall name, In name names ->
     endswith name (lit ".txt") = true /\
     exists content, read_file d name = Some content) ->
  exists loaded,
    load_loop names d acc = Ok (acc ++ loaded) /\
    Forall2 (fun name content => read_file d name = Some content)
            names loaded.
Proof.
  induction names as [|name names IH]; intros acc Hall; simpl.
  - exists []. split; [now rewrite app_nil_r | constructor].
  - destruct (Hall name (or_introl eq_refl)) as [Htxt [content Hread]].
    rewrite Htxt, Hread.
    destruct (IH (acc ++ [content])) as [loaded [Hrun Hall2]].
    { intros n Hn. apply Hall. now right. }
    exists (content :: loaded). split.
    + rewrite Hrun. now rewrite <- app_assoc.
    + now constructor.
Qed.

Lemma Forall2_nth_error {A B : Type} (R : A -> B -> Prop) :
  forall l1 l2 i a, Forall2 R l1 l2 -> nth_error l1 i = Some a ->
  exists b, nth_error l2 i = Some b /\ R a b.
Proof.
  intros l1 l2 i a H. revert i.
  induction H as [|x y l1 l2 Hxy _ IH]; intros [|i] Hi; simpl in *;
    try discriminate.
  - injection Hi as <-. now exists y.
  - now apply IH.
Qed.

(** X24. With at most nine chunks the two scripts agree on the order: from
    an empty folder, whatever order [os.listdir] reports the files in,
    embed_and_store.py reads back exactly the chunk list chunk_text.py
    saved. *)
Theorem nine_chunks_round_trip chunks listing out :
  length chunks <= 9 ->
  Permutation listing (List.map fst (fst (save_loop 1 chunks [] out))) ->
  load_chunks listing (fst (save_loop 1 chunks [] out)) = Ok chunks.
Proof.
  intros Hlen Hlist. rewrite saved_folder in *.
  rewrite map_fst_combine in Hlist by apply saved_names_length.
  unfold load_chunks.
  assert (Hnames : sorted listing = saved_names 1 (length chunks)).
  { apply ascending_unique.
    - apply sorted_ascending.
    - do 10 (destruct chunks as [|? chunks];
             [repeat constructor|]).
      simpl in Hlen. lia.
    - now rewrite sorted_perm. }
  rewrite Hnames.
  do 10 (destruct chunks as [|? chunks]; [reflexivity|]).
  simpl in Hlen. lia.
Qed.

Lemma nine_chunks_round_trip_witness :
  load_chunks [chunk_file_name 2; chunk_file_name 1]
    (fst (save_loop 1 [lit "Media informs."; lit "Media sells."] [] []))
  = Ok [lit "Media informs."; lit "Media sells."].
Proof.
  apply nine_chunks_round_trip.
  - simpl. lia.
  - apply perm_swap.
Defined.

(** X25. With ten or more chunks the two scripts disagree: the files are
    read in the order of their names as strings, where [chunk_10.txt]
    sorts before [chunk_9.txt]. From an empty folder every file is read,
    but the tenth chunk saved comes back at an earlier position than the
    ninth, so the positions [process_chunks] numbers the chunks by are not
    the numbers in the file names. *)
Theorem tenth_chunk_read_before_ninth chunks listing out :
  10 <= length chunks ->
  Permutation listing (List.map fst (fst (save_loop 1 chunks [] out))) ->
  exists loaded i j,
    load_chunks listing (fst (save_loop 1 chunks [] out)) = Ok loaded /\
    length loaded = length chunks /\
    i < j /\
    nth_error loaded i = nth_error chunks 9 /\
    nth_error loaded j = nth_error chunks 8.
Proof.
  intros Hlen Hlist. rewrite saved_folder in *.
  rewrite map_fst_combine in Hlist by apply saved_names_length.
  set (d := combine (saved_names 1 (length chunks)) chunks) in *.
  assert (Hperm : Permutation (sorted listing)
                    (saved_names 1 (length chunks)))
    by now rewrite sorted_perm.
  assert (Hsaved : forall name, In name (sorted listing) ->
            exists k, k < length chunks /\ name = chunk_file_name (S k)).
  { intros name Hin. apply (Permutation_in _ Hperm) in Hin.
    apply in_map_iff in Hin. destruct Hin as [k [<- Hk]].
    apply in_seq in Hk. exists (k - 1). split; [lia|]. f_equal. lia. }
  destruct (load_loop_reads d (sorted listing) []) as [loaded [Hrun Hall]].
  { intros name Hin. destruct (Hsaved name Hin) as [k [Hk ->]]. split.
    - apply chunk_file_name_txt.
    - unfold d. rewrite read_saved by exact Hk.
      destruct (nth_error chunks k) eqn:E; [now eexists|].
      apply nth_error_None in E. lia. }
  assert (Hin : forall k, k < length chunks ->
            In (chunk_file_name (S k)) (sorted listing)).
  { intros k Hk. apply (Permutation_in _ (Permutation_sym Hperm)).
    apply in_map. apply in_seq. lia. }
  destruct (ascending_positions (sorted listing)
              (chunk_file_name 10) (chunk_file_name 9)
              (sorted_ascending listing)
              (Hin 9 ltac:(lia)) (Hin 8 ltac:(lia)) eq_refl)
    as (i & j & Hij & Hi & Hj).
  destruct (Forall2_nth_error _ _ _ _ _ Hall Hi) as [ci [Hci Hri]].
  destruct (Forall2_nth_error _ _ _ _ _ Hall Hj) as [cj [Hcj Hrj]].
  unfold d in Hri, Hrj.
  rewrite read_saved in Hri, Hrj by lia.
  exists loaded, i, j. split; [exact Hrun|]. split; [|split; [exact Hij|]].
  - rewrite <- (Forall2_length Hall), (Permutation_length Hperm).
    apply saved_names_length.
  - split; congruence.
Qed.

Lemma tenth_chunk_read_before_ninth_witness :
  exists loaded i j,
    load_chunks (saved_names 1 10)
      (fst (save_loop 1
              (List.map (fun n => decimal n) (seq 1 10)) [] []))
    = Ok loaded /\
    i < j /\
    nth_error loaded i = Some (lit "10") /\
    nth_error loaded j = Some (lit "9").
Proof.
  destruct (tenth_chunk_read_before_ninth
              (List.map (fun n => decimal n) (seq 1 10))
              (saved_names 1 10) [])
    as (loaded & i & j & Hrun & _ & Hij & Hi & Hj).
  - simpl. lia.
  - reflexivity.
  - exists loaded, i, j. repeat split; assumption.
Defined.

(** *** Running the first script in a folder that holds files already *)

Lemma read_write_same name content : forall d,
  read_file (write_file name content d) name = Some content.
Proof.
  induction d as [|[n c] d IH]; simpl.
  - now rewrite (proj2 (str_eqb_eq name name) eq_refl).
  - destruct (str_eqb n name) eqn:E; simpl.
    + now rewrite (proj2 (str_eqb_eq name name) eq_refl).
    + now rewrite E.
Qed.

Lemma read_write_other name content other : forall d,
  other <> name ->
  read_file (write_file name content d) other = read_file d other.
Proof.
  intros d Hne. induction d as [|[n c] d IH]; simpl.
  - destruct (str_eqb name other) eqn:E; [|reflexivity].
    apply str_eqb_eq in E. congruence.
  - destruct (str_eqb n name) eqn:E; simpl.
    + apply str_eqb_eq in E. subst n.
      destruct (str_eqb name other) eqn:E'; [|reflexivity].
      apply str_eqb_eq in E'. congruence.
    + destruct (str_eqb n other); [reflexivity | exact IH].
Qed.

Lemma save_loop_read_other name : forall chunks i d out,
  (forall k, k < length chunks -> name <> chunk_file_name (i + k)) ->
  read_file (fst (save_loop i chunks d out)) name = read_file d name.
Proof.
  induction chunks as [|c chunks IH]; intros i d out Hother; simpl;
    [reflexivity|].
  rewrite IH.
  - apply read_write_other. specialize (Hother 0 ltac:(simpl; lia)).
    now rewrite Nat.add_0_r in Hother.
  - intros k Hk. specialize (Hother (S k) ltac:(simpl; lia)).
    now rewrite Nat.add_succ_r in Hother.
Qed.

Lemma save_loop_read_saved : forall chunks i d out k,
  k < length chunks ->
  read_file (fst (save_loop i chunks d out)) (chunk_file_name (i + k))
  = nth_error chunks k.
Proof.
  induction chunks as [|c chunks IH]; intros i d out k Hk; simpl in *;
    [lia|].
  destruct k as [|k]; simpl.
  - rewrite save_loop_read_other.
    + rewrite Nat.add_0_r. apply read_write_same.
    + intros k _ E. apply chunk_file_name_inj in E. lia.
  - rewrite <- Nat.add_succ_comm. apply IH. lia.
Qed.

Lemma save_loop_prints : forall chunks i d out,
  snd (save_loop i chunks d out)
  = out ++ List.map
             (fun n => PrintSaved (path_join OUTPUT_FOLDER (chunk_file_name n)))
             (seq i (length chunks)).
Proof.
  induction chunks as [|c chunks IH]; intros i d out; simpl.
  - now rewrite app_nil_r.
  - rewrite IH. now rewrite <- app_assoc.
Qed.

(** X26. Whatever the folder held before, after chunk_text.py has run
    file [chunk_<k>.txt] holds the [k]-th chunk of the text, for every [k]
    up to the number of chunks, and every other file is as it was: chunk
    files with a higher number left by an earlier run stay in the folder.
    The script prints the chunk count, one line per saved file in order,
    and the closing line. *)
Theorem chunk_text_main_overwrites_only_its_files text d :
  let chunks :=
    SentenceChunker.aggressive_recursive_split text
      SentenceChunker.CHUNK_SIZE SentenceChunker.OVERLAP in
  (forall k, k < length chunks ->
     read_file (fst (chunk_text_main text d)) (chunk_file_name (S k))
     = nth_error chunks k) /\
  (forall name,
     (forall k, k < length chunks -> name <> chunk_file_name (S k)) ->
     read_file (fst (chunk_text_main text d)) name = read_file d name) /\
  snd (chunk_text_main text d)
  = PrintCreated (length chunks)
    :: List.map
         (fun n => PrintSaved (path_join OUTPUT_FOLDER (chunk_file_name n)))
         (seq 1 (length chunks))
    ++ [PrintAllSaved].
Proof.
  cbv zeta. unfold chunk_text_main.
  set (chunks := SentenceChunker.aggressive_recursive_split text _ _).
  pose proof (save_loop_read_saved chunks 1 d
                [PrintCreated (length chunks)]) as Hsaved.
  pose proof (fun name =>
                save_loop_read_other name chunks 1 d
                  [PrintCreated (length chunks)]) as Hother.
  pose proof (save_loop_prints chunks 1 d [PrintCreated (length chunks)])
    as Hout.
  destruct (save_loop 1 chunks d [PrintCreated (length chunks)])
    as [d' out]. cbn [fst snd] in *.
  split; [|split].
  - intros k Hk. apply (Hsaved k Hk).
  - intros name Hname. apply Hother. exact Hname.
  - rewrite Hout. reflexivity.
Qed.

End ScriptsFacts.
